(** * Payton: pairwise collision detection

    A shallow embedding of [payton/math/geometry.py] and
    [payton/scene/collision.py], and the properties of the collision
    detector stated over it.

    The loader of Quake 2 models ([payton/scene/geometry/md2.py]) and the
    builders of the sphere and of the cylinder are embedded in modules of
    their own, [MD2], [Sphere] and [Cylinder], each with the exceptions it
    can raise.

    Conventions.
    - Python floats are kept abstract behind the [Scalar] interface; the
      instance [binary64] interprets them as IEEE double precision numbers so
      that the definitions can be run on concrete inputs, and the instance
      [exact] as real numbers, where the geometry of a statement is read.
      The power [x ** 2] on a scalar is kept apart, in [Power].
    - A raised Python exception is the [Raise] outcome of a [result].
    - Objects have identity: the roster and the pair cache hold references
      ([oid]) and the geometry behind a reference is read from a [heap]. *)

From Stdlib Require Import Reals Lra.
From Stdlib Require Import List ZArith Bool Arith Lia String Floats.
From Stdlib Require Import Ascii DecimalString DecimalZ.
Import ListNotations.

Set Implicit Arguments.

(** ** Exceptions and results *)

Inductive exn : Type :=
| IndexError
| TypeError.

Inductive result (A : Type) : Type :=
| Ok (a : A)
| Raise (e : exn).

Arguments Ok {A} a.
Arguments Raise {A} e.

Definition rbind {A B : Type} (r : result A) (k : A -> result B) : result B :=
  match r with
  | Ok a => k a
  | Raise e => Raise e
  end.

Declare Scope result_scope.
Delimit Scope result_scope with result.
Notation "x <- r ;; k" := (rbind r (fun x => k))
  (at level 61, r at next level, right associativity) : result_scope.
Local Open Scope result_scope.

(** Python subscription [l[i]] on a list: a negative index counts from the
    end, anything outside the list raises [IndexError]. *)
Definition getitem {A : Type} (l : list A) (i : Z) : result A :=
  let n := Z.of_nat (List.length l) in
  let k := if (i <? 0)%Z then (i + n)%Z else i in
  if ((0 <=? k) && (k <? n))%Z
  then match nth_error l (Z.to_nat k) with
       | Some a => Ok a
       | None => Raise IndexError
       end
  else Raise IndexError.

(** ** Scalars *)

(** The floating point operations the two modules use. [float32] is the
    conversion [np.array(_, dtype=np.float32)] applies to each component. *)
Class Scalar : Type := {
  num : Type;
  add : num -> num -> num;
  sub : num -> num -> num;
  mul : num -> num -> num;
  sqrt : num -> num;
  leb : num -> num -> bool;
  ltb : num -> num -> bool;
  zero : num;
  one : num;
  float32 : num -> num
}.

(** [v ** 2] on a component of an array: numpy squares an array by
    multiplying each component by itself. *)
Definition sqr {S : Scalar} (x : num) : num := mul x x.

(** [a > b] is [b < a]. *)
Definition gtb {S : Scalar} (a b : num) : bool := ltb b a.

(** [x ** 2] on a number that is not an array. Python and numpy hand it to
    the power function of the platform's mathematics library, which need
    not round as the product [x * x] does: [length_pow2] is the power on
    the number [pyrr.vector3.length] returns, [radius_pow2] the power on the
    radius the caller gives. *)
Class Power (S : Scalar) : Type := {
  length_pow2 : num -> num;
  radius_pow2 : num -> num
}.

(** Rounding of a double to the nearest single precision number (ties to
    even), as a double. *)
Definition round_binary32 (x : float) : float :=
  match Prim2SF x with
  | S754_finite s m e =>
      SF2Prim (binary_normalize 24 128 (if s then Z.neg m else Z.pos m) e s)
  | _ => x
  end.

Definition binary64 : Scalar := {|
  num := float;
  add := PrimFloat.add;
  sub := PrimFloat.sub;
  mul := PrimFloat.mul;
  sqrt := PrimFloat.sqrt;
  leb := PrimFloat.leb;
  ltb := PrimFloat.ltb;
  zero := 0%float;
  one := 1%float;
  float32 := round_binary32
|}.

(** Exact arithmetic: the same operations on real numbers, where nothing
    is rounded and a square is a product. This is where the geometry of a
    claim is read. *)
Definition Rleb (a b : R) : bool := if Rle_dec a b then true else false.

Definition Rltb (a b : R) : bool := if Rlt_dec a b then true else false.

Definition exact : Scalar := {|
  num := R;
  add := Rplus;
  sub := Rminus;
  mul := Rmult;
  sqrt := R_sqrt.sqrt;
  leb := Rleb;
  ltb := Rltb;
  zero := 0%R;
  one := 1%R;
  float32 := fun x => x
|}.



(** ** payton.math.geometry *)

Module Geometry.
Section Geometry.
Context {S : Scalar}.

(** A row of a 4x4 matrix, or a homogeneous point or direction. *)
Record vec4 : Type := Vec4 { vx : num; vy : num; vz : num; vw : num }.

(** [v2 - v1] on arrays, component by component. *)
Definition vsub (a b : vec4) : vec4 :=
  Vec4 (sub (vx a) (vx b)) (sub (vy a) (vy b))
       (sub (vz a) (vz b)) (sub (vw a) (vw b)).

(** [pyrr.vector3.length]: the square root of the sum of the squared
    components of the array it is given. *)
Definition vector_length (v : vec4) : num :=
  sqrt (add (add (add (sqr (vx v)) (sqr (vy v))) (sqr (vz v))) (sqr (vw v))).

Definition point_project (p origin direction : vec4) : num :=
  add (add (mul (vx direction) (sub (vx p) (vx origin)))
           (mul (vy direction) (sub (vy p) (vy origin))))
      (mul (vz direction) (sub (vz p) (vz origin))).

Definition distance (v1 v2 : vec4) : num :=
  let v3 := vsub v2 v1 in
  vector_length v3.

Definition distance2 {P : Power S} (v1 v2 : vec4) : num :=
  let v3 := vsub v2 v1 in
  length_pow2 (vector_length v3).

Definition combine (v1 v2 : vec4) (f1 f2 : num) : vec4 :=
  let x := add (mul f1 (vx v1)) (mul f2 (vx v2)) in
  let y := add (mul f1 (vy v1)) (mul f2 (vy v2)) in
  let z := add (mul f1 (vz v1)) (mul f2 (vz v2)) in
  let w := add (mul f1 (vw v1)) (mul f2 (vw v2)) in
  Vec4 (float32 x) (float32 y) (float32 z) (float32 w).

Definition raycast_sphere_intersect {P : Power S}
    (start vector sphere_center : vec4) (sphere_radius : num) : bool :=
  let proj := point_project sphere_center start vector in
  let proj := if ltb proj zero then zero else proj in
  let vc := combine start vector one proj in
  let dist := distance2 sphere_center vc in
  ltb dist (radius_pow2 sphere_radius).

End Geometry.

(** A row of double precision numbers. *)
Definition row (x y z w : float) : @vec4 binary64 := Vec4 (S := binary64) x y z w.

End Geometry.

(** ** payton.scene.collision: the classification of one pair *)

Module Collision.
Import Geometry.

(** The methods [_test] calls, in the order it calls them. *)
Inductive call : Type :=
| BoundingSphere
| SphereInSphere
| MeshCollision.

Section Classification.
Context {S : Scalar}.

(** A point of a triangle: three [float32] components. *)
Definition point : Type := (num * num * num)%type.

(** What the detector reads of a tracked object: whether it is an instance
    of [Sphere], row 3 of its model matrix once [update_matrix] has run,
    its bounding radius and its flat index and vertex buffers. *)
Record Object : Type := {
  is_Sphere : bool;
  _model_matrix_3 : vec4;
  bounding_radius : num;
  _indices : list Z;
  _vertices : list num
}.

(** [line_triangle_intersect] is imported from [payton.math.geometry]; it
    takes a segment and a triangle and answers with a boolean. *)
Variable line_triangle_intersect :
  point -> point -> point -> point -> point -> bool.

Definition _dist (obj1 obj2 : Object) : num :=
  let p1 := _model_matrix_3 obj1 in
  let p2 := _model_matrix_3 obj2 in
  distance p1 p2.

Definition _bounding_sphere_collision (obj1 obj2 : Object) : bool :=
  let dist := _dist obj1 obj2 in
  let total_radius := add (bounding_radius obj1) (bounding_radius obj2) in
  leb dist total_radius.

Definition _sphere_in_sphere_collision (obj1 obj2 : Object) : bool :=
  let dist := _dist obj1 obj2 in
  if gtb (bounding_radius obj1) (add dist (bounding_radius obj2)) then true
  else if gtb (bounding_radius obj2) (add dist (bounding_radius obj1)) then true
  else false.

(** [np.array([v[i * 3], v[i * 3 + 1], v[i * 3 + 2]], dtype=np.float32)] *)
Definition vertex (vertices : list num) (i : Z) : result point :=
  x <- getitem vertices (i * 3)%Z ;;
  y <- getitem vertices (i * 3 + 1)%Z ;;
  z <- getitem vertices (i * 3 + 2)%Z ;;
  Ok (float32 x, float32 y, float32 z).

(** The six segment tests of one pair of triangles, in the order of the
    source; the first positive one answers. *)
Definition six_tests (p1 p2 p3 q1 q2 q3 : point) : bool :=
  if line_triangle_intersect p1 p2 q1 q2 q3 then true
  else if line_triangle_intersect p1 p3 q1 q2 q3 then true
  else if line_triangle_intersect p2 p3 q1 q2 q3 then true
  else if line_triangle_intersect q1 q2 p1 p2 p3 then true
  else if line_triangle_intersect q1 q3 p1 p2 p3 then true
  else if line_triangle_intersect q2 q3 p1 p2 p3 then true
  else false.

(** [range(math.floor(len(indices) / 3))] *)
Definition triangle_range (indices : list Z) : list nat :=
  seq 0 (List.length indices / 3).

(** The inner loop of [_mesh_collision] over the triangles [js] of [obj2]:
    [Ok true] is the early [return True], [Ok false] is the loop running
    to its end. The third index of a triangle of [obj2] is read from
    [obj1._indices], as the source does. *)
Fixpoint _mesh_collision_inner
    (obj1 obj2 : Object) (p1 p2 p3 : point) (js : list nat) : result bool :=
  match js with
  | [] => Ok false
  | j :: js' =>
      let jx := (Z.of_nat j * 3)%Z in
      i1 <- getitem (_indices obj2) jx ;;
      i2 <- getitem (_indices obj2) (jx + 1)%Z ;;
      i3 <- getitem (_indices obj1) (jx + 2)%Z ;;
      q1 <- vertex (_vertices obj2) i1 ;;
      q2 <- vertex (_vertices obj2) i2 ;;
      q3 <- vertex (_vertices obj2) i3 ;;
      if six_tests p1 p2 p3 q1 q2 q3 then Ok true
      else _mesh_collision_inner obj1 obj2 p1 p2 p3 js'
  end.

(** The outer loop over the triangles [ks] of [obj1]. *)
Fixpoint _mesh_collision_outer
    (obj1 obj2 : Object) (ks : list nat) : result bool :=
  match ks with
  | [] => Ok false
  | i :: ks' =>
      let ix := (Z.of_nat i * 3)%Z in
      i1 <- getitem (_indices obj1) ix ;;
      i2 <- getitem (_indices obj1) (ix + 1)%Z ;;
      i3 <- getitem (_indices obj1) (ix + 2)%Z ;;
      p1 <- vertex (_vertices obj1) i1 ;;
      p2 <- vertex (_vertices obj1) i2 ;;
      p3 <- vertex (_vertices obj1) i3 ;;
      hit <- _mesh_collision_inner obj1 obj2 p1 p2 p3
               (triangle_range (_indices obj2)) ;;
      if hit then Ok true
      else _mesh_collision_outer obj1 obj2 ks'
  end.

Definition _mesh_collision (obj1 obj2 : Object) : result bool :=
  _mesh_collision_outer obj1 obj2 (triangle_range (_indices obj1)).

(** [_test], together with the methods it called on the way. *)
Definition _test (obj1 obj2 : Object) : list call * result bool :=
  if is_Sphere obj1 && is_Sphere obj2 then
    ([BoundingSphere], Ok (_bounding_sphere_collision obj1 obj2))
  else if negb (_bounding_sphere_collision obj1 obj2) then
    ([BoundingSphere], Ok false)
  else if _sphere_in_sphere_collision obj1 obj2 then
    ([BoundingSphere; SphereInSphere], Ok true)
  else
    ([BoundingSphere; SphereInSphere; MeshCollision],
     _mesh_collision obj1 obj2).

(** The value [_test] returns, or the exception it raises. *)
Definition classify (obj1 obj2 : Object) : result bool :=
  snd (_test obj1 obj2).

End Classification.

(** ** payton.scene.collision: the detector *)

(** A reference to a tracked object. Two references are the same object
    exactly when they are equal. *)
Definition oid : Type := nat.

(** An entry [[obj1, obj2]] of [_pairs]. *)
Abbreviation refs := (oid * oid)%type (only parsing).

Definition swap (p : refs) : refs := (snd p, fst p).

(** [[a, b] == [c, d]] on lists of two references. *)
Definition pair_eqb (p q : refs) : bool :=
  Nat.eqb (fst p) (fst q) && Nat.eqb (snd p) (snd q).

(** [p in pairs] *)
Definition pair_in (p : refs) (pairs : list refs) : bool :=
  existsb (pair_eqb p) pairs.

(** [pairs.remove(p)]: the first entry equal to [p] goes. The source calls
    it only after [p in pairs] answered yes. *)
Fixpoint list_remove (p : refs) (pairs : list refs) : list refs :=
  match pairs with
  | [] => []
  | q :: pairs' => if pair_eqb q p then pairs' else q :: list_remove p pairs'
  end.

(** The value handed over as [callback]: [None] when the keyword is left
    out, a function, or anything else. *)
Inductive pyvalue : Type :=
| PyNone
| PyFunction (name : string)
| PyOther (repr : string).

Definition callable (v : pyvalue) : bool :=
  match v with
  | PyFunction _ => true
  | _ => false
  end.

Record Detector : Type := {
  objects : list oid;
  callback : pyvalue;
  _pairs : list refs
}.

Definition set_pairs (d : Detector) (pairs : list refs) : Detector :=
  {| objects := objects d; callback := callback d; _pairs := pairs |}.

(** What a run leaves behind besides the detector's fields: the records
    sent to [logging.error], the calls of [_test] with what they called and
    how they ended, and the calls of the callback with its two arguments. *)
Inductive event : Type :=
| Logged (msg : string)
| Tested (obj1 obj2 : oid) (calls : list call) (out : result bool)
| Called (f : pyvalue) (self : Detector) (pairs : list refs).

(** Methods run on the detector and the events so far; an exception leaves
    both as they were when it was raised. *)
Definition state : Type := (Detector * list event)%type.

Definition M (A : Type) : Type := state -> result A * state.

Definition ret {A : Type} (a : A) : M A := fun st => (Ok a, st).

Definition bind {A B : Type} (m : M A) (k : A -> M B) : M B :=
  fun st =>
    match m st with
    | (Ok a, st') => k a st'
    | (Raise e, st') => (Raise e, st')
    end.

Definition lift {A : Type} (r : result A) : M A := fun st => (r, st).

Definition raise {A : Type} (e : exn) : M A := lift (Raise e).

Definition self : M Detector := fun st => (Ok (fst st), st).

Definition emit (ev : event) : M unit :=
  fun st => (Ok tt, (fst st, snd st ++ [ev])).

(** [self._pairs.append(p)] *)
Definition append_pair (p : refs) : M unit :=
  fun st => (Ok tt, (set_pairs (fst st) (_pairs (fst st) ++ [p]), snd st)).

Declare Scope detector_scope.
Delimit Scope detector_scope with detector.
Notation "x <- m ;; k" := (bind m (fun x => k))
  (at level 61, m at next level, right associativity) : detector_scope.
Notation "m ;;; k" := (bind m (fun _ => k))
  (at level 61, right associativity) : detector_scope.

(** [for x in l: body(x)] *)
Fixpoint for_each {X : Type} (l : list X) (body : X -> M unit) : M unit :=
  match l with
  | [] => ret tt
  | x :: l' => bind (body x) (fun _ => for_each l' body)
  end.

(** [objects[i]] for a position [i] that is not negative. *)
Definition at_position (l : list oid) (i : nat) : result oid :=
  match nth_error l i with
  | Some o => Ok o
  | None => Raise IndexError
  end.

Section Detector.
Context {S : Scalar}.
Variable line_triangle_intersect :
  point -> point -> point -> point -> point -> bool.

(** The objects behind the references while a method runs. *)
Variable heap : oid -> Object.

Local Open Scope detector_scope.

(** [Collision(objects=..., callback=...)]; a keyword left out is [None]
    here. Nothing in the constructor raises. *)
Definition __init__ (objects0 : option (list oid)) (callback0 : option pyvalue)
  : result Detector * list event :=
  let objs := match objects0 with Some l => l | None => [] end in
  let cb := match callback0 with Some v => v | None => PyNone end in
  let log := if negb (callable cb)
             then [Logged "callback should be a callable"]
             else [] in
  (Ok {| objects := objs; callback := cb; _pairs := [] |}, log).

Definition add_object (obj : oid) (d : Detector) : Detector :=
  {| objects := objects d ++ [obj];
     callback := callback d;
     _pairs := _pairs d |}.

Definition resolve (obj1 obj2 : oid) (d : Detector) : Detector :=
  let pair := (obj1, obj2) in
  let pair2 := (obj2, obj1) in
  let pairs := _pairs d in
  let pairs := if pair_in pair pairs then list_remove pair pairs else pairs in
  let pairs := if pair_in pair2 pairs then list_remove pair2 pairs else pairs in
  set_pairs d pairs.

(** The test of one pair of references in [check]: skipped when the pair
    is in [_pairs] in either order, recorded when [_test] says yes. *)
Definition check_pair (obj1 obj2 : oid) : M unit :=
  d <- self ;;
  let pair := (obj1, obj2) in
  let pair2 := (obj2, obj1) in
  if negb (pair_in pair (_pairs d)) && negb (pair_in pair2 (_pairs d)) then
    let (calls, out) := _test line_triangle_intersect (heap obj1) (heap obj2) in
    emit (Tested obj1 obj2 calls out) ;;;
    res <- lift out ;;
    if res : bool then append_pair (obj1, obj2) else ret tt
  else ret tt.

(** The body of the two loops of [check] at the counters [i] and [j]. *)
Definition check_body (i j : nat) : M unit :=
  d <- self ;;
  obj1 <- lift (at_position (objects d) i) ;;
  obj2 <- lift (at_position (objects d) (i + j + 1)) ;;
  check_pair obj1 obj2.

(** [self.callback(self, self._pairs)]: calling what is not callable
    raises [TypeError]; a function is called with the detector and its
    list of pairs, and is taken to return without touching either. *)
Definition call_callback : M unit :=
  d <- self ;;
  if callable (callback d)
  then emit (Called (callback d) d (_pairs d))
  else raise TypeError.

(** [range] of a negative number is empty, as is [seq 0] of a truncated
    subtraction. *)
Definition check : M unit :=
  d <- self ;;
  for_each (seq 0 (List.length (objects d) - 1)) (fun i =>
    d <- self ;;
    for_each (seq 0 (List.length (objects d) - i - 1)) (fun j =>
      check_body i j)) ;;;
  call_callback.

(** A detection pass on a detector, with a fresh list of events. *)
Definition run_check (d : Detector) : result unit * state := check (d, []).

End Detector.
End Collision.

(** ** payton.scene.geometry.md2: reading blocks and the header *)

Module MD2.

(** The exceptions the module raises or lets through. [ValueError n] is the
    one of [read_block], "MD2: Failed to read 'n' bytes"; [StructError] is
    [struct.error], [LookupError k] the [KeyError] of a dictionary without
    the key [k], and [SubscriptError] the [IndexError] of a list. *)
Inductive error : Type :=
| ValueError (total_length : nat)
| BaseException (msg : string)
| UnicodeDecodeError
| StructError
| ZeroDivisionError
| LookupError (key : string)
| SubscriptError.

Inductive outcome (A : Type) : Type :=
| Returns (a : A)
| Raises (e : error).

Arguments Returns {A} a.
Arguments Raises {A} e.

(** A binary file open for reading: its bytes and the position of the next
    read. *)
Record stream : Type := {
  content : list Byte.byte;
  position : nat
}.

(** [b.read(n)] for a length that is not negative: at most [n] bytes from
    the position on, fewer at the end of the file; the position moves past
    what was read. *)
Definition read (n : nat) (b : stream) : list Byte.byte * stream :=
  let data := firstn n (skipn (position b) (content b)) in
  (data, {| content := content b; position := position b + List.length data |}).

(** A [struct] format: [calcsize] is its size in bytes and [unpack] what
    [struct.unpack] makes of a chunk, [struct.error] when the chunk has
    another size. *)
Record format (T : Type) : Type := {
  calcsize : nat;
  unpack : list Byte.byte -> outcome T
}.

Arguments calcsize {T} f.
Arguments unpack {T} f.

(** The generator [chunks] of [read_block], run to its end: the slices
    [data[offset:offset + size]] while [offset < len(data)]. [fuel] bounds
    the number of rounds; [None] is the loop still running when the fuel is
    spent. *)
Fixpoint chunks_loop (fuel : nat) (data : list Byte.byte) (size offset : nat)
  : option (list (list Byte.byte)) :=
  if offset <? List.length data then
    match fuel with
    | 0 => None
    | Datatypes.S fuel' =>
        let yield_size := offset + size in
        match chunks_loop fuel' data size (offset + size) with
        | Some rest => Some (firstn (yield_size - offset) (skipn offset data) :: rest)
        | None => None
        end
    end
  else Some [].

(** One round per byte is enough whenever the loop ends at all. *)
Definition chunks (data : list Byte.byte) (size : nat)
  : option (list (list Byte.byte)) :=
  chunks_loop (List.length data) data size 0.

(** [[struct.unpack(format_str, chunk) for chunk in ...]]: the first chunk
    that does not unpack ends the comprehension. *)
Fixpoint unpack_all {T : Type} (fmt : format T) (cs : list (list Byte.byte))
  : outcome (list T) :=
  match cs with
  | [] => Returns []
  | c :: cs' =>
      match unpack fmt c with
      | Raises e => Raises e
      | Returns t =>
          match unpack_all fmt cs' with
          | Raises e => Raises e
          | Returns ts => Returns (t :: ts)
          end
      end
  end.

(** [read_block(b, format_str, count)] for a count that is not negative.
    [None] is a call that does not return. *)
Definition read_block {T : Type} (b : stream) (fmt : format T) (count : nat)
  : option (outcome (list T) * stream) :=
  let struct_length := calcsize fmt in
  let total_length := struct_length * count in
  let (data, b') := read total_length b in
  if List.length data <? total_length then
    Some (Raises (ValueError total_length), b')
  else
    match chunks data struct_length with
    | None => None
    | Some cs => Some (unpack_all fmt cs, b')
    end.

(** The value of bytes read as a little-endian unsigned number. *)
Fixpoint le_unsigned (bs : list Byte.byte) : Z :=
  match bs with
  | [] => 0
  | b :: bs' => Z.of_N (Byte.to_N b) + 256 * le_unsigned bs'
  end.

(** Four bytes read as a little-endian signed number, the [l] of a format
    that starts with [<]. *)
Definition le_int32 (bs : list Byte.byte) : Z :=
  let u := le_unsigned bs in
  if (u <? 2 ^ 31)%Z then u else (u - 2 ^ 32)%Z.

Record MD2Header : Type := {
  ident : list Byte.byte;
  version : Z;
  skin_width : Z;
  skin_height : Z;
  frame_size : Z;
  num_skins : Z;
  num_vertices : Z;
  num_st : Z;
  num_tris : Z;
  num_glcmds : Z;
  num_frames : Z;
  offset_skins : Z;
  offset_st : Z;
  offset_tris : Z;
  offset_frames : Z;
  offset_glcmds : Z;
  offset_end : Z
}.

(** [MD2Header()] *)
Definition empty_header : MD2Header :=
  {| ident := []; version := 0; skin_width := 0; skin_height := 0;
     frame_size := 0; num_skins := 0; num_vertices := 0; num_st := 0;
     num_tris := 0; num_glcmds := 0; num_frames := 0; offset_skins := 0;
     offset_st := 0; offset_tris := 0; offset_frames := 0;
     offset_glcmds := 0; offset_end := 0 |}.

(** The 32-bit field number [k] of a header chunk, after the four bytes of
    the identifier. *)
Definition header_field (chunk : list Byte.byte) (k : nat) : Z :=
  le_int32 (firstn 4 (skipn (4 + 4 * k) chunk)).

(** [MD2Header._make(struct.unpack("< 4s16l", chunk))] *)
Definition header_format : format MD2Header :=
  {| calcsize := 68;
     unpack := fun chunk =>
       if Nat.eqb (List.length chunk) 68 then
         Returns
           {| ident := firstn 4 chunk;
              version := header_field chunk 0;
              skin_width := header_field chunk 1;
              skin_height := header_field chunk 2;
              frame_size := header_field chunk 3;
              num_skins := header_field chunk 4;
              num_vertices := header_field chunk 5;
              num_st := header_field chunk 6;
              num_tris := header_field chunk 7;
              num_glcmds := header_field chunk 8;
              num_frames := header_field chunk 9;
              offset_skins := header_field chunk 10;
              offset_st := header_field chunk 11;
              offset_tris := header_field chunk 12;
              offset_frames := header_field chunk 13;
              offset_glcmds := header_field chunk 14;
              offset_end := header_field chunk 15 |}
       else Raises StructError |}.

(** [bytes.decode("ascii")]: a byte above 127 cannot be decoded. *)
Definition decode_ascii (bs : list Byte.byte) : outcome string :=
  if forallb (fun b => (Byte.to_N b <? 128)%N) bs
  then Returns (string_of_list_ascii (map ascii_of_byte bs))
  else Raises UnicodeDecodeError.

Definition _SIGNATURE : string := "IDP2".
Definition _VERSION : Z := 8.

(** [read_header] on an object whose header is [h0]: how the call ends,
    the header the object has afterwards, and the file. The header is
    assigned before it is checked. *)
Definition read_header (h0 : MD2Header) (f : stream)
  : option (outcome unit * MD2Header * stream) :=
  match read_block f header_format 1 with
  | None => None
  | Some (Raises e, f') => Some (Raises e, h0, f')
  | Some (Returns [], f') => Some (Raises SubscriptError, h0, f')
  | Some (Returns (h :: _), f') =>
      match decode_ascii (ident h) with
      | Raises e => Some (Raises e, h, f')
      | Returns name =>
          if negb (String.eqb name _SIGNATURE) then
            Some (Raises (BaseException "MD2 Identifier is incorrect"), h, f')
          else if negb (Z.eqb (version h) _VERSION) then
            Some (Raises (BaseException "Invalid Version"), h, f')
          else Some (Returns tt, h, f')
      end
  end.

(** ** payton.scene.geometry.md2: animations *)

(** [c.isdigit()] for a character below U+0100: the ten digits and the
    superscripts two, three and one. *)
Definition isdigit (c : ascii) : bool :=
  let n := N_of_ascii c in
  ((48 <=? n) && (n <=? 57) || (n =? 178) || (n =? 179) || (n =? 185))%N.

(** ["".join(i for i in name if not i.isdigit())] *)
Definition strip_digits (name : string) : string :=
  string_of_list_ascii (filter (fun c => negb (isdigit c)) (list_ascii_of_string name)).

(** [str(n)] of an integer, as an f-string prints it. *)
Definition str (n : Z) : string := NilZero.string_of_int (Z.to_int n).

(** A dictionary from names to the two-element lists [[first, last]], in
    insertion order. *)
Definition ranges : Type := list (string * (Z * Z)).

(** [d[k]], when [k] is a key. *)
Fixpoint lookup (k : string) (d : ranges) : option (Z * Z) :=
  match d with
  | [] => None
  | (k', v) :: d' => if String.eqb k' k then Some v else lookup k d'
  end.

(** [k in d] *)
Definition has_key (k : string) (d : ranges) : bool :=
  match lookup k d with
  | Some _ => true
  | None => false
  end.

(** [d[k] = v]: an existing key keeps its place, a new one goes last. *)
Fixpoint set_item (k : string) (v : Z * Z) (d : ranges) : ranges :=
  match d with
  | [] => [(k, v)]
  | (k', v') :: d' =>
      if String.eqb k' k then (k', v) :: d' else (k', v') :: set_item k v d'
  end.

Inductive event : Type :=
| LogError (msg : string)
| Build
| ChildRender (name : string)
| UpdateMatrix
| Track
| BuildFrame (frame_name : string).

(** What [animate], [compile] and [render] read and write of an [MD2]
    object; [children] holds the keys of the dictionary of children, in
    insertion order. *)
Record Model : Type := {
  animation : string;
  animations : ranges;
  _active_frame : Z;
  _frame_rate : float;
  _from_frame : Z;
  _to_frame : Z;
  _time : float;
  _loop : bool;
  _visible : bool;
  children : list string
}.

Definition set_animation (m : Model) (a : string) : Model :=
  {| animation := a; animations := animations m;
     _active_frame := _active_frame m; _frame_rate := _frame_rate m;
     _from_frame := _from_frame m; _to_frame := _to_frame m;
     _time := _time m; _loop := _loop m; _visible := _visible m;
     children := children m |}.

Definition animate (m : Model) (animation_name : string)
    (from_frame to_frame : Z) (loop : bool) : Model * list event :=
  let m := set_animation m "" in
  match lookup animation_name (animations m) with
  | None =>
      (m, [LogError ("Animation " ++ animation_name ++ " not found in object")])
  | Some anim =>
      if (from_frame <? fst anim)%Z || (snd anim <? from_frame)%Z then
        (m, [LogError "from_frame out of bounds"])
      else if (to_frame <? fst anim)%Z || (snd anim <? to_frame)%Z then
        (m, [LogError "to_frame out of bounds"])
      else
        ({| animation := animation_name; animations := animations m;
            _active_frame := from_frame; _frame_rate := _frame_rate m;
            _from_frame := from_frame; _to_frame := to_frame;
            _time := _time m; _loop := loop; _visible := _visible m;
            children := children m |}, [])
  end.

(** One round of the loop of [compile] on the dictionary: the entry of the
    stripped name is created at [[0, -1]] when missing, its second element
    goes up by one, and the frame is named after the name and that
    element. *)
Definition compile_step (anims : ranges) (frame_name : string)
  : ranges * string :=
  let name := strip_digits frame_name in
  let anims := if has_key name anims then anims
               else set_item name (0, -1)%Z anims in
  let anims := match lookup name anims with
               | Some (first, last) => set_item name (first, last + 1)%Z anims
               | None => anims
               end in
  let num := match lookup name anims with
             | Some (_, last) => last
             | None => 0%Z
             end in
  (anims, (name ++ str num)%string).

Section Compile.
(** A frame as [compile] sees it: only its name is read here. *)
Variable Frame : Type.
Variable name : Frame -> string.

(** [build_frame(frame, frame_name)] builds a mesh and adds it as a child;
    here it is what the call ends in, [None] when it returns. *)
Variable build_frame : Frame -> string -> option error.

(** The loop of [compile] from the dictionary [anims] on: how it ends, the
    dictionary, and the frames built, each with the name it was given. *)
Fixpoint compile_loop (anims : ranges) (frames : list Frame)
  : outcome unit * ranges * list (Frame * string) :=
  match frames with
  | [] => (Returns tt, anims, [])
  | frame :: frames' =>
      let (anims', frame_name) := compile_step anims (name frame) in
      match build_frame frame frame_name with
      | Some e => (Raises e, anims', [])
      | None =>
          let '(r, anims'', built) := compile_loop anims' frames' in
          (r, anims'', (frame, frame_name) :: built)
      end
  end.

Definition compile (frames : list Frame)
  : outcome unit * ranges * list (Frame * string) :=
  compile_loop [] frames.

End Compile.

(** ** payton.scene.geometry.md2: rendering a frame *)

Section Render.
(** [1 / n] for an integer [n] that is not zero. *)
Variable reciprocal : Z -> float.

(** [self.children[name].render(...)], the child taken to render and
    return. *)
Definition render_child (m : Model) (key : string)
  : outcome unit * list event :=
  if existsb (String.eqb key) (children m)
  then (Returns tt, [ChildRender key])
  else (Raises (LookupError key), []).

(** [render]: [needs_build] is [self.has_missing_vao or self._needs_update]
    and [now0], [now1], [now2] are what the three calls of [time.time()]
    return, in the order of the source, each read only if its call is
    reached. *)
Definition render (m : Model) (needs_build : bool) (now0 now1 now2 : float)
  : outcome unit * Model * list event :=
  if negb (_visible m) then (Returns tt, m, [])
  else
    let evs := if needs_build then [Build] else [] in
    match (if String.eqb (animation m) "" then children m else []) with
    | child :: _ =>
        let (r, evs') := render_child m child in
        (r, m, evs ++ evs')
    | [] =>
        let time := if PrimFloat.eqb (_time m) 0 then now0 else _time m in
        let tdiff := PrimFloat.sub now1 time in
        let with_time (rate : float) (active : Z) (time : float) : Model :=
          {| animation := animation m; animations := animations m;
             _active_frame := active; _frame_rate := rate;
             _from_frame := _from_frame m; _to_frame := _to_frame m;
             _time := time; _loop := _loop m; _visible := _visible m;
             children := children m |} in
        if PrimFloat.eqb (_frame_rate m) 0
           && Z.eqb (_to_frame m - _from_frame m) 0
        then (Raises ZeroDivisionError, with_time (_frame_rate m) (_active_frame m) time, evs)
        else
          let rate := if PrimFloat.eqb (_frame_rate m) 0
                      then reciprocal (_to_frame m - _from_frame m)
                      else _frame_rate m in
          let m' :=
            if PrimFloat.leb rate tdiff then
              let active := (_active_frame m + 1)%Z in
              let active :=
                if (_to_frame m <? active)%Z then
                  if _loop m then _from_frame m else (active - 1)%Z
                else active in
              with_time rate active now2
            else with_time rate (_active_frame m) time in
          let frame_name := (animation m' ++ str (_active_frame m'))%string in
          let (r, evs') := render_child m' frame_name in
          (r, m', evs ++ [UpdateMatrix; Track] ++ evs')
    end.

End Render.

End MD2.

(** * payton.scene.geometries.sphere *)

Module Sphere.

Inductive error : Type :=
| ZeroDivisionError.

Inductive outcome (A : Type) : Type :=
| Returns (a : A)
| Raises (e : error).
Arguments Returns {A} a.
Arguments Raises {A} e.

(** The buffers of a [Mesh] that [build_sphere] appends to. *)
Record Mesh : Type := {
  _vertices : list (list float);
  _texcoords : list (list float);
  _normals : list (list float);
  _indices : list (list Z)
}.

(** [range(n)] *)
Definition range (n : Z) : list Z := map Z.of_nat (seq 0 (Z.to_nat n)).

Section Build.
(** [math.radians], [math.sin], [math.cos], the conversion of an integer
    to a float, and [plane_normal] of payton.math.vector, which gives the
    three components of a normal. *)
Variable radians : float -> float.
Variable sin : float -> float.
Variable cos : float -> float.
Variable float_of_int : Z -> float.
Variable plane_normal :
  list float -> list float -> list float -> float * float * float.

Local Open Scope float_scope.

(** One round of the inner loop: the mesh and the counter [indices]. *)
Definition add_quad (r step_angle step_height u_step v_step : float)
    (i j : Z) (st : Mesh * Z) : Mesh * Z :=
  let (m, indices) := st in
  let fi := float_of_int i in
  let fi1 := float_of_int (i + 1) in
  let fj := float_of_int j in
  let fj1 := float_of_int (j + 1) in
  let x1 := r * sin (step_height * fi) * cos (step_angle * fj) in
  let y1 := r * sin (step_height * fi) * sin (step_angle * fj) in
  let z1 := r * cos (step_height * fi) in
  let u1 := u_step * fj in
  let v1 := v_step * fi in
  let x2 := r * sin (step_height * fi1) * cos (step_angle * fj) in
  let y2 := r * sin (step_height * fi1) * sin (step_angle * fj) in
  let z2 := r * cos (step_height * fi1) in
  let u2 := u_step * fj in
  let v2 := v_step * fi1 in
  let x3 := r * sin (step_height * fi1) * cos (step_angle * fj1) in
  let y3 := r * sin (step_height * fi1) * sin (step_angle * fj1) in
  let z3 := r * cos (step_height * fi1) in
  let u3 := u_step * fj1 in
  let v3 := v_step * fi1 in
  let x4 := r * sin (step_height * fi) * cos (step_angle * fj1) in
  let y4 := r * sin (step_height * fi) * sin (step_angle * fj1) in
  let z4 := r * cos (step_height * fi) in
  let u4 := u_step * fj1 in
  let v4 := v_step * fi in
  let '(n0, n1, n2) := plane_normal [x1; y1; z1] [x2; y2; z2] [x3; y3; z3] in
  ({| _vertices := _vertices m
                   ++ [[x1; y1; z1]; [x2; y2; z2]; [x3; y3; z3]; [x4; y4; z4]];
      _texcoords := _texcoords m ++ [[u1; v1]; [u2; v2]; [u3; v3]; [u4; v4]];
      _normals := _normals m
                  ++ [[n0; n1; n2]; [n0; n1; n2]; [n0; n1; n2]; [n0; n1; n2]];
      _indices := _indices m
                  ++ [[indices; indices + 1; indices + 2];
                      [indices; indices + 2; indices + 3]]%Z |},
   (indices + 4)%Z).

(** [build_sphere] on a mesh with the given radius, parallels and
    meridians. *)
Definition build_sphere (m : Mesh) (radius : float) (parallels meridians : Z)
  : outcome bool * Mesh :=
  if Z.eqb meridians 0 then (Raises ZeroDivisionError, m)
  else
    let step_angle := radians (360 / float_of_int meridians) in
    if Z.eqb parallels 0 then (Raises ZeroDivisionError, m)
    else
      let step_height := radians (180 / float_of_int parallels) in
      let u_step := 1 / float_of_int meridians in
      let v_step := 1 / float_of_int parallels in
      let st :=
        fold_left
          (fun st i =>
             fold_left
               (fun st j =>
                  add_quad radius step_angle step_height u_step v_step i j st)
               (range meridians) st)
          (range parallels) (m, 0%Z) in
      (Returns true, fst st).

End Build.

End Sphere.

(** * payton.scene.geometries.cylinder and payton.scene.geometry.cylinder *)

Module Cylinder.

Inductive error : Type :=
| ZeroDivisionError.

Inductive outcome (A : Type) : Type :=
| Returns (a : A)
| Raises (e : error).
Arguments Returns {A} a.
Arguments Raises {A} e.

(** The calls [build_cylinder] makes on the mesh it extends. *)
Inductive call : Type :=
| add_triangle (vertices : list (list float)) (texcoords : list (list float))
| fix_normals.

(** [range(n)] *)
Definition range (n : Z) : list Z := map Z.of_nat (seq 0 (Z.to_nat n)).

Section Build.
(** [math.radians], [math.sin], [math.cos], the conversion of an integer to
    a float and the division [a / b] of two integers. *)
Variable radians : float -> float.
Variable sin : float -> float.
Variable cos : float -> float.
Variable float_of_int : Z -> float.
Variable int_div : Z -> Z -> float.

Local Open Scope float_scope.

(** One round of the loop in payton.scene.geometries.cylinder. *)
Definition geometries_round (r_bot r_top h_2 step_angle u_step : float)
    (i : Z) : list call :=
  let fi := float_of_int i in
  let fi1 := float_of_int (i + 1) in
  let x1 := r_bot * cos (step_angle * fi) in
  let y1 := r_bot * sin (step_angle * fi) in
  let x2 := r_top * cos (step_angle * fi) in
  let y2 := r_top * sin (step_angle * fi) in
  let u1 := u_step * fi in
  let v1 := 1 in
  let u2 := u1 in
  let v2 := 0 in
  let x3 := r_bot * cos (step_angle * fi1) in
  let y3 := r_bot * sin (step_angle * fi1) in
  let x4 := r_top * cos (step_angle * fi1) in
  let y4 := r_top * sin (step_angle * fi1) in
  let u3 := u_step * fi1 in
  let v3 := 1 in
  let u4 := u3 in
  let v4 := 0 in
  [add_triangle [[x1; y1; - h_2]; [x2; y2; h_2]; [x3; y3; - h_2]]
     [[u1; v1]; [u2; v2]; [u3; v3]];
   add_triangle [[x3; y3; - h_2]; [x2; y2; h_2]; [x4; y4; h_2]]
     [[u3; v3]; [u2; v2]; [u4; v4]];
   add_triangle [[x1; y1; - h_2]; [0; 0; - h_2]; [x3; y3; - h_2]]
     [[u1; v1]; [0; 0]; [u3; v3]];
   add_triangle [[x4; y4; h_2]; [0; 0; h_2]; [x2; y2; h_2]]
     [[u4; v4]; [0; 0]; [u2; v2]]].

(** One round of the loop in payton.scene.geometry.cylinder. *)
Definition geometry_round (r_bot r_top h_2 step_angle u_step : float)
    (i : Z) : list call :=
  let fi := float_of_int i in
  let fi1 := float_of_int (i + 1) in
  let x1 := r_bot * cos (step_angle * fi) in
  let y1 := r_bot * sin (step_angle * fi) in
  let x2 := r_top * cos (step_angle * fi) in
  let y2 := r_top * sin (step_angle * fi) in
  let u1 := u_step * fi in
  let v1 := 1 in
  let u2 := u1 in
  let v2 := 0 in
  let x3 := r_bot * cos (step_angle * fi1) in
  let y3 := r_bot * sin (step_angle * fi1) in
  let x4 := r_top * cos (step_angle * fi1) in
  let y4 := r_top * sin (step_angle * fi1) in
  let u3 := u_step * fi1 in
  let v3 := 1 in
  let u4 := u3 in
  let v4 := 0 in
  [add_triangle [[x1; y1; - h_2]; [x3; y3; - h_2]; [x2; y2; h_2]]
     [[u1; v1]; [u3; v3]; [u2; v2]];
   add_triangle [[x3; y3; - h_2]; [x4; y4; h_2]; [x2; y2; h_2]]
     [[u3; v3]; [u4; v4]; [u2; v2]];
   add_triangle [[x1; y1; - h_2]; [0; 0; - h_2]; [x3; y3; - h_2]]
     [[u1; v1]; [0; 0]; [u3; v3]];
   add_triangle [[x4; y4; h_2]; [0; 0; h_2]; [x2; y2; h_2]]
     [[u4; v4]; [0; 0]; [u2; v2]]].

(** [build_cylinder] given the round of its loop: how it ends and the
    calls it made on the mesh, in order. *)
Definition build_with
    (round : float -> float -> float -> float -> float -> Z -> list call)
    (bottom_radius top_radius : float) (meridians : Z) (height : float)
  : outcome bool * list call :=
  if Z.eqb meridians 0 then (Raises ZeroDivisionError, [])
  else
    let step_angle := radians (int_div 360 meridians) in
    let u_step := 1 / float_of_int meridians in
    let r_bot := bottom_radius in
    let r_top := top_radius in
    let h_2 := height / 2 in
    (Returns true,
     flat_map (round r_bot r_top h_2 step_angle u_step) (range meridians)
     ++ [fix_normals]).

(** [build_cylinder] of payton.scene.geometries.cylinder *)
Definition geometries_build_cylinder := build_with geometries_round.

(** [build_cylinder] of payton.scene.geometry.cylinder *)
Definition build_cylinder := build_with geometry_round.

End Build.

End Cylinder.

(** * Specification and examples *)

Import Geometry Collision.

Unset Implicit Arguments.

(** ** Ray and sphere *)

Section RaySphereModel.
Context {S : Scalar}.

(** The point [raycast_sphere_intersect] measures from: the start moved
    along the direction by the projection of the centre, or not moved at
    all when that projection is negative. *)
Definition measured_point (start vector sphere_center : vec4) : vec4 :=
  let proj := point_project sphere_center start vector in
  combine start vector one (if ltb proj zero then zero else proj).




End RaySphereModel.



(** ** Meshes *)

(** An object with other buffers, everything else as it was. *)
Definition with_mesh {S : Scalar} (obj : Object)
  (indices : list Z) (vertices : list num) : Object :=
{| is_Sphere := is_Sphere obj;
   _model_matrix_3 := _model_matrix_3 obj;
   bounding_radius := bounding_radius obj;
   _indices := indices;
   _vertices := vertices |}.

(** A segment test that never finds a crossing. *)
Definition never_hit {S : Scalar} (p0 p1 t0 t1 t2 : point) : bool := false.

Section NarrowPhase.
Context {S : Scalar}.
Variable lti : point -> point -> point -> point -> point -> bool.

(** Triangle number [t] of an object, read from the object's own index
    and vertex buffers. *)
Definition triangle_at (obj : Object) (t : nat) : result (point * point * point) :=
  let tx := (Z.of_nat t * 3)%Z in
  i1 <- getitem (_indices obj) tx ;;
  i2 <- getitem (_indices obj) (tx + 1)%Z ;;
  i3 <- getitem (_indices obj) (tx + 2)%Z ;;
  p1 <- vertex (_vertices obj) i1 ;;
  p2 <- vertex (_vertices obj) i2 ;;
  p3 <- vertex (_vertices obj) i3 ;;
  Ok (p1, p2, p3).

Fixpoint triangles_from (obj : Object) (ts : list nat)
  : result (list (point * point * point)) :=
  match ts with
  | [] => Ok []
  | t :: ts' =>
      tri <- triangle_at obj t ;;
      rest <- triangles_from obj ts' ;;
      Ok (tri :: rest)
  end.

Definition triangles (obj : Object) : result (list (point * point * point)) :=
  triangles_from obj (triangle_range (_indices obj)).

Definition triangles_cross (a b : point * point * point) : bool :=
  let '(p1, p2, p3) := a in
  let '(q1, q2, q3) := b in
  six_tests lti p1 p2 p3 q1 q2 q3.

(** The narrow phase in the words of the specification: every triangle of
    A against every triangle of B, each object's triangles built from its
    own buffers, positive when some segment test is. *)
Definition narrow_phase_spec (objA objB : Object) : result bool :=
  ta <- triangles objA ;;
  tb <- triangles objB ;;
  Ok (existsb (fun a => existsb (fun b => triangles_cross a b) tb) ta).

End NarrowPhase.

(** The two index buffers hold the same third index for triangle [j]. *)
Definition third_index_agrees {S : Scalar} (obj1 obj2 : Object) (j : nat) : Prop :=
  getitem (_indices obj1) (Z.of_nat j * 3 + 2)%Z
  = getitem (_indices obj2) (Z.of_nat j * 3 + 2)%Z.

(** ** The pairs of a roster *)

(** The pairs of counters the two loops of [check] go through for a roster
    of [n] objects. *)
Definition counters (n : nat) : list (nat * nat) :=
  flat_map (fun i => map (fun j => (i, j)) (seq 0 (n - i - 1))) (seq 0 (n - 1)).

(** The pairs of a list, each element with every later one: the
    combinations of two elements, by position. *)
Fixpoint combinations (l : list oid) : list refs :=
  match l with
  | [] => []
  | a :: l' => map (fun b => (a, b)) l' ++ combinations l'
  end.

(** ** A detection pass, pair by pair *)

(** Whether [check] skips a pair of references: it is in the list of
    pairs, in one order or the other. *)
Definition cached (p : refs) (cache : list refs) : bool :=
  pair_in p cache || pair_in (swap p) cache.

Section PassModel.
Context {S : Scalar}.
Variable lti : point -> point -> point -> point -> point -> bool.
Variable heap : oid -> Object.

(** The event a call of [_test] on two references leaves. *)
Definition test_event (a b : oid) : event :=
  Tested a b (fst (_test lti (heap a) (heap b)))
             (snd (_test lti (heap a) (heap b))).

(** What the loops of [check] do to the list of pairs when they go through
    the pairs [L] of references: how they end, the list they leave, and the
    events in order. *)
Fixpoint scan (L : list refs) (cache : list refs)
  : result unit * list refs * list event :=
  match L with
  | [] => (Ok tt, cache, [])
  | p :: L' =>
      if cached p cache then scan L' cache
      else
        match classify lti (heap (fst p)) (heap (snd p)) with
        | Ok true =>
            let '(r, c, evs) := scan L' (cache ++ [p]) in
            (r, c, test_event (fst p) (snd p) :: evs)
        | Ok false =>
            let '(r, c, evs) := scan L' cache in
            (r, c, test_event (fst p) (snd p) :: evs)
        | Raise e => (Raise e, cache, [test_event (fst p) (snd p)])
        end
  end.

End PassModel.

(** The pairs of references [_test] was called on, in order. *)
Definition tested_pairs (evs : list event) : list refs :=
  flat_map (fun ev => match ev with
                      | Tested a b _ _ => [(a, b)]
                      | _ => []
                      end) evs.

(** The calls of the callback, each with its arguments. *)
Definition callback_calls (evs : list event)
  : list (pyvalue * Detector * list refs) :=
  flat_map (fun ev => match ev with
                      | Called f d pairs => [(f, d, pairs)]
                      | _ => []
                      end) evs.

(** One pair of a detection pass in the words of the specification: a pair
    in the cache is left alone; any other is classified, and inserted when
    the classification is positive. The first component collects the pairs
    that were classified. *)
Definition pass_step (colliding : oid -> oid -> bool)
    (acc : list refs * list refs) (p : refs) : list refs * list refs :=
  let '(tested, cache) := acc in
  if cached p cache then (tested, cache)
  else (tested ++ [p],
        if colliding (fst p) (snd p) then cache ++ [p] else cache).

(** A detection pass in the words of the specification, over every
    combination of two positions of the roster. *)
Definition detection_pass_spec (colliding : oid -> oid -> bool)
    (roster : list oid) (cache : list refs) : list refs * list refs :=
  fold_left (pass_step colliding) (combinations roster) ([], cache).

(** A call of [_test] that answered yes. *)
Definition positive (ev : event) : bool :=
  match ev with
  | Tested _ _ _ (Ok true) => true
  | _ => false
  end.

(** ** The pair cache *)

(** No pair of references is twice in the list, in one order or in two. *)
Fixpoint at_most_once (c : list refs) : bool :=
  match c with
  | [] => true
  | p :: c' => negb (cached p c') && at_most_once c'
  end.

(** Whether an entry of the cache is the pair of [a] and [b], in one order
    or the other. *)
Definition names (a b : oid) (q : refs) : bool :=
  pair_eqb q (a, b) || pair_eqb q (b, a).

(** ** Example objects and detectors *)

(** A sphere of radius 1.0 centred at (x, 0, 0). *)
Definition ball (x : float) : @Object binary64 :=
{| is_Sphere := true;
   _model_matrix_3 := row x 0 0 1;
   bounding_radius := 1%float;
   _indices := [];
   _vertices := [] |}.

(** A mesh of radius 1.0 whose buffers cannot be read: its only triangle
    names vertices that do not exist. *)
Definition broken_mesh (x : float) : @Object binary64 :=
{| is_Sphere := false;
   _model_matrix_3 := row x 0 0 1;
   bounding_radius := 1%float;
   _indices := [7; 8; 9]%Z;
   _vertices := [] |}.

(** A mesh of bounding radius 10.0 at the origin. *)
Definition big_mesh : @Object binary64 :=
{| is_Sphere := false;
   _model_matrix_3 := row 0 0 0 1;
   bounding_radius := 10%float;
   _indices := [0; 1; 2]%Z;
   _vertices := [0; 0; 0; 1; 0; 0; 0; 1; 0]%float |}.

(** A mesh of bounding radius 1.0 at (1, 0, 0). *)
Definition small_mesh : @Object binary64 :=
{| is_Sphere := false;
   _model_matrix_3 := row 1 0 0 1;
   bounding_radius := 1%float;
   _indices := [0; 1; 2]%Z;
   _vertices := [0; 0; 0; 0.5; 0; 0; 0; 0.5; 0]%float |}.

(** One triangle in the plane z = 0, around the origin. *)
Definition triangle_mesh : @Object binary64 :=
{| is_Sphere := false;
   _model_matrix_3 := row 0 0 0 1;
   bounding_radius := 1.5%float;
   _indices := [0; 1; 2]%Z;
   _vertices := [0; 0; 0;  1; 0; 0;  0; 1; 0]%float |}.

(** A unit square made of two triangles, in the plane z = 5, with its
    fourth corner at [corner]. *)
Definition quad_mesh_with (corner : float * float * float) : @Object binary64 :=
{| is_Sphere := false;
   _model_matrix_3 := row 1 0 0 1;
   bounding_radius := 1.5%float;
   _indices := [0; 1; 2; 0; 2; 3]%Z;
   _vertices := [0; 0; 5;  1; 0; 5;  1; 1; 5;
                 fst (fst corner); snd (fst corner); snd corner]%float |}.

Definition quad_mesh : @Object binary64 := quad_mesh_with (0, 1, 5)%float.

(** Two triangles sharing an edge, listed as a strip. *)
Definition strip_mesh : @Object binary64 :=
{| is_Sphere := false;
   _model_matrix_3 := row 0 0 0 1;
   bounding_radius := 1.5%float;
   _indices := [0; 1; 2; 1; 3; 2]%Z;
   _vertices := [0; 0; 0;  1; 0; 0;  0; 1; 0;  1; 1; 0]%float |}.

(** Two touching spheres and nothing else. *)
Definition two_balls (r : oid) : @Object binary64 :=
  match r with
  | 0 => ball 0
  | _ => ball 2
  end.

(** Three spheres of radius 1.0 on a line: the first two touch, the third
    is far away. *)
Definition three_balls (r : oid) : @Object binary64 :=
  match r with
  | 0 => ball 0
  | 1 => ball 2
  | _ => ball 100
  end.

Definition on_report : pyvalue := PyFunction "on_report".

(** A detector on the three spheres that already holds the pair of the
    last two, in the order opposite to the roster's. *)
Definition three_tracked : Detector :=
  {| objects := [0; 1; 2]; callback := on_report; _pairs := [(2, 1)] |}.

Definition touching (a b : oid) : bool :=
  match classify never_hit (three_balls a) (three_balls b) with
  | Ok v => v
  | Raise _ => false
  end.

(** The triangle behind reference 0 and the square behind every other. *)
Definition triangle_and_quad (r : oid) : @Object binary64 :=
  match r with
  | 0 => triangle_mesh
  | _ => quad_mesh
  end.

Definition triangle_then_quad : Detector :=
  {| objects := [0; 1]; callback := on_report; _pairs := [] |}.

(** The triangle of [triangle_mesh] lifted to the plane z = 1; the index
    buffer is the same. *)
Definition lifted_triangle_mesh : @Object binary64 :=
{| is_Sphere := false;
   _model_matrix_3 := row 0 0 1 1;
   bounding_radius := 1.5%float;
   _indices := [0; 1; 2]%Z;
   _vertices := [0; 0; 1;  1; 0; 1;  0; 1; 1]%float |}.

(** The three spheres, tracked with no callback worth the name. *)
Definition three_unreported : Detector :=
  {| objects := [0; 1; 2]; callback := PyNone; _pairs := [] |}.

(** The detector on the three spheres once a pass has reported the first
    two. *)
Definition three_reported : Detector :=
  {| objects := [0; 1; 2]; callback := on_report;
     _pairs := [(2, 1); (0, 1)] |}.

(** ** The MD2 loader *)

Module MD2Spec.
Import MD2.

(** The records a block of [count] records of [size] bytes is cut into, from
    position [pos] of the file. *)
Definition records_at (content : list Byte.byte) (pos size count : nat)
  : list (list Byte.byte) :=
  map (fun i => firstn size (skipn (pos + size * i) content)) (seq 0 count).

(** The format [<H]: two bytes, a little-endian unsigned number. *)
Definition u16_format : format Z :=
  {| calcsize := 2;
     unpack := fun chunk =>
       if Nat.eqb (List.length chunk) 2 then Returns (le_unsigned chunk)
       else Raises StructError |}.

(** Five bytes: 1 and 2 as 16-bit numbers, and one byte more. *)
Definition five_bytes : stream :=
  {| content := [Byte.x01; Byte.x00; Byte.x02; Byte.x00; Byte.x03];
     position := 0 |}.

(** The byte of an integer taken modulo 256. *)
Definition byte_of_Z (z : Z) : Byte.byte :=
  match Byte.of_N (Z.to_N (z mod 256)) with
  | Some b => b
  | None => Byte.x00
  end.

(** An integer as four little-endian bytes, in two's complement. *)
Definition le_bytes4 (z : Z) : list Byte.byte :=
  [byte_of_Z z; byte_of_Z (z / 256); byte_of_Z (z / 256 / 256);
   byte_of_Z (z / 256 / 256 / 256)].

(** The 68 bytes of a header: the identifier and the sixteen fields. *)
Definition pack_header (h : MD2Header) : list Byte.byte :=
  ident h ++ le_bytes4 (version h) ++ le_bytes4 (skin_width h)
  ++ le_bytes4 (skin_height h) ++ le_bytes4 (frame_size h)
  ++ le_bytes4 (num_skins h) ++ le_bytes4 (num_vertices h)
  ++ le_bytes4 (num_st h) ++ le_bytes4 (num_tris h)
  ++ le_bytes4 (num_glcmds h) ++ le_bytes4 (num_frames h)
  ++ le_bytes4 (offset_skins h) ++ le_bytes4 (offset_st h)
  ++ le_bytes4 (offset_tris h) ++ le_bytes4 (offset_frames h)
  ++ le_bytes4 (offset_glcmds h) ++ le_bytes4 (offset_end h).

Definition int32 (z : Z) : Prop := (- 2 ^ 31 <= z < 2 ^ 31)%Z.

(** Every field of the header fits in 32 bits, and the identifier has four
    bytes. *)
Definition well_sized (h : MD2Header) : Prop :=
  List.length (ident h) = 4
  /\ int32 (version h) /\ int32 (skin_width h) /\ int32 (skin_height h)
  /\ int32 (frame_size h) /\ int32 (num_skins h) /\ int32 (num_vertices h)
  /\ int32 (num_st h) /\ int32 (num_tris h) /\ int32 (num_glcmds h)
  /\ int32 (num_frames h) /\ int32 (offset_skins h) /\ int32 (offset_st h)
  /\ int32 (offset_tris h) /\ int32 (offset_frames h)
  /\ int32 (offset_glcmds h) /\ int32 (offset_end h).

(** The bytes of "IDP2". *)
Definition signature_bytes : list Byte.byte :=
  [Byte.x49; Byte.x44; Byte.x50; Byte.x32].

(** What [read_header] does once 68 bytes are there: the header becomes the
    unpacked chunk whatever the verdict. *)
Definition verdict (h : MD2Header) : outcome unit :=
  match decode_ascii (ident h) with
  | Raises e => Raises e
  | Returns name =>
      if negb (String.eqb name _SIGNATURE) then
        Raises (BaseException "MD2 Identifier is incorrect")
      else if negb (Z.eqb (version h) _VERSION) then
        Raises (BaseException "Invalid Version")
      else Returns tt
  end.

(** A header as a model converter writes it. *)
Definition sample_header : MD2Header :=
  {| ident := signature_bytes; version := 8; skin_width := 256;
     skin_height := 256; frame_size := 40 + 4 * 3; num_skins := 1;
     num_vertices := 3; num_st := 3; num_tris := 1; num_glcmds := 0;
     num_frames := 2; offset_skins := 68; offset_st := 132;
     offset_tris := 144; offset_frames := 156; offset_glcmds := -1;
     offset_end := 260 |}.

(** The range asked of [animate] lies within the frames of the animation. *)
Definition in_range (anims : ranges) (animation_name : string)
    (from_frame to_frame : Z) : Prop :=
  exists first last,
    lookup animation_name anims = Some (first, last)
    /\ (first <= from_frame <= last)%Z /\ (first <= to_frame <= last)%Z.

(** An object as [__init__] leaves it, given the animations and children
    that [compile] made. *)
Definition loaded (anims : ranges) (names : list string) : Model :=
  {| animation := ""; animations := anims; _active_frame := 0;
     _frame_rate := 0; _from_frame := 0; _to_frame := 0; _time := 0;
     _loop := false; _visible := true; children := names |}.

Definition runner : Model :=
  loaded [("run"%string, (0%Z, 2%Z))]
    ["run0"%string; "run1"%string; "run2"%string].

(** How many of the names, once their digits are removed, are [n]. *)
Definition occurrences (n : string) (names : list string) : nat :=
  List.length (filter (fun f => String.eqb (strip_digits f) n) names).

(** The name a frame is built under: its own without the digits, followed
    by the number of frames of that name before it. *)
Fixpoint frame_names (seen names : list string) : list string :=
  match names with
  | [] => []
  | f :: names' =>
      (strip_digits f ++ str (Z.of_nat (occurrences (strip_digits f) seen)))%string
      :: frame_names (seen ++ [f]) names'
  end.

(** The dictionary counts the names seen: every animation runs from 0 to
    the number of its frames less one, and no other key is there. *)
Definition counts (anims : ranges) (seen : list string) : Prop :=
  forall n,
    lookup n anims
    = if Nat.eqb (occurrences n seen) 0 then None
      else Some (0, Z.of_nat (occurrences n seen) - 1)%Z.

(** Every character of the string satisfies [p]. *)
Fixpoint every (p : ascii -> bool) (s : string) : bool :=
  match s with
  | EmptyString => true
  | String c s' => p c && every p s'
  end.

(** Three frames of two animations, each building without error. *)
Definition three_frames : list string :=
  ["stand01"%string; "run1"%string; "stand02"%string].

Definition builds (frame frame_name : string) : option error := None.

(** The active frame lies between [_from_frame] and the larger of
    [_from_frame] and [_to_frame]. *)
Definition on_track (m : Model) : Prop :=
  (_from_frame m <= _active_frame m
   <= Z.max (_from_frame m) (_to_frame m))%Z.

(** The names of the children rendered, in order. *)
Fixpoint rendered (log : list event) : list string :=
  match log with
  | [] => []
  | ChildRender key :: log' => key :: rendered log'
  | _ :: log' => rendered log'
  end.

Section Play.
(** [1 / n] for an integer [n] that is not zero. *)
Variable reciprocal : Z -> float.

(** Calls of [render] one after the other, each with its answer to
    [has_missing_vao or _needs_update] and its three clock readings, until
    one raises. *)
Fixpoint play (m : Model) (ticks : list (bool * (float * float * float)))
  : outcome unit * Model * list event :=
  match ticks with
  | [] => (Returns tt, m, [])
  | (needs_build, (now0, now1, now2)) :: ticks' =>
      match render reciprocal m needs_build now0 now1 now2 with
      | (Raises e, m', log) => (Raises e, m', log)
      | (Returns _, m', log) =>
          let '(r, m'', log') := play m' ticks' in (r, m'', log ++ log')
      end
  end.

End Play.

(** The runner after a first animation of two frames has been played. *)
Definition warm_runner : Model :=
  {| animation := "run"; animations := animations runner;
     _active_frame := 1; _frame_rate := 1; _from_frame := 0;
     _to_frame := 1; _time := 4; _loop := true; _visible := true;
     children := children runner |}.

End MD2Spec.

(** ** The sphere and the cylinder *)

(** The index triples of [n] quads whose first vertex has number [c]: each
    quad of four vertices is cut in two triangles along its diagonal. *)
Fixpoint indices_from (c : Z) (n : nat) : list (list Z) :=
  match n with
  | 0 => []
  | S n' =>
      [c; c + 1; c + 2]%Z :: [c; c + 2; c + 3]%Z :: indices_from (c + 4) n'
  end.

(** What [n] more quads make of a mesh and the counter. *)
Definition grown (n : nat) (st st' : Sphere.Mesh * Z) : Prop :=
  List.length (Sphere._vertices (fst st'))
  = List.length (Sphere._vertices (fst st)) + 4 * n
  /\ List.length (Sphere._texcoords (fst st'))
     = List.length (Sphere._texcoords (fst st)) + 4 * n
  /\ List.length (Sphere._normals (fst st'))
     = List.length (Sphere._normals (fst st)) + 4 * n
  /\ Sphere._indices (fst st')
     = Sphere._indices (fst st) ++ indices_from (snd st) n
  /\ snd st' = (snd st + 4 * Z.of_nat n)%Z
  /\ firstn (List.length (Sphere._vertices (fst st)))
       (Sphere._vertices (fst st'))
     = Sphere._vertices (fst st).

(** A mesh with nothing in its buffers. *)
Definition empty_mesh : Sphere.Mesh :=
  {| Sphere._vertices := []; Sphere._texcoords := []; Sphere._normals := [];
     Sphere._indices := [] |}.

(** Stand-ins for the functions of the math module, for running the
    builder on an example. *)
Definition flat_normal (a b c : list float) : float * float * float :=
  (0, 0, 1)%float.

Definition small_sphere : Sphere.Mesh :=
  snd (Sphere.build_sphere (fun x => x) (fun x => x) (fun x => x)
         (fun z => PrimFloat.of_uint63 (Uint63.of_Z z)) flat_normal
         empty_mesh 0.5 2 3).

(** A triangle as [add_triangle] takes it: three vertices of three
    coordinates and three texture coordinates of two. *)
Definition triangle_call (c : Cylinder.call) : Prop :=
  exists vertices texcoords,
    c = Cylinder.add_triangle vertices texcoords
    /\ List.length vertices = 3 /\ List.length texcoords = 3
    /\ Forall (fun v => List.length v = 3) vertices
    /\ Forall (fun t => List.length t = 2) texcoords.

(** The same triangle wound the other way: its second and third corners
    change places. *)
Definition rewind (c : Cylinder.call) : Cylinder.call :=
  match c with
  | Cylinder.add_triangle [a; b; c] [ta; tb; tc] =>
      Cylinder.add_triangle [a; c; b] [ta; tc; tb]
  | _ => c
  end.

(** Of every four triangles, the first two rewound. *)
Fixpoint rewind_sides (calls : list Cylinder.call) : list Cylinder.call :=
  match calls with
  | side1 :: side2 :: bottom :: top :: calls' =>
      rewind side1 :: rewind side2 :: bottom :: top :: rewind_sides calls'
  | _ => calls
  end.


(** * Properties *)

(** ** Scalars: what the properties need of the comparison *)

Lemma binary64_ltb_irrefl (x : float) : PrimFloat.ltb x x = false.
Proof.
  rewrite ltb_spec. unfold SFltb, SFcompare.
  destruct (Prim2SF x) as [s | s | | s m e]; try reflexivity.
  - destruct s; reflexivity.
  - destruct s; rewrite Z.compare_refl, Pos.compare_cont_refl; reflexivity.
Qed.

(** ** Ray and sphere *)

Section RaySphere.
Context {S : Scalar} {P : Power S}.

Lemma raycast_sphere_intersect_eq start vector sphere_center sphere_radius :
  raycast_sphere_intersect start vector sphere_center sphere_radius =
  ltb (distance2 sphere_center (measured_point start vector sphere_center))
      (radius_pow2 sphere_radius).
Proof. reflexivity. Qed.

Lemma measured_point_clamped start vector sphere_center :
  ltb (point_project sphere_center start vector) zero = true ->
  measured_point start vector sphere_center = combine start vector one zero.
Proof. unfold measured_point. intros ->. reflexivity. Qed.

(** Whatever the numbers are, the test is a strict comparison: when the
    squared distance from the measured point equals the squared radius,
    the answer is false as soon as no number is below itself. *)
Lemma raycast_strict (ltb_irrefl : forall x : num, ltb x x = false)
    start vector sphere_center sphere_radius :
  distance2 sphere_center (measured_point start vector sphere_center)
  = radius_pow2 sphere_radius ->
  raycast_sphere_intersect start vector sphere_center sphere_radius = false.
Proof. rewrite raycast_sphere_intersect_eq. intros ->. apply ltb_irrefl. Qed.

End RaySphere.

(** In double precision, with whatever the power function gives away from
    the two exact squares it is asked here, the ray from the origin along
    (2, 0, 0) misses the unit sphere centred on it at (3, 0, 0), which the
    ray along (1, 0, 0) hits. *)
Lemma raycast_scaled_direction_in_doubles (P : Power binary64) :
  @length_pow2 binary64 P 9%float = 81%float ->
  @length_pow2 binary64 P 0%float = 0%float ->
  @radius_pow2 binary64 P 1%float = 1%float ->
  raycast_sphere_intersect (row 0 0 0 1) (row 2 0 0 0) (row 3 0 0 1) 1%float
  = false
  /\ raycast_sphere_intersect (row 0 0 0 1) (row 1 0 0 0) (row 3 0 0 1)
       1%float
     = true.
Proof.
  intros H9 H0 H1. unfold raycast_sphere_intersect, distance2. cbv zeta.
  split;
    match goal with
    | |- context [vector_length ?v] =>
        let x := eval vm_compute in (vector_length v) in
        change (vector_length v) with x
    end.
  - rewrite H9, H1. reflexivity.
  - rewrite H0, H1. reflexivity.
Qed.

(** *** Exact arithmetic *)




Section ExactRay.
Variables start vector centre : @vec4 exact.






End ExactRay.




(** ** The classification of one pair *)

Section Phases.
Context {S : Scalar}.
Variable lti : point -> point -> point -> point -> point -> bool.

Lemma bounding_sphere_with_mesh obj1 obj2 i1 v1 i2 v2 :
  _bounding_sphere_collision (with_mesh obj1 i1 v1) (with_mesh obj2 i2 v2)
  = _bounding_sphere_collision obj1 obj2.
Proof. reflexivity. Qed.

Lemma sphere_in_sphere_true obj1 obj2 :
  _sphere_in_sphere_collision obj1 obj2 = true <->
  gtb (bounding_radius obj1) (add (_dist obj1 obj2) (bounding_radius obj2)) = true
  \/ gtb (bounding_radius obj2) (add (_dist obj1 obj2) (bounding_radius obj1)) = true.
Proof.
  unfold _sphere_in_sphere_collision.
  destruct (gtb (bounding_radius obj1) _); [tauto |].
  destruct (gtb (bounding_radius obj2) _); [tauto |].
  split; [discriminate | intros [H | H]; discriminate].
Qed.

Lemma test_broad_phase_negative obj1 obj2 :
  _bounding_sphere_collision obj1 obj2 = false ->
  _test lti obj1 obj2 = ([BoundingSphere], Ok false).
Proof.
  intros H. unfold _test. rewrite H.
  destruct (is_Sphere obj1 && is_Sphere obj2); reflexivity.
Qed.

End Phases.

(** C6. The broad phase holds exactly when the distance between the two
    origins is at most the sum of the two bounding radii. When it does not
    hold, [_test] returns false having called [_bounding_sphere_collision]
    only, and it does so whatever the index and vertex buffers of the two
    objects are: they are never read. *)
Theorem broad_phase_decides_negative
    (S : Scalar) (lti : point -> point -> point -> point -> point -> bool)
    (obj1 obj2 : Object) :
  (_bounding_sphere_collision obj1 obj2 = true <->
   leb (distance (_model_matrix_3 obj1) (_model_matrix_3 obj2))
       (add (bounding_radius obj1) (bounding_radius obj2)) = true)
  /\ (_bounding_sphere_collision obj1 obj2 = false ->
      _test lti obj1 obj2 = ([BoundingSphere], Ok false)
      /\ forall i1 v1 i2 v2,
           _test lti (with_mesh obj1 i1 v1) (with_mesh obj2 i2 v2)
           = ([BoundingSphere], Ok false)).
Proof.
  split; [reflexivity |].
  intros H. split.
  - apply test_broad_phase_negative, H.
  - intros. apply test_broad_phase_negative.
    rewrite bounding_sphere_with_mesh. exact H.
Qed.

(** C7. When both objects are instances of [Sphere], [_test] returns what
    [_bounding_sphere_collision] returns and calls nothing else. *)
Theorem sphere_shortcut
    (S : Scalar) (lti : point -> point -> point -> point -> point -> bool)
    (obj1 obj2 : Object) :
  is_Sphere obj1 = true -> is_Sphere obj2 = true ->
  _test lti obj1 obj2
  = ([BoundingSphere], Ok (_bounding_sphere_collision obj1 obj2))
  /\ classify lti obj1 obj2 = Ok (_bounding_sphere_collision obj1 obj2)
  /\ ~ In SphereInSphere (fst (_test lti obj1 obj2))
  /\ ~ In MeshCollision (fst (_test lti obj1 obj2)).
Proof.
  intros H1 H2. unfold classify, _test. rewrite H1, H2. simpl.
  repeat split; intros [H | []]; discriminate.
Qed.

(** C8. A pair that is not two spheres and passed the broad phase is
    colliding as soon as one bounding radius exceeds the distance plus the
    other radius, in either direction, and [_mesh_collision] is not called.
    With distance 1.0 and radii 10.0 and 1.0 the pair is colliding. *)
Theorem containment_phase :
  (forall (S : Scalar) (lti : point -> point -> point -> point -> point -> bool)
          (obj1 obj2 : Object),
     is_Sphere obj1 && is_Sphere obj2 = false ->
     _bounding_sphere_collision obj1 obj2 = true ->
     gtb (bounding_radius obj1) (add (_dist obj1 obj2) (bounding_radius obj2)) = true
     \/ gtb (bounding_radius obj2) (add (_dist obj1 obj2) (bounding_radius obj1)) = true ->
     _test lti obj1 obj2 = ([BoundingSphere; SphereInSphere], Ok true))
  /\ (forall (lti : point -> point -> point -> point -> point -> bool)
             (obj1 obj2 : @Object binary64),
        _dist obj1 obj2 = 1%float ->
        bounding_radius obj1 = 10%float ->
        bounding_radius obj2 = 1%float ->
        classify lti obj1 obj2 = Ok true).
Proof.
  split.
  - intros S lti obj1 obj2 Hs Hb Hc.
    apply sphere_in_sphere_true in Hc.
    unfold _test. rewrite Hs, Hb, Hc. reflexivity.
  - intros lti obj1 obj2 Hd H1 H2.
    assert (Hb : _bounding_sphere_collision obj1 obj2 = true).
    { unfold _bounding_sphere_collision. rewrite Hd, H1, H2. reflexivity. }
    assert (Hc : _sphere_in_sphere_collision obj1 obj2 = true).
    { unfold _sphere_in_sphere_collision. rewrite Hd, H1, H2. reflexivity. }
    unfold classify, _test. rewrite Hb, Hc.
    destruct (is_Sphere obj1 && is_Sphere obj2); reflexivity.
Qed.

Lemma containment_phase_witness :
  _test never_hit big_mesh small_mesh = ([BoundingSphere; SphereInSphere], Ok true)
  /\ classify never_hit big_mesh small_mesh = Ok true.
Proof.
  split.
  - apply (proj1 containment_phase binary64 never_hit big_mesh small_mesh);
      [reflexivity | reflexivity | left; reflexivity].
  - apply (proj2 containment_phase never_hit big_mesh small_mesh); reflexivity.
Defined.

Lemma broad_phase_decides_negative_witness :
  _test never_hit (broken_mesh 0) (broken_mesh 100) = ([BoundingSphere], Ok false).
Proof.
  apply (proj2 (broad_phase_decides_negative binary64 never_hit
                  (broken_mesh 0) (broken_mesh 100))).
  reflexivity.
Defined.

Lemma sphere_shortcut_witness :
  _test never_hit (ball 0) (ball 2) = ([BoundingSphere], Ok true).
Proof.
  apply (sphere_shortcut binary64 never_hit (ball 0) (ball 2)); reflexivity.
Defined.

(** *** The narrow phase *)

(** Once the buffers are read, what is left is a case analysis on the
    answers of the segment test. *)
Ltac by_segment_tests lti :=
  repeat match goal with
         | |- context [lti ?a ?b ?c ?d ?e] => destruct (lti a b c d e)
         end;
  intros; first [reflexivity | discriminate].

(** C1 at two inputs. In [_mesh_collision] the third corner of each triangle
    of the second object is looked up through the index buffer of the first
    object. Against a one-triangle mesh, the second triangle of the square
    is never built: the lookup leaves the first object's buffer and the
    call ends in [IndexError], unless the first pair of triangles already
    answered; the narrow phase of the specification answers with the
    outcome of the segment tests on both triangles. Against a two-triangle
    strip, the answer does not depend on where the fourth corner of the
    square is, although that corner belongs to its second triangle. *)
Theorem mesh_collision_third_index_of_first_object :
  forall lti : point -> point -> point -> point -> point -> bool,
    (_mesh_collision lti triangle_mesh quad_mesh
     = if six_tests lti (0, 0, 0)%float (1, 0, 0)%float (0, 1, 0)%float
                        (0, 0, 5)%float (1, 0, 5)%float (1, 1, 5)%float
       then Ok true else Raise IndexError)
    /\ (narrow_phase_spec lti triangle_mesh quad_mesh
        = Ok (six_tests lti (0, 0, 0)%float (1, 0, 0)%float (0, 1, 0)%float
                            (0, 0, 5)%float (1, 0, 5)%float (1, 1, 5)%float
              || six_tests lti (0, 0, 0)%float (1, 0, 0)%float (0, 1, 0)%float
                               (0, 0, 5)%float (1, 1, 5)%float (0, 1, 5)%float))
    /\ (forall corner,
          _mesh_collision lti strip_mesh (quad_mesh_with corner)
          = _mesh_collision lti strip_mesh quad_mesh).
Proof.
  intros lti. split; [| split].
  - vm_compute. by_segment_tests lti.
  - vm_compute. by_segment_tests lti.
  - intros [[x y] z]. vm_compute. by_segment_tests lti.
Qed.

(** *** Symmetry *)

Section PhaseSymmetry.
Context {S : Scalar}.
Variable lti : point -> point -> point -> point -> point -> bool.
Hypothesis add_comm : forall x y : num, add x y = add y x.
Hypothesis distance_sym : forall p q : vec4, distance p q = distance q p.

Lemma bounding_sphere_collision_sym obj1 obj2 :
  _bounding_sphere_collision obj1 obj2 = _bounding_sphere_collision obj2 obj1.
Proof.
  unfold _bounding_sphere_collision, _dist.
  rewrite (distance_sym (_model_matrix_3 obj1)).
  rewrite (add_comm (bounding_radius obj1)). reflexivity.
Qed.

Lemma sphere_in_sphere_collision_sym obj1 obj2 :
  _sphere_in_sphere_collision obj1 obj2 = _sphere_in_sphere_collision obj2 obj1.
Proof.
  unfold _sphere_in_sphere_collision, _dist.
  rewrite (distance_sym (_model_matrix_3 obj1)).
  destruct (gtb (bounding_radius obj1) _), (gtb (bounding_radius obj2) _);
    reflexivity.
Qed.

(** Up to the narrow phase the two orders go the same way: whenever the
    answer comes without [_mesh_collision], it is the same answer. *)
Lemma test_sym_before_mesh obj1 obj2 :
  ~ In MeshCollision (fst (_test lti obj1 obj2)) ->
  _test lti obj2 obj1 = _test lti obj1 obj2.
Proof.
  unfold _test.
  rewrite (bounding_sphere_collision_sym obj2 obj1).
  rewrite (sphere_in_sphere_collision_sym obj2 obj1).
  rewrite (andb_comm (is_Sphere obj2)).
  destruct (is_Sphere obj1 && is_Sphere obj2); [reflexivity |].
  destruct (_bounding_sphere_collision obj1 obj2); [| reflexivity].
  destruct (_sphere_in_sphere_collision obj1 obj2); [reflexivity |].
  simpl. intros H. exfalso. apply H. tauto.
Qed.

End PhaseSymmetry.

(** The narrow phase of the specification does not depend on the order
    of the two objects: the six segment tests of two triangles are the same
    six either way, and an unreadable buffer raises [IndexError] in both
    orders. *)
Section NarrowPhaseSymmetry.
Context {S : Scalar}.
Variable lti : point -> point -> point -> point -> point -> bool.

Lemma six_tests_sym (p1 p2 p3 q1 q2 q3 : point) :
  six_tests lti p1 p2 p3 q1 q2 q3 = six_tests lti q1 q2 q3 p1 p2 p3.
Proof.
  unfold six_tests.
  destruct (lti p1 p2 q1 q2 q3), (lti p1 p3 q1 q2 q3), (lti p2 p3 q1 q2 q3),
    (lti q1 q2 p1 p2 p3), (lti q1 q3 p1 p2 p3), (lti q2 q3 p1 p2 p3);
    reflexivity.
Qed.

Lemma triangles_cross_sym (a b : point * point * point) :
  triangles_cross lti a b = triangles_cross lti b a.
Proof.
  destruct a as [[p1 p2] p3], b as [[q1 q2] q3]. apply six_tests_sym.
Qed.

Lemma existsb_swap {A B : Type} (f : A -> B -> bool) (la : list A) (lb : list B) :
  existsb (fun a => existsb (fun b => f a b) lb) la
  = existsb (fun b => existsb (fun a => f a b) la) lb.
Proof.
  induction la as [| a la IH]; cbn [existsb].
  - induction lb as [| b lb IHb]; [reflexivity | exact IHb].
  - rewrite IH. clear IH.
    induction lb as [| b lb IHb]; cbn [existsb]; [reflexivity |].
    rewrite <- IHb.
    destruct (f a b), (existsb (fun b0 => f a b0) lb),
      (existsb (fun a0 => f a0 b) la); reflexivity.
Qed.

Lemma existsb_pointwise {A : Type} (f g : A -> bool) (l : list A) :
  (forall a, f a = g a) -> existsb f l = existsb g l.
Proof.
  intros H. induction l as [| a l IH]; cbn [existsb]; [reflexivity |].
  rewrite H, IH. reflexivity.
Qed.

Lemma getitem_raise {A : Type} (l : list A) (i : Z) (e : exn) :
  getitem l i = Raise e -> e = IndexError.
Proof.
  unfold getitem.
  destruct ((0 <=? _)%Z && _).
  - destruct (nth_error l _); intros H; inversion H; reflexivity.
  - intros H; inversion H; reflexivity.
Qed.

Lemma vertex_raise (vs : list num) (i : Z) (e : exn) :
  vertex vs i = Raise e -> e = IndexError.
Proof.
  unfold vertex, rbind.
  destruct (getitem vs (i * 3)) eqn:E1; [| intros H; inversion H; subst;
    exact (getitem_raise _ _ _ E1)].
  destruct (getitem vs (i * 3 + 1)) eqn:E2; [| intros H; inversion H; subst;
    exact (getitem_raise _ _ _ E2)].
  destruct (getitem vs (i * 3 + 2)) eqn:E3; [discriminate |].
  intros H; inversion H; subst. exact (getitem_raise _ _ _ E3).
Qed.

Lemma triangle_at_raise (obj : Object) (t : nat) (e : exn) :
  triangle_at obj t = Raise e -> e = IndexError.
Proof.
  unfold triangle_at, rbind.
  repeat match goal with
         | |- context [match getitem ?l ?i with _ => _ end] =>
             let E := fresh "E" in
             destruct (getitem l i) eqn:E;
             [| intros H; inversion H; subst; exact (getitem_raise _ _ _ E)]
         | |- context [match vertex ?l ?i with _ => _ end] =>
             let E := fresh "E" in
             destruct (vertex l i) eqn:E;
             [| intros H; inversion H; subst; exact (vertex_raise _ _ _ E)]
         end.
  discriminate.
Qed.

Lemma triangles_raise (obj : Object) (e : exn) :
  triangles obj = Raise e -> e = IndexError.
Proof.
  unfold triangles. induction (triangle_range (_indices obj)) as [| t ts IH];
    cbn [triangles_from]; [discriminate |].
  unfold rbind at 1.
  destruct (triangle_at obj t) eqn:E;
    [| intros H; inversion H; subst; exact (triangle_at_raise _ _ _ E)].
  unfold rbind. destruct (triangles_from obj ts); [discriminate |].
  intros H. inversion H; subst. apply IH. reflexivity.
Qed.

Lemma narrow_phase_spec_sym (objA objB : Object) :
  narrow_phase_spec lti objA objB = narrow_phase_spec lti objB objA.
Proof.
  unfold narrow_phase_spec, rbind.
  destruct (triangles objA) as [ta | ea] eqn:EA,
           (triangles objB) as [tb | eb] eqn:EB; try reflexivity.
  - f_equal. rewrite existsb_swap. apply existsb_pointwise.
    intros b. apply existsb_pointwise. intros a. apply triangles_cross_sym.
  - apply triangles_raise in EA, EB. subst. reflexivity.
Qed.

End NarrowPhaseSymmetry.

(** C2 at a failing input. The triangle and the square have overlapping
    bounding spheres, neither of which contains the other, so both orders
    reach the narrow phase. With the triangle first, whatever the segment
    test is, the pair is either colliding or the call ends in [IndexError];
    with a segment test that finds no crossing, the call with the triangle
    first ends in [IndexError] and the call with the square first returns
    false. *)
Theorem classification_not_symmetric :
  (forall lti : point -> point -> point -> point -> point -> bool,
     classify lti triangle_mesh quad_mesh = Ok true
     \/ classify lti triangle_mesh quad_mesh = Raise IndexError)
  /\ _test never_hit triangle_mesh quad_mesh
     = ([BoundingSphere; SphereInSphere; MeshCollision], Raise IndexError)
  /\ _test never_hit quad_mesh triangle_mesh
     = ([BoundingSphere; SphereInSphere; MeshCollision], Ok false).
Proof.
  split; [| split].
  - intros lti.
    destruct (six_tests lti (0, 0, 0)%float (1, 0, 0)%float (0, 1, 0)%float
                (0, 0, 5)%float (1, 0, 5)%float (1, 1, 5)%float) eqn:E;
      [left | right]; revert E; vm_compute; by_segment_tests lti.
  - vm_compute. reflexivity.
  - vm_compute. reflexivity.
Qed.

(** ** The detector *)

(** *** Loops *)

Lemma for_each_app {X : Type} (l1 l2 : list X) (body : X -> M unit) (st : state) :
  for_each (l1 ++ l2) body st
  = bind (for_each l1 body) (fun _ => for_each l2 body) st.
Proof.
  revert st. induction l1 as [| x l1 IH]; intros st; simpl.
  - reflexivity.
  - unfold bind.
    destruct (body x st) as [[[] | e] st']; [apply IH | reflexivity].
Qed.

Lemma for_each_map {X Y : Type} (h : X -> Y) (l : list X) (body : Y -> M unit)
    (st : state) :
  for_each (map h l) body st = for_each l (fun x => body (h x)) st.
Proof.
  revert st. induction l as [| x l IH]; intros st; simpl; [reflexivity |].
  unfold bind. destruct (body (h x) st) as [[[] | e] st']; [apply IH | reflexivity].
Qed.

(** A loop in a loop is one loop over the pairs of counters. *)
Lemma for_each_nested {X Y : Type} (l : list X) (inner : X -> list Y)
    (body : X -> Y -> M unit) (st : state) :
  for_each l (fun x => for_each (inner x) (body x)) st
  = for_each (flat_map (fun x => map (fun y => (x, y)) (inner x)) l)
             (fun xy => body (fst xy) (snd xy)) st.
Proof.
  revert st. induction l as [| x l IH]; intros st; simpl; [reflexivity |].
  rewrite for_each_app. unfold bind.
  rewrite for_each_map. simpl.
  destruct (for_each (inner x) _ st) as [[[] | e] st']; [apply IH | reflexivity].
Qed.

Lemma for_each_ext_inv {X : Type} (I : state -> Prop) (l : list X)
    (f g : X -> M unit) (st : state) :
  I st ->
  (forall x st', In x l -> I st' -> f x st' = g x st') ->
  (forall x st', In x l -> I st' -> I (snd (g x st'))) ->
  for_each l f st = for_each l g st.
Proof.
  revert st. induction l as [| x l IH]; intros st Hst Hfg Hinv; simpl;
    [reflexivity |].
  unfold bind. rewrite (Hfg x st (or_introl eq_refl) Hst).
  pose proof (Hinv x st (or_introl eq_refl) Hst) as Hst'.
  destruct (g x st) as [[[] | e] st']; [| reflexivity].
  apply IH; [exact Hst' | |]; intros y st'' Hy; [apply Hfg | apply Hinv];
    right; exact Hy.
Qed.

(** *** The pairs of a roster *)

Lemma counters_in_range n i j : In (i, j) (counters n) -> i + j + 1 < n.
Proof.
  unfold counters. rewrite in_flat_map. intros [i' [Hi Hj]].
  rewrite in_map_iff in Hj. destruct Hj as [j' [E Hj']].
  inversion E; subst. rewrite in_seq in Hi, Hj'. lia.
Qed.

Lemma skipn_as_map (l : list oid) (k : nat) :
  skipn k l = map (fun j => nth (k + j) l 0) (seq 0 (List.length l - k)).
Proof.
  revert k. induction l as [| a l IH]; intros k.
  - destruct k; reflexivity.
  - destruct k as [| k].
    + simpl. f_equal. specialize (IH 0). simpl in IH.
      rewrite Nat.sub_0_r in IH. rewrite <- seq_shift, map_map. exact IH.
    + simpl. apply IH.
Qed.

Lemma skipn_cons_nth (l : list oid) (k : nat) :
  k < List.length l -> skipn k l = nth k l 0 :: skipn (S k) l.
Proof.
  revert k. induction l as [| a l IH]; intros k Hk; simpl in Hk; [lia |].
  destruct k as [| k]; [reflexivity |]. simpl. apply IH. lia.
Qed.

Lemma combinations_skipn (l : list oid) (m k : nat) :
  k + m = List.length l ->
  combinations (skipn k l)
  = flat_map (fun i => map (fun b => (nth i l 0, b)) (skipn (S i) l)) (seq k m).
Proof.
  revert k. induction m as [| m IH]; intros k Hk.
  - rewrite skipn_all2 by lia. reflexivity.
  - rewrite skipn_cons_nth by lia. cbn [combinations seq flat_map].
    f_equal. apply IH. lia.
Qed.

(** The loops of [check] visit the combinations of the roster, in order. *)
Lemma counters_combinations (l : list oid) :
  map (fun ij => (nth (fst ij) l 0, nth (fst ij + snd ij + 1) l 0))
      (counters (List.length l))
  = combinations l.
Proof.
  pose proof (combinations_skipn l (List.length l) 0 eq_refl) as H.
  change (skipn 0 l) with l in H. rewrite H. clear H. unfold counters.
  remember (List.length l) as n eqn:En. destruct n as [| n]; [reflexivity |].
  replace (S n - 1) with n by lia.
  rewrite seq_S, flat_map_app. cbn [flat_map Nat.add].
  rewrite (skipn_all2 l) by lia. cbn [map]. rewrite !app_nil_r.
  rewrite flat_map_concat_map, concat_map, map_map, <- flat_map_concat_map.
  apply flat_map_ext. intros i.
  rewrite map_map. cbn [fst snd]. rewrite skipn_as_map, map_map, <- En.
  replace (S n - S i) with (S n - i - 1) by lia.
  apply map_ext. intros j. do 2 f_equal. lia.
Qed.

(** *** A detection pass, pair by pair *)

Lemma set_pairs_same (d : Detector) : set_pairs d (_pairs d) = d.
Proof. destruct d; reflexivity. Qed.

Section Pass.
Context {S : Scalar}.
Variable lti : point -> point -> point -> point -> point -> bool.
Variable heap : oid -> Object.

Lemma check_pair_step (a b : oid) (d : Detector) (evs : list event) :
  check_pair lti heap a b (d, evs)
  = if cached (a, b) (_pairs d) then (Ok tt, (d, evs))
    else match classify lti (heap a) (heap b) with
         | Ok true =>
             (Ok tt, (set_pairs d (_pairs d ++ [(a, b)]), evs ++ [test_event lti heap a b]))
         | Ok false => (Ok tt, (d, evs ++ [test_event lti heap a b]))
         | Raise e => (Raise e, (d, evs ++ [test_event lti heap a b]))
         end.
Proof.
  unfold check_pair, cached, swap, test_event, classify, bind, self. cbn [fst snd].
  destruct (pair_in (a, b) (_pairs d)); [reflexivity |].
  destruct (pair_in (b, a) (_pairs d)); [reflexivity |]. cbn [negb andb orb].
  destruct (_test lti (heap a) (heap b)) as [calls [[|] | e]]; reflexivity.
Qed.

Lemma for_each_check_pair (L : list refs) (d : Detector) (evs : list event) :
  for_each L (fun p => check_pair lti heap (fst p) (snd p)) (d, evs)
  = let '(r, c, evs') := scan lti heap L (_pairs d) in
    (r, (set_pairs d c, evs ++ evs')).
Proof.
  revert d evs. induction L as [| [a b] L IH]; intros d evs.
  - simpl. rewrite set_pairs_same, app_nil_r. reflexivity.
  - cbn [for_each scan fst snd]. unfold bind. rewrite check_pair_step.
    destruct (cached (a, b) (_pairs d)); [apply IH |].
    destruct (classify lti (heap a) (heap b)) as [[|] | e].
    + rewrite IH. cbn [_pairs set_pairs].
      destruct (scan lti heap L (_pairs d ++ [(a, b)])) as [[r c] evs'].
      rewrite <- app_assoc. reflexivity.
    + rewrite IH. destruct (scan lti heap L (_pairs d)) as [[r c] evs'].
      rewrite <- app_assoc. reflexivity.
    + rewrite set_pairs_same. reflexivity.
Qed.

Lemma at_position_nth (l : list oid) (i : nat) :
  i < List.length l -> at_position l i = Ok (nth i l 0).
Proof.
  intros H. unfold at_position.
  rewrite (nth_error_nth' l 0 H). reflexivity.
Qed.

Lemma check_pair_objects (a b : oid) (st : state) :
  objects (fst (snd (check_pair lti heap a b st))) = objects (fst st).
Proof.
  destruct st as [d evs]. rewrite check_pair_step.
  destruct (cached (a, b) (_pairs d)); [reflexivity |].
  destruct (classify lti (heap a) (heap b)) as [[|] | e]; reflexivity.
Qed.

(** The two loops of [check] are one loop over the combinations of the
    roster. *)
Lemma check_loops (d : Detector) (evs : list event) :
  for_each (seq 0 (List.length (objects d) - 1)) (fun i =>
    bind self (fun d' =>
      for_each (seq 0 (List.length (objects d') - i - 1)) (fun j =>
        check_body lti heap i j))) (d, evs)
  = for_each (combinations (objects d))
      (fun p => check_pair lti heap (fst p) (snd p)) (d, evs).
Proof.
  set (objs := objects d).
  set (I := fun st : state => objects (fst st) = objs).
  assert (Hbody : forall ij st, In ij (counters (List.length objs)) -> I st ->
            check_body lti heap (fst ij) (snd ij) st
            = check_pair lti heap (nth (fst ij) objs 0)
                (nth (fst ij + snd ij + 1) objs 0) st).
  { intros [i j] [d' evs'] Hin Hst. apply counters_in_range in Hin.
    unfold I in Hst. cbn [fst snd] in *.
    unfold check_body, bind, self, lift. cbn [fst snd]. rewrite Hst.
    rewrite !at_position_nth by lia. reflexivity. }
  assert (Hinv : forall ij st, In ij (counters (List.length objs)) -> I st ->
            I (snd (check_pair lti heap (nth (fst ij) objs 0)
                      (nth (fst ij + snd ij + 1) objs 0) st))).
  { intros ij st _ Hst. unfold I in *. rewrite check_pair_objects. exact Hst. }
  transitivity
    (for_each (counters (List.length objs))
       (fun ij => check_body lti heap (fst ij) (snd ij)) (d, evs)).
  - unfold counters. rewrite <- for_each_nested.
    apply (for_each_ext_inv I); [reflexivity | |].
    + intros i [d' evs'] _ Hst. unfold bind, self. cbn [fst snd].
      unfold I in Hst. cbn [fst] in Hst. rewrite Hst. reflexivity.
    + intros i st Hi Hst.
      assert (Hsub : forall j, In j (seq 0 (List.length objs - i - 1)) ->
                In (i, j) (counters (List.length objs))).
      { intros j Hj. unfold counters. apply in_flat_map. exists i.
        split; [exact Hi | apply in_map; exact Hj]. }
      revert Hsub st Hst.
      induction (seq 0 (List.length objs - i - 1)) as [| j js IHjs];
        intros Hsub st Hst; [exact Hst |].
      cbn [for_each]. unfold bind.
      pose proof (Hbody (i, j) st (Hsub j (or_introl eq_refl)) Hst) as E.
      pose proof (Hinv (i, j) st (Hsub j (or_introl eq_refl)) Hst) as Hst'.
      cbn [fst snd] in E, Hst'. rewrite E.
      destruct (check_pair _ _ _ _ st) as [[[] | e] st']; [| exact Hst'].
      apply IHjs; [| exact Hst'].
      intros j' Hj'. apply Hsub. right. exact Hj'.
  - rewrite <- counters_combinations, for_each_map.
    apply (for_each_ext_inv I); [reflexivity | exact Hbody | exact Hinv].
Qed.

(** A detection pass is the scan of the combinations of the roster,
    followed by the call of the callback when the scan did not raise. *)
Lemma run_check_scan (d : Detector) :
  run_check lti heap d
  = let '(r, c, evs) := scan lti heap (combinations (objects d)) (_pairs d) in
    let d' := set_pairs d c in
    match r with
    | Ok _ =>
        if callable (callback d)
        then (Ok tt, (d', evs ++ [Called (callback d) d' c]))
        else (Raise TypeError, (d', evs))
    | Raise e => (Raise e, (d', evs))
    end.
Proof.
  unfold run_check, check.
  unfold bind at 1. unfold self at 1. cbn [fst]. unfold bind at 1.
  rewrite check_loops, for_each_check_pair.
  destruct (scan lti heap (combinations (objects d)) (_pairs d)) as [[[[] | e] c] evs];
    [| reflexivity].
  unfold call_callback, bind, self, emit, raise, lift.
  cbn [fst snd app callback set_pairs _pairs].
  destruct (callable (callback d)); reflexivity.
Qed.

(** The scan only appends to the list of pairs. *)
Lemma scan_appends (L : list refs) (cache : list refs) :
  exists added, snd (fst (scan lti heap L cache)) = cache ++ added.
Proof.
  revert cache. induction L as [| p L IH]; intros cache; cbn [scan].
  - exists []. rewrite app_nil_r. reflexivity.
  - destruct (cached p cache); [apply IH |].
    destruct (classify lti (heap (fst p)) (heap (snd p))) as [[|] | e].
    + destruct (IH (cache ++ [p])) as [added E].
      destruct (scan lti heap L (cache ++ [p])) as [[r c] evs]. cbn [fst snd] in *.
      exists (p :: added). rewrite E, <- app_assoc. reflexivity.
    + destruct (IH cache) as [added E].
      destruct (scan lti heap L cache) as [[r c] evs]. cbn [fst snd] in *.
      exists added. exact E.
    + exists []. rewrite app_nil_r. reflexivity.
Qed.

End Pass.

(** ** Construction *)

(** C9 fails on the code: with [None] as callback the constructor returns
    a detector, and all that happens is one record sent to [logging.error]. *)
Lemma init_not_callable_is_no_failure :
  callable PyNone = false
  /\ __init__ (Some [0; 1]) (Some PyNone)
     = (Ok {| objects := [0; 1]; callback := PyNone; _pairs := [] |},
        [Logged "callback should be a callable"])
  /\ forall e, fst (__init__ (Some [0; 1]) (Some PyNone)) <> Raise e.
Proof. repeat split. intros e. discriminate. Qed.

(** C9 as amended. A callback that is not callable does not stop the
    constructor: it sends one record to [logging.error] and returns the
    detector with the roster and the callback it was given and no pair.
    A detection pass on a detector with that callback does not complete:
    it ends in an exception. *)
Theorem init_logs_and_continues
    (S : Scalar) (lti : point -> point -> point -> point -> point -> bool)
    (heap : oid -> Object) (objs : list oid) (cb : pyvalue) :
  callable cb = false ->
  __init__ (Some objs) (Some cb)
  = (Ok {| objects := objs; callback := cb; _pairs := [] |},
     [Logged "callback should be a callable"])
  /\ forall d, callback d = cb ->
       exists e, fst (run_check lti heap d) = Raise e.
Proof.
  intros Hcb. split.
  - unfold __init__. rewrite Hcb. reflexivity.
  - intros d Hd. rewrite run_check_scan.
    destruct (scan lti heap (combinations (objects d)) (_pairs d))
      as [[[[] | e] c] evs]; cbn [fst].
    + rewrite Hd, Hcb. exists TypeError. reflexivity.
    + exists e. reflexivity.
Qed.

Lemma init_logs_and_continues_witness :
  __init__ (Some [0; 1]) (Some PyNone)
  = (Ok {| objects := [0; 1]; callback := PyNone; _pairs := [] |},
     [Logged "callback should be a callable"])
  /\ exists e,
       fst (run_check never_hit two_balls
              {| objects := [0; 1]; callback := PyNone; _pairs := [] |})
       = Raise e.
Proof.
  destruct (init_logs_and_continues binary64 never_hit two_balls [0; 1] PyNone
              eq_refl) as [Hinit Hcheck].
  split; [exact Hinit |].
  apply Hcheck. reflexivity.
Defined.

(** ** The detection pass *)

Lemma callback_calls_app (evs evs' : list event) :
  callback_calls (evs ++ evs') = callback_calls evs ++ callback_calls evs'.
Proof. apply flat_map_app. Qed.



Section PassSpec.
Context {S : Scalar}.
Variable lti : point -> point -> point -> point -> point -> bool.
Variable heap : oid -> Object.
Variable colliding : oid -> oid -> bool.

Lemma tested_pairs_test_event (a b : oid) (evs : list event) :
  tested_pairs (test_event lti heap a b :: evs) = (a, b) :: tested_pairs evs.
Proof. reflexivity. Qed.

Lemma callback_calls_test_event (a b : oid) (evs : list event) :
  callback_calls (test_event lti heap a b :: evs) = callback_calls evs.
Proof. reflexivity. Qed.

Lemma scan_pass_step (L : list refs) :
  (forall p, In p L ->
     classify lti (heap (fst p)) (heap (snd p)) = Ok (colliding (fst p) (snd p))) ->
  forall tested cache,
  exists evs,
    scan lti heap L cache
    = (Ok tt, snd (fold_left (pass_step colliding) L (tested, cache)), evs)
    /\ fst (fold_left (pass_step colliding) L (tested, cache))
       = tested ++ tested_pairs evs
    /\ callback_calls evs = []
    /\ evs = map (fun p => test_event lti heap (fst p) (snd p)) (tested_pairs evs).
Proof.
  induction L as [| p L IH]; intros Hcl tested cache.
  - exists []. cbn. rewrite app_nil_r. repeat split.
  - assert (Hcl' : forall q, In q L ->
              classify lti (heap (fst q)) (heap (snd q))
              = Ok (colliding (fst q) (snd q))).
    { intros q Hq. apply Hcl. right. exact Hq. }
    cbn [scan fold_left]. unfold pass_step at 2 4.
    destruct (cached p cache).
    + apply IH. exact Hcl'.
    + rewrite (Hcl p (or_introl eq_refl)).
      destruct (colliding (fst p) (snd p)).
      * destruct (IH Hcl' (tested ++ [p]) (cache ++ [p]))
          as [evs [E1 [E2 [E3 E4]]]].
        exists (test_event lti heap (fst p) (snd p) :: evs).
        rewrite E1, E2, tested_pairs_test_event, callback_calls_test_event.
        rewrite <- app_assoc. destruct p as [a b]. cbn [app map fst snd].
        repeat split; [exact E3 | f_equal; exact E4].
      * destruct (IH Hcl' (tested ++ [p]) cache) as [evs [E1 [E2 [E3 E4]]]].
        exists (test_event lti heap (fst p) (snd p) :: evs).
        rewrite E1, E2, tested_pairs_test_event, callback_calls_test_event.
        rewrite <- app_assoc. destruct p as [a b]. cbn [app map fst snd].
        repeat split; [exact E3 | f_equal; exact E4].
Qed.

End PassSpec.




(** ** The pair cache *)

Lemma pair_eqb_eq (p q : refs) : pair_eqb p q = true <-> p = q.
Proof.
  destruct p as [a b], q as [c e]. unfold pair_eqb. cbn [fst snd].
  rewrite andb_true_iff, !Nat.eqb_eq. split.
  - intros [-> ->]. reflexivity.
  - intros E. inversion E. split; reflexivity.
Qed.

Lemma pair_eqb_refl (p : refs) : pair_eqb p p = true.
Proof. apply pair_eqb_eq. reflexivity. Qed.

Lemma swap_swap (p : refs) : swap (swap p) = p.
Proof. destruct p; reflexivity. Qed.

Lemma pair_in_In (p : refs) (c : list refs) : pair_in p c = true <-> In p c.
Proof.
  unfold pair_in. rewrite existsb_exists. split.
  - intros [q [Hq E]]. apply pair_eqb_eq in E. subst. exact Hq.
  - intros H. exists p. split; [exact H | apply pair_eqb_refl].
Qed.

Lemma cached_true (p : refs) (c : list refs) :
  cached p c = true <-> In p c \/ In (swap p) c.
Proof. unfold cached. rewrite orb_true_iff, !pair_in_In. reflexivity. Qed.

Lemma cached_false (p : refs) (c : list refs) :
  cached p c = false <-> ~ In p c /\ ~ In (swap p) c.
Proof.
  rewrite <- not_true_iff_false, cached_true. tauto.
Qed.

Lemma at_most_once_cons (p : refs) (c : list refs) :
  at_most_once (p :: c) = true <-> cached p c = false /\ at_most_once c = true.
Proof.
  cbn [at_most_once]. rewrite andb_true_iff, negb_true_iff. reflexivity.
Qed.

Lemma at_most_once_append (c : list refs) (p : refs) :
  at_most_once c = true -> cached p c = false ->
  at_most_once (c ++ [p]) = true.
Proof.
  induction c as [| q c IH]; intros Hc Hp.
  - reflexivity.
  - apply at_most_once_cons in Hc. destruct Hc as [Hq Hc].
    apply cached_false in Hp. destruct Hp as [Hp1 Hp2].
    apply cached_false in Hq. destruct Hq as [Hq1 Hq2].
    cbn [app]. apply at_most_once_cons. split.
    + apply cached_false. rewrite !in_app_iff. cbn [In]. split.
      * intros [H | [H | []]]; [tauto | subst; apply Hp1; left; reflexivity].
      * intros [H | [H | []]]; [tauto |].
        apply Hp2. left. rewrite H, swap_swap. reflexivity.
    + apply IH; [exact Hc |]. apply cached_false.
      cbn [In] in Hp1, Hp2. tauto.
Qed.

Lemma at_most_once_filter (f : refs -> bool) (c : list refs) :
  at_most_once c = true -> at_most_once (filter f c) = true.
Proof.
  induction c as [| q c IH]; intros Hc; [reflexivity |].
  apply at_most_once_cons in Hc. destruct Hc as [Hq Hc]. cbn [filter].
  destruct (f q); [| apply IH; exact Hc].
  apply at_most_once_cons. split; [| apply IH; exact Hc].
  apply cached_false in Hq. apply cached_false.
  rewrite !filter_In. tauto.
Qed.

Lemma filter_not_names_id (a b : oid) (c : list refs) :
  cached (a, b) c = false -> filter (fun q => negb (names a b q)) c = c.
Proof.
  intros H. apply cached_false in H. destruct H as [H1 H2].
  induction c as [| q c IH]; [reflexivity |]. cbn [filter].
  assert (Hq : names a b q = false).
  { unfold names. apply orb_false_iff. split; apply not_true_iff_false;
      rewrite pair_eqb_eq; intros ->; [apply H1 | apply H2]; left; reflexivity. }
  rewrite Hq. cbn [negb]. f_equal. apply IH.
  - intros H. apply H1. right. exact H.
  - intros H. apply H2. right. exact H.
Qed.

Lemma list_remove_filter (a b : oid) (c : list refs) :
  at_most_once c = true -> In (a, b) c ->
  list_remove (a, b) c = filter (fun q => negb (names a b q)) c.
Proof.
  induction c as [| q c IH]; intros Hc Hin; [destruct Hin |].
  apply at_most_once_cons in Hc. destruct Hc as [Hq Hc].
  cbn [list_remove filter]. unfold names at 1.
  destruct (pair_eqb q (a, b)) eqn:E.
  - apply pair_eqb_eq in E. subst q. cbn [orb negb].
    symmetry. apply filter_not_names_id. exact Hq.
  - destruct Hin as [-> | Hin]; [rewrite pair_eqb_refl in E; discriminate |].
    assert (E' : pair_eqb q (b, a) = false).
    { apply not_true_iff_false. rewrite pair_eqb_eq. intros ->.
      apply cached_false in Hq. apply (proj2 Hq). exact Hin. }
    rewrite E'. cbn [orb negb]. f_equal. apply IH; assumption.
Qed.

Lemma names_comm (a b : oid) (q : refs) : names a b q = names b a q.
Proof. unfold names. apply orb_comm. Qed.

Lemma cached_filter_not_names (a b : oid) (c : list refs) :
  cached (a, b) (filter (fun q => negb (names a b q)) c) = false.
Proof.
  apply cached_false. rewrite !filter_In. unfold names, swap. cbn [fst snd].
  rewrite !pair_eqb_refl, orb_true_r. cbn. split; intros [_ H]; discriminate.
Qed.

(** [resolve] on a cache without repeats removes the entries that are the
    pair it is given, in either order, and nothing else. *)
Lemma resolve_pairs (a b : oid) (d : Detector) :
  at_most_once (_pairs d) = true ->
  _pairs (resolve a b d) = filter (fun q => negb (names a b q)) (_pairs d).
Proof.
  intros Hc. unfold resolve. cbn [_pairs set_pairs].
  destruct (pair_in (a, b) (_pairs d)) eqn:E1.
  - apply pair_in_In in E1. rewrite (list_remove_filter a b) by assumption.
    pose proof (cached_filter_not_names a b (_pairs d)) as H.
    unfold cached in H. apply orb_false_iff in H. destruct H as [_ H].
    unfold swap in H. cbn [fst snd] in H. rewrite H. reflexivity.
  - destruct (pair_in (b, a) (_pairs d)) eqn:E2.
    + apply pair_in_In in E2. rewrite (list_remove_filter b a) by assumption.
      apply filter_ext. intros q. rewrite names_comm. reflexivity.
    + symmetry. apply filter_not_names_id. unfold cached, swap. cbn [fst snd].
      rewrite E1, E2. reflexivity.
Qed.

Lemma resolve_absent (a b : oid) (d : Detector) :
  cached (a, b) (_pairs d) = false -> resolve a b d = d.
Proof.
  unfold cached, swap. cbn [fst snd]. intros H.
  apply orb_false_iff in H. destruct H as [H1 H2].
  unfold resolve. rewrite H1, H2. apply set_pairs_same.
Qed.

Section PassInvariant.
Context {S : Scalar}.
Variable lti : point -> point -> point -> point -> point -> bool.
Variable heap : oid -> Object.

Lemma scan_at_most_once (L : list refs) (c : list refs) :
  at_most_once c = true -> at_most_once (snd (fst (scan lti heap L c))) = true.
Proof.
  revert c. induction L as [| p L IH]; intros c Hc; cbn [scan]; [exact Hc |].
  destruct (cached p c) eqn:Ep; [apply IH; exact Hc |].
  destruct (classify lti (heap (fst p)) (heap (snd p))) as [[|] | e].
  - specialize (IH (c ++ [p]) (at_most_once_append c p Hc Ep)).
    destruct (scan lti heap L (c ++ [p])) as [[r c'] evs]. exact IH.
  - specialize (IH c Hc). destruct (scan lti heap L c) as [[r c'] evs]. exact IH.
  - exact Hc.
Qed.

(** What the scan appends was not in the cache, was tested during the scan
    and was found colliding. *)
Lemma scan_added (L : list refs) (c : list refs) :
  exists added,
    snd (fst (scan lti heap L c)) = c ++ added
    /\ forall p, In p added ->
         cached p c = false
         /\ classify lti (heap (fst p)) (heap (snd p)) = Ok true
         /\ In (test_event lti heap (fst p) (snd p)) (snd (scan lti heap L c)).
Proof.
  revert c. induction L as [| p L IH]; intros c; cbn [scan].
  - exists []. rewrite app_nil_r. split; [reflexivity | intros p []].
  - destruct (cached p c) eqn:Ep; [apply IH |].
    destruct (classify lti (heap (fst p)) (heap (snd p))) as [[|] | e] eqn:Ec.
    + destruct (IH (c ++ [p])) as [added [E H]].
      destruct (scan lti heap L (c ++ [p])) as [[r c'] evs]. cbn [fst snd] in *.
      exists (p :: added). split; [rewrite E, <- app_assoc; reflexivity |].
      intros q [<- | Hq].
      * split; [exact Ep | split; [exact Ec | left; reflexivity]].
      * destruct (H q Hq) as [H1 [H2 H3]]. split; [| split; [exact H2 | right; exact H3]].
        apply cached_false in H1. apply cached_false.
        rewrite !in_app_iff in H1. tauto.
    + destruct (IH c) as [added [E H]].
      destruct (scan lti heap L c) as [[r c'] evs]. cbn [fst snd] in *.
      exists added. split; [exact E |].
      intros q Hq. destruct (H q Hq) as [H1 [H2 H3]].
      split; [exact H1 | split; [exact H2 | right; exact H3]].
    + exists []. rewrite app_nil_r. split; [reflexivity | intros q []].
Qed.

End PassInvariant.

(** C4. The constructor starts with an empty cache. On a detector whose
    cache holds no pair twice, in one order or in two: tracking an object
    leaves the cache as it is; [resolve] never fails, keeps the cache free
    of repeats, removes exactly the entries that are the pair it names, in
    either order, and changes nothing when the pair is absent; a detection
    pass, however it ends, keeps the cache free of repeats and only appends
    to it pairs that were not cached and that it classified as colliding. *)
Theorem pair_cache_invariant
    (S : Scalar) (lti : point -> point -> point -> point -> point -> bool)
    (heap : oid -> Object) (d : Detector) :
  at_most_once (_pairs d) = true ->
  (forall objs cb, exists d0,
     fst (__init__ objs cb) = Ok d0 /\ _pairs d0 = [])
  /\ (forall obj,
        _pairs (add_object obj d) = _pairs d
        /\ objects (add_object obj d) = objects d ++ [obj])
  /\ (forall a b,
        at_most_once (_pairs (resolve a b d)) = true
        /\ _pairs (resolve a b d)
           = filter (fun q => negb (names a b q)) (_pairs d)
        /\ cached (a, b) (_pairs (resolve a b d)) = false
        /\ (cached (a, b) (_pairs d) = false -> resolve a b d = d)
        /\ objects (resolve a b d) = objects d)
  /\ (let d' := fst (snd (run_check lti heap d)) in
      let evs := snd (snd (run_check lti heap d)) in
      at_most_once (_pairs d') = true
      /\ objects d' = objects d
      /\ exists added,
           _pairs d' = _pairs d ++ added
           /\ forall p, In p added ->
                cached p (_pairs d) = false
                /\ classify lti (heap (fst p)) (heap (snd p)) = Ok true
                /\ In (test_event lti heap (fst p) (snd p)) evs).
Proof.
  intros Hc. split; [| split; [| split]].
  - intros objs cb. eexists. split; reflexivity.
  - intros obj. split; reflexivity.
  - intros a b. rewrite (resolve_pairs a b d Hc).
    split; [apply at_most_once_filter; exact Hc |].
    split; [reflexivity |].
    split; [apply cached_filter_not_names |].
    split; [apply resolve_absent | reflexivity].
  - cbv zeta. rewrite run_check_scan.
    pose proof (scan_at_most_once lti heap (combinations (objects d)) _ Hc) as H1.
    destruct (scan_added lti heap (combinations (objects d)) (_pairs d))
      as [added [H2 H3]].
    destruct (scan lti heap (combinations (objects d)) (_pairs d))
      as [[r c] evs]. cbn [fst snd] in H1, H2, H3.
    assert (Hgoal : forall evs',
              (forall ev, In ev evs -> In ev evs') ->
              at_most_once (_pairs (set_pairs d c)) = true
              /\ objects (set_pairs d c) = objects d
              /\ exists added0,
                   _pairs (set_pairs d c) = _pairs d ++ added0
                   /\ forall p, In p added0 ->
                        cached p (_pairs d) = false
                        /\ classify lti (heap (fst p)) (heap (snd p)) = Ok true
                        /\ In (test_event lti heap (fst p) (snd p)) evs').
    { intros evs' Hsub. split; [exact H1 | split; [reflexivity |]].
      exists added. split; [exact H2 |].
      intros p Hp. destruct (H3 p Hp) as [A [B C]].
      split; [exact A | split; [exact B | apply Hsub; exact C]]. }
    destruct r as [[] | e]; [destruct (callable (callback d)) |]; cbn [fst snd].
    + apply Hgoal. intros ev Hev. apply in_or_app. left. exact Hev.
    + apply Hgoal. intros ev Hev. exact Hev.
    + apply Hgoal. intros ev Hev. exact Hev.
Qed.

Lemma pair_cache_invariant_witness :
  _pairs (resolve 1 2 three_tracked) = []
  /\ resolve 0 2 three_tracked = three_tracked
  /\ at_most_once
       (_pairs (fst (snd (run_check never_hit three_balls three_tracked))))
     = true.
Proof.
  destruct (pair_cache_invariant binary64 never_hit three_balls three_tracked
              eq_refl) as [_ [_ [Hres Hpass]]].
  split; [| split].
  - destruct (Hres 1 2) as [_ [E _]]. exact E.
  - destruct (Hres 0 2) as [_ [_ [_ [E _]]]]. apply E. reflexivity.
  - destruct Hpass as [E _]. exact E.
Defined.

(** ** Two passes in a row *)

Section Idempotence.
Context {S : Scalar}.
Variable lti : point -> point -> point -> point -> point -> bool.
Variable heap : oid -> Object.

Lemma scan_keeps_cached (L : list refs) (c : list refs) (q : refs) :
  cached q c = true -> cached q (snd (fst (scan lti heap L c))) = true.
Proof.
  destruct (scan_appends lti heap L c) as [added ->].
  rewrite !cached_true, !in_app_iff. tauto.
Qed.

Lemma scan_no_callback (L : list refs) (c : list refs) :
  callback_calls (snd (scan lti heap L c)) = [].
Proof.
  revert c. induction L as [| p L IH]; intros c; cbn [scan]; [reflexivity |].
  destruct (cached p c); [apply IH |].
  destruct (classify lti (heap (fst p)) (heap (snd p))) as [[|] | e].
  - specialize (IH (c ++ [p])).
    destruct (scan lti heap L (c ++ [p])) as [[r c'] evs]. exact IH.
  - specialize (IH c). destruct (scan lti heap L c) as [[r c'] evs]. exact IH.
  - reflexivity.
Qed.

Lemma test_event_positive (a b : oid) :
  positive (test_event lti heap a b)
  = match classify lti (heap a) (heap b) with
    | Ok true => true
    | _ => false
    end.
Proof. reflexivity. Qed.

(** A scan that starts from a cache holding the same pairs as the one a
    first scan ended with tests no pair positive, leaves that cache as it
    is, and ends as the first scan did. *)
Lemma scan_again (L : list refs) :
  forall c0 r c1 evs X,
    scan lti heap L c0 = (r, c1, evs) ->
    (forall q, cached q X = cached q c1) ->
    exists evs',
      scan lti heap L X = (r, X, evs') /\ existsb positive evs' = false.
Proof.
  induction L as [| p L IH]; intros c0 r c1 evs X Hscan HX.
  - cbn [scan] in *. inversion Hscan; subst. exists []. split; reflexivity.
  - cbn [scan] in Hscan |- *.
    destruct (cached p c0) eqn:Ep.
    + assert (Hp : cached p X = true).
      { rewrite HX. pose proof (scan_keeps_cached L c0 p Ep) as H.
        rewrite Hscan in H. exact H. }
      rewrite Hp. exact (IH c0 r c1 evs X Hscan HX).
    + destruct (classify lti (heap (fst p)) (heap (snd p))) as [[|] | e] eqn:Ec.
      * destruct (scan lti heap L (c0 ++ [p])) as [[r' c'] evs0] eqn:E0.
        inversion Hscan; subst r' c' evs.
        assert (Hp : cached p X = true).
        { rewrite HX.
          assert (H0 : cached p (c0 ++ [p]) = true).
          { apply cached_true. left. apply in_or_app. right. left. reflexivity. }
          pose proof (scan_keeps_cached L (c0 ++ [p]) p H0) as H.
          rewrite E0 in H. exact H. }
        rewrite Hp. exact (IH (c0 ++ [p]) r c1 evs0 X E0 HX).
      * destruct (scan lti heap L c0) as [[r' c'] evs0] eqn:E0.
        inversion Hscan; subst r' c' evs.
        destruct (IH c0 r c1 evs0 X E0 HX) as [evs' [E1 E2]].
        destruct (cached p X); [exists evs'; split; assumption |].
        rewrite E1. exists (test_event lti heap (fst p) (snd p) :: evs').
        split; [reflexivity |].
        cbn [existsb]. rewrite test_event_positive, Ec, E2. reflexivity.
      * inversion Hscan; subst r c1 evs.
        rewrite HX, Ep. exists [test_event lti heap (fst p) (snd p)].
        split; [reflexivity |].
        cbn [existsb]. rewrite test_event_positive, Ec. reflexivity.
Qed.

End Idempotence.

Lemma existsb_positive_app_called (evs : list event) f d pairs :
  existsb positive (evs ++ [Called f d pairs]) = existsb positive evs.
Proof. rewrite existsb_app. cbn. rewrite !orb_false_r. reflexivity. Qed.

(** C5. Whatever the detector and the objects are, a second detection pass
    right after a first one, on the same objects, leaves the detector as the
    first pass left it, ends the way the first did, tests no pair positive,
    and hands the callback the same arguments: both report the same pairs,
    or neither reports because both end in the same exception. *)
Theorem detection_pass_idempotent
    (S : Scalar) (lti : point -> point -> point -> point -> point -> bool)
    (heap : oid -> Object) (d : Detector) :
  let first := run_check lti heap d in
  let d1 := fst (snd first) in
  let second := run_check lti heap d1 in
  fst (snd second) = d1
  /\ fst second = fst first
  /\ callback_calls (snd (snd second)) = callback_calls (snd (snd first))
  /\ existsb positive (snd (snd second)) = false.
Proof.
  cbv zeta. rewrite (run_check_scan lti heap d).
  destruct (scan lti heap (combinations (objects d)) (_pairs d))
    as [[r c] evs] eqn:E.
  pose proof (scan_no_callback lti heap (combinations (objects d)) (_pairs d))
    as Hno. rewrite E in Hno. cbn [snd] in Hno.
  destruct (scan_again lti heap (combinations (objects d)) (_pairs d) r c evs c E
              (fun q => eq_refl)) as [evs' [E' Hpos]].
  pose proof (scan_no_callback lti heap (combinations (objects d)) c) as Hno'.
  rewrite E' in Hno'. cbn [snd] in Hno'.
  assert (Hsecond : run_check lti heap (set_pairs d c)
            = match r with
              | Ok _ =>
                  if callable (callback d)
                  then (Ok tt, (set_pairs d c,
                                evs' ++ [Called (callback d) (set_pairs d c) c]))
                  else (Raise TypeError, (set_pairs d c, evs'))
              | Raise e => (Raise e, (set_pairs d c, evs'))
              end).
  { rewrite run_check_scan. cbn [objects callback _pairs set_pairs].
    rewrite E'. reflexivity. }
  destruct r as [[] | e]; [destruct (callable (callback d)) |];
    cbn [fst snd]; rewrite Hsecond; cbn [fst snd].
  - rewrite !callback_calls_app, Hno, Hno', existsb_positive_app_called.
    repeat split. exact Hpos.
  - rewrite Hno, Hno'. repeat split. exact Hpos.
  - rewrite Hno, Hno'. repeat split. exact Hpos.
Qed.


(** * Further properties of the detector *)

Section PassFacts.
Context {S : Scalar}.
Variable lti : point -> point -> point -> point -> point -> bool.
Variable heap : oid -> Object.

(** A scan that runs to its end leaves every pair it went through that
    classifies as colliding in the cache. *)
Lemma scan_complete (L : list refs) :
  forall c0 c1 evs p,
    scan lti heap L c0 = (Ok tt, c1, evs) ->
    In p L ->
    classify lti (heap (fst p)) (heap (snd p)) = Ok true ->
    cached p c1 = true.
Proof.
  induction L as [| q L IH]; intros c0 c1 evs p Hscan Hin Hcl; [destruct Hin |].
  cbn [scan] in Hscan.
  destruct (cached q c0) eqn:Eq.
  - destruct Hin as [-> | Hin]; [| exact (IH c0 c1 evs p Hscan Hin Hcl)].
    pose proof (scan_keeps_cached lti heap L c0 p Eq) as H.
    rewrite Hscan in H. exact H.
  - destruct (classify lti (heap (fst q)) (heap (snd q))) as [[|] | e] eqn:Ec.
    + destruct (scan lti heap L (c0 ++ [q])) as [[r c'] evs0] eqn:E0.
      inversion Hscan; subst r c' evs.
      destruct Hin as [-> | Hin]; [| exact (IH _ c1 evs0 p E0 Hin Hcl)].
      assert (H0 : cached p (c0 ++ [p]) = true).
      { apply cached_true. left. apply in_or_app. right. left. reflexivity. }
      pose proof (scan_keeps_cached lti heap L (c0 ++ [p]) p H0) as H.
      rewrite E0 in H. exact H.
    + destruct (scan lti heap L c0) as [[r c'] evs0] eqn:E0.
      inversion Hscan; subst r c' evs.
      destruct Hin as [-> | Hin]; [| exact (IH _ c1 evs0 p E0 Hin Hcl)].
      rewrite Hcl in Ec. discriminate.
    + discriminate.
Qed.

(** In a scan that runs to its end, a pair that was not cached at the start
    is tested, in the order it has in the list or in the other. *)
Lemma scan_tests_uncached (L : list refs) :
  forall c0 c1 evs p,
    scan lti heap L c0 = (Ok tt, c1, evs) ->
    In p L ->
    cached p c0 = false ->
    In p (tested_pairs evs) \/ In (swap p) (tested_pairs evs).
Proof.
  induction L as [| q L IH]; intros c0 c1 evs p Hscan Hin Hp; [destruct Hin |].
  cbn [scan] in Hscan.
  destruct (cached q c0) eqn:Eq.
  - destruct Hin as [-> | Hin]; [rewrite Hp in Eq; discriminate |].
    exact (IH c0 c1 evs p Hscan Hin Hp).
  - destruct (classify lti (heap (fst q)) (heap (snd q))) as [[|] | e] eqn:Ec.
    + destruct (scan lti heap L (c0 ++ [q])) as [[r c'] evs0] eqn:E0.
      inversion Hscan; subst r c' evs.
      rewrite tested_pairs_test_event. rewrite <- surjective_pairing.
      destruct Hin as [-> | Hin]; [left; left; reflexivity |].
      destruct (cached p (c0 ++ [q])) eqn:Ep.
      * apply cached_true in Ep. apply cached_false in Hp.
        rewrite !in_app_iff in Ep. cbn [In] in Ep.
        destruct Ep as [[H | [H | []]] | [H | [H | []]]];
          [tauto | left; left; exact H | tauto | right; left; exact H].
      * destruct (IH _ c1 evs0 p E0 Hin Ep) as [H | H];
          [left | right]; right; exact H.
    + destruct (scan lti heap L c0) as [[r c'] evs0] eqn:E0.
      inversion Hscan; subst r c' evs.
      rewrite tested_pairs_test_event. rewrite <- surjective_pairing.
      destruct Hin as [-> | Hin]; [left; left; reflexivity |].
      destruct (IH _ c1 evs0 p E0 Hin Hp) as [H | H];
        [left | right]; right; exact H.
    + discriminate.
Qed.

(** How a pass ends tells how its scan ended. *)
Lemma run_check_ok_scan (d : Detector) :
  fst (run_check lti heap d) = Ok tt ->
  exists c evs,
    scan lti heap (combinations (objects d)) (_pairs d) = (Ok tt, c, evs)
    /\ callable (callback d) = true
    /\ run_check lti heap d
       = (Ok tt, (set_pairs d c,
                  evs ++ [Called (callback d) (set_pairs d c) c])).
Proof.
  rewrite run_check_scan.
  destruct (scan lti heap (combinations (objects d)) (_pairs d))
    as [[[[] | e] c] evs]; [| discriminate].
  destruct (callable (callback d)); [| discriminate].
  intros _. exists c, evs. repeat split.
Qed.

(** A scan stops at the first classification that raises: it is the last
    event, and no earlier test raised. *)
Lemma scan_raises_last (L : list refs) :
  forall c,
    match fst (fst (scan lti heap L c)) with
    | Ok _ =>
        forall a b calls e,
          ~ In (Tested a b calls (Raise e)) (snd (scan lti heap L c))
    | Raise e =>
        exists evs a b calls,
          snd (scan lti heap L c) = evs ++ [Tested a b calls (Raise e)]
          /\ forall a' b' calls' e',
               ~ In (Tested a' b' calls' (Raise e')) evs
    end.
Proof.
  induction L as [| p L IH]; intros c; cbn [scan].
  - cbn [fst snd]. intros a b calls e [].
  - destruct (cached p c); [apply IH |].
    assert (Hev : forall v a b calls e,
              classify lti (heap (fst p)) (heap (snd p)) = Ok v ->
              test_event lti heap (fst p) (snd p)
              <> Tested a b calls (Raise e)).
    { intros v a b calls e Hv Heq. unfold test_event in Heq.
      unfold classify in Hv. inversion Heq. congruence. }
    destruct (classify lti (heap (fst p)) (heap (snd p))) as [v | e] eqn:E.
    + assert (Hstep : forall c',
        match fst (fst (let '(r, c0, evs) := scan lti heap L c' in
                        (r, c0, test_event lti heap (fst p) (snd p) :: evs)))
        with
        | Ok _ =>
            forall a b calls e,
              ~ In (Tested a b calls (Raise e))
                  (snd (let '(r, c0, evs) := scan lti heap L c' in
                        (r, c0, test_event lti heap (fst p) (snd p) :: evs)))
        | Raise e =>
            exists evs a b calls,
              snd (let '(r, c0, evs) := scan lti heap L c' in
                   (r, c0, test_event lti heap (fst p) (snd p) :: evs))
              = evs ++ [Tested a b calls (Raise e)]
              /\ forall a' b' calls' e',
                   ~ In (Tested a' b' calls' (Raise e')) evs
        end).
      { intros c'. specialize (IH c').
        destruct (scan lti heap L c') as [[r c0] evs]. cbn [fst snd] in *.
        destruct r as [u | e].
        - intros a b calls e [Heq | Hin];
            [exact (Hev v a b calls e eq_refl Heq) | exact (IH _ _ _ _ Hin)].
        - destruct IH as [evs' [a [b [calls [Heq Hno]]]]].
          exists (test_event lti heap (fst p) (snd p) :: evs'), a, b, calls.
          split; [rewrite Heq; reflexivity |].
          intros a' b' calls' e' [Heq' | Hin];
            [exact (Hev v a' b' calls' e' eq_refl Heq')
            | exact (Hno _ _ _ _ Hin)]. }
      destruct v; apply Hstep.
    + cbn [fst snd]. exists [], (fst p), (snd p).
      exists (fst (_test lti (heap (fst p)) (heap (snd p)))).
      split; [| intros a' b' calls' e' []].
      unfold test_event. unfold classify in E. rewrite E. reflexivity.
Qed.

End PassFacts.

Lemma tested_pairs_app_called (evs : list event) f d pairs :
  tested_pairs (evs ++ [Called f d pairs]) = tested_pairs evs.
Proof. unfold tested_pairs. rewrite flat_map_app. cbn. apply app_nil_r. Qed.

Lemma list_remove_absent (p : refs) (c : list refs) :
  pair_in p c = false -> list_remove p c = c.
Proof.
  induction c as [| q c IH]; [reflexivity |].
  unfold pair_in. cbn [existsb list_remove]. intros H.
  apply orb_false_iff in H. destruct H as [H1 H2].
  assert (E : pair_eqb q p = false).
  { apply not_true_iff_false. rewrite pair_eqb_eq. intros ->.
    rewrite pair_eqb_refl in H1. discriminate. }
  rewrite E. f_equal. apply IH. exact H2.
Qed.

(** The test before [remove] in [resolve] changes nothing: removing a pair
    that is not there leaves the list as it is. *)
Lemma list_remove_if_in (p : refs) (c : list refs) :
  (if pair_in p c then list_remove p c else c) = list_remove p c.
Proof.
  destruct (pair_in p c) eqn:E; [reflexivity |].
  symmetry. apply list_remove_absent. exact E.
Qed.

Lemma list_remove_comm (p q : refs) (c : list refs) :
  list_remove q (list_remove p c) = list_remove p (list_remove q c).
Proof.
  induction c as [| x c IH]; [reflexivity |]. cbn [list_remove].
  destruct (pair_eqb x p) eqn:Ep, (pair_eqb x q) eqn:Eq; cbn [list_remove];
    rewrite ?Ep, ?Eq.
  - apply pair_eqb_eq in Ep, Eq. subst. reflexivity.
  - reflexivity.
  - reflexivity.
  - f_equal. exact IH.
Qed.

(** X1. After a detection pass that returns, every combination of two
    roster objects that classifies as colliding is in the cache, in one
    order or the other: nothing that collides goes unreported. *)
Theorem pass_caches_every_collision
    (S : Scalar) (lti : point -> point -> point -> point -> point -> bool)
    (heap : oid -> Object) (d : Detector) (a b : oid) :
  fst (run_check lti heap d) = Ok tt ->
  In (a, b) (combinations (objects d)) ->
  classify lti (heap a) (heap b) = Ok true ->
  cached (a, b) (_pairs (fst (snd (run_check lti heap d)))) = true.
Proof.
  intros Hok Hin Hcl.
  destruct (run_check_ok_scan lti heap d Hok) as [c [evs [Hscan [_ ->]]]].
  cbn [fst snd _pairs set_pairs].
  exact (scan_complete lti heap _ _ _ _ (a, b) Hscan Hin Hcl).
Qed.

Lemma pass_caches_every_collision_witness :
  cached (0, 1)
    (_pairs (fst (snd (run_check never_hit three_balls three_tracked))))
  = true.
Proof.
  apply (pass_caches_every_collision binary64 never_hit three_balls
           three_tracked 0 1).
  - reflexivity.
  - left. reflexivity.
  - reflexivity.
Defined.

(** X2. The callback is called last or not at all. When the
    classification of some combination raises, the pass ends in that
    exception right after that test: the callback is not called, and the
    pairs appended before stay in the cache. When no classification raises
    and the callback is callable, the callback is called exactly once,
    after every test, with the detector and the whole list of pairs as the
    loops left them. *)
Theorem callback_called_last_or_never
    (S : Scalar) (lti : point -> point -> point -> point -> point -> bool)
    (heap : oid -> Object) (d : Detector) :
  let r := run_check lti heap d in
  let log := snd (snd r) in
  (forall a b calls e,
     In (Tested a b calls (Raise e)) log ->
     fst r = Raise e
     /\ (exists evs, log = evs ++ [Tested a b calls (Raise e)])
     /\ callback_calls log = []
     /\ exists added, _pairs (fst (snd r)) = _pairs d ++ added)
  /\ (callable (callback d) = true ->
      (forall a b calls e, ~ In (Tested a b calls (Raise e)) log) ->
      exists evs added,
        log = evs ++ [Called (callback d) (set_pairs d (_pairs d ++ added))
                        (_pairs d ++ added)]
        /\ callback_calls evs = []).
Proof.
  cbv zeta. rewrite run_check_scan.
  pose proof (scan_no_callback lti heap (combinations (objects d)) (_pairs d))
    as Hno.
  pose proof (scan_appends lti heap (combinations (objects d)) (_pairs d))
    as Happ.
  pose proof (scan_raises_last lti heap (combinations (objects d)) (_pairs d))
    as Hlast.
  destruct (scan lti heap (combinations (objects d)) (_pairs d))
    as [[r c] evs]. cbn [fst snd] in Hno, Happ, Hlast.
  destruct Happ as [added Hadd]. subst c.
  destruct r as [[] | e0].
  - destruct (callable (callback d)); cbn [fst snd]; split.
    + intros a b calls e Hin. apply in_app_or in Hin.
      destruct Hin as [Hin | [Heq | []]];
        [exfalso; exact (Hlast _ _ _ _ Hin) | discriminate Heq].
    + intros _ _. exists evs, added. split; [reflexivity | exact Hno].
    + intros a b calls e Hin. exfalso. exact (Hlast _ _ _ _ Hin).
    + intros H. discriminate H.
  - destruct Hlast as [evs' [a0 [b0 [calls0 [Heq Hnone]]]]].
    cbn [fst snd _pairs set_pairs]. split.
    + intros a b calls e Hin. rewrite Heq in Hin. apply in_app_or in Hin.
      destruct Hin as [Hin | [Hev | []]];
        [exfalso; exact (Hnone _ _ _ _ Hin) |].
      inversion Hev as [[Ea Eb Ec Ee]]. subst a b calls e. repeat split.
      * exists evs'. exact Heq.
      * exact Hno.
      * exists added. reflexivity.
    + intros _ Hall. exfalso. apply (Hall a0 b0 calls0 e0).
      rewrite Heq. apply in_or_app. right. left. reflexivity.
Qed.

Lemma callback_called_last_or_never_witness :
  (exists evs added,
     snd (snd (run_check never_hit three_balls three_tracked))
     = evs ++ [Called on_report (set_pairs three_tracked ([(2, 1)] ++ added))
                 ([(2, 1)] ++ added)]
     /\ callback_calls evs = [])
  /\ fst (run_check never_hit triangle_and_quad triangle_then_quad)
     = Raise IndexError
  /\ callback_calls
       (snd (snd (run_check never_hit triangle_and_quad triangle_then_quad)))
     = [].
Proof.
  split.
  - apply (proj2 (callback_called_last_or_never binary64 never_hit
                    three_balls three_tracked)); [reflexivity |].
    intros a b calls e. vm_compute.
    intros [H | [H | [H | []]]]; discriminate H.
  - pose proof (proj1 (callback_called_last_or_never binary64 never_hit
                         triangle_and_quad triangle_then_quad)
                  0 1 [BoundingSphere; SphereInSphere; MeshCollision]
                  IndexError) as P.
    destruct P as [P1 [_ [P3 _]]]; [| split; [exact P1 | exact P3]].
    vm_compute. left. reflexivity.
Defined.

(** X3. On a cache without repeats, [resolve] re-arms the pair: in the
    next pass that returns, a combination of the roster that was resolved
    is classified again, in one order or the other, and is back in the
    cache when it classifies as colliding. *)
Theorem resolve_rearms_detection
    (S : Scalar) (lti : point -> point -> point -> point -> point -> bool)
    (heap : oid -> Object) (d : Detector) (a b : oid) :
  at_most_once (_pairs d) = true ->
  In (a, b) (combinations (objects d)) ->
  let r := run_check lti heap (resolve a b d) in
  fst r = Ok tt ->
  (In (a, b) (tested_pairs (snd (snd r)))
   \/ In (b, a) (tested_pairs (snd (snd r))))
  /\ (classify lti (heap a) (heap b) = Ok true ->
      cached (a, b) (_pairs (fst (snd r))) = true).
Proof.
  intros Hc Hin r Hok. subst r.
  assert (Hobjs : objects (resolve a b d) = objects d) by reflexivity.
  assert (Hun : cached (a, b) (_pairs (resolve a b d)) = false).
  { rewrite (resolve_pairs a b d Hc). apply cached_filter_not_names. }
  split.
  - destruct (run_check_ok_scan lti heap _ Hok) as [c [evs [Hscan [_ E]]]].
    rewrite E. cbn [fst snd]. rewrite tested_pairs_app_called.
    rewrite Hobjs in Hscan.
    exact (scan_tests_uncached lti heap _ _ _ _ (a, b) Hscan Hin Hun).
  - intros Hcl.
    destruct (run_check_ok_scan lti heap _ Hok) as [c [evs [Hscan [_ E]]]].
    rewrite E. cbn [fst snd _pairs set_pairs]. rewrite Hobjs in Hscan.
    exact (scan_complete lti heap _ _ _ _ (a, b) Hscan Hin Hcl).
Qed.

Lemma resolve_rearms_detection_witness :
  (In (0, 1) (tested_pairs
                (snd (snd (run_check never_hit three_balls
                             (resolve 0 1 three_reported)))))
   \/ In (1, 0) (tested_pairs
                   (snd (snd (run_check never_hit three_balls
                                (resolve 0 1 three_reported))))))
  /\ cached (0, 1)
       (_pairs (fst (snd (run_check never_hit three_balls
                            (resolve 0 1 three_reported)))))
     = true.
Proof.
  destruct (resolve_rearms_detection binary64 never_hit three_balls
              three_reported 0 1 eq_refl (or_introl eq_refl) eq_refl)
    as [Htested Hcached].
  split; [exact Htested | apply Hcached; reflexivity].
Defined.

(** X4. [resolve] does not care in which order it is given the two
    objects. *)
Theorem resolve_order_independent (a b : oid) (d : Detector) :
  resolve a b d = resolve b a d.
Proof.
  unfold resolve. f_equal.
  rewrite !list_remove_if_in. apply list_remove_comm.
Qed.

(** X5. A callback that is not callable does not keep a pass from doing
    its work: when the classification of each combination returns, the
    pass classifies and caches as a pass with a callback would, and only
    then ends in [TypeError], with the pairs it found left in the cache. *)
Theorem pass_without_callback_still_caches
    (S : Scalar) (lti : point -> point -> point -> point -> point -> bool)
    (heap : oid -> Object) (colliding : oid -> oid -> bool) (d : Detector) :
  callable (callback d) = false ->
  (forall a b, In (a, b) (combinations (objects d)) ->
     classify lti (heap a) (heap b) = Ok (colliding a b)) ->
  let tested := fst (detection_pass_spec colliding (objects d) (_pairs d)) in
  let cache := snd (detection_pass_spec colliding (objects d) (_pairs d)) in
  run_check lti heap d
  = (Raise TypeError,
     (set_pairs d cache,
      map (fun p => test_event lti heap (fst p) (snd p)) tested)).
Proof.
  intros Hcb Hcl tested cache.
  assert (Hcl' : forall p, In p (combinations (objects d)) ->
            classify lti (heap (fst p)) (heap (snd p))
            = Ok (colliding (fst p) (snd p))).
  { intros [a b] Hp. apply Hcl. exact Hp. }
  destruct (scan_pass_step lti heap colliding (combinations (objects d)) Hcl'
              [] (_pairs d)) as [evs [E1 [E2 [_ E4]]]].
  fold (detection_pass_spec colliding (objects d) (_pairs d)) in E1, E2.
  rewrite run_check_scan, E1, Hcb. cbn [app] in E2.
  unfold tested, cache. rewrite E2. rewrite <- E4. reflexivity.
Qed.

Lemma pass_without_callback_still_caches_witness :
  run_check never_hit three_balls three_unreported
  = (Raise TypeError,
     (set_pairs three_unreported [(0, 1)],
      map (fun p => test_event never_hit three_balls (fst p) (snd p))
          [(0, 1); (0, 2); (1, 2)])).
Proof.
  apply (pass_without_callback_still_caches binary64 never_hit three_balls
           touching three_unreported eq_refl).
  intros a b [E | [E | [E | []]]]; inversion E; reflexivity.
Defined.

(** * Further properties of the narrow phase *)

Section NarrowPhaseFacts.
Context {S : Scalar}.
Variable lti : point -> point -> point -> point -> point -> bool.

Lemma mesh_collision_inner_spec (obj1 obj2 : Object) (p1 p2 p3 : point) :
  forall js tbs,
    triangles_from obj2 js = Ok tbs ->
    (forall j, In j js -> third_index_agrees obj1 obj2 j) ->
    _mesh_collision_inner lti obj1 obj2 p1 p2 p3 js
    = Ok (existsb (fun b => triangles_cross lti (p1, p2, p3) b) tbs).
Proof.
  induction js as [| j js IH]; intros tbs Htbs Hagree.
  - cbn in Htbs. inversion Htbs. reflexivity.
  - cbn [triangles_from] in Htbs. cbn [_mesh_collision_inner].
    rewrite (Hagree j (or_introl eq_refl)).
    unfold triangle_at in Htbs. unfold rbind in *.
    destruct (getitem (_indices obj2) (Z.of_nat j * 3)) as [i1 |];
      [| discriminate].
    destruct (getitem (_indices obj2) (Z.of_nat j * 3 + 1)) as [i2 |];
      [| discriminate].
    destruct (getitem (_indices obj2) (Z.of_nat j * 3 + 2)) as [i3 |];
      [| discriminate].
    destruct (vertex (_vertices obj2) i1) as [q1 |]; [| discriminate].
    destruct (vertex (_vertices obj2) i2) as [q2 |]; [| discriminate].
    destruct (vertex (_vertices obj2) i3) as [q3 |]; [| discriminate].
    destruct (triangles_from obj2 js) as [rest |] eqn:Erest; [| discriminate].
    inversion Htbs; subst tbs. cbn [existsb triangles_cross].
    destruct (six_tests lti p1 p2 p3 q1 q2 q3); [reflexivity |].
    cbn [orb]. apply IH; [reflexivity |].
    intros j' Hj'. apply Hagree. right. exact Hj'.
Qed.

Lemma mesh_collision_outer_spec (obj1 obj2 : Object) (tb : list (point * point * point)) :
  triangles obj2 = Ok tb ->
  (forall j, In j (triangle_range (_indices obj2)) ->
     third_index_agrees obj1 obj2 j) ->
  forall ks tas,
    triangles_from obj1 ks = Ok tas ->
    _mesh_collision_outer lti obj1 obj2 ks
    = Ok (existsb (fun a => existsb (fun b => triangles_cross lti a b) tb) tas).
Proof.
  intros Htb Hagree. induction ks as [| k ks IH]; intros tas Htas.
  - cbn in Htas. inversion Htas. reflexivity.
  - cbn [triangles_from] in Htas. cbn [_mesh_collision_outer].
    unfold triangle_at in Htas. unfold rbind in *.
    destruct (getitem (_indices obj1) (Z.of_nat k * 3)) as [i1 |];
      [| discriminate].
    destruct (getitem (_indices obj1) (Z.of_nat k * 3 + 1)) as [i2 |];
      [| discriminate].
    destruct (getitem (_indices obj1) (Z.of_nat k * 3 + 2)) as [i3 |];
      [| discriminate].
    destruct (vertex (_vertices obj1) i1) as [p1 |]; [| discriminate].
    destruct (vertex (_vertices obj1) i2) as [p2 |]; [| discriminate].
    destruct (vertex (_vertices obj1) i3) as [p3 |]; [| discriminate].
    destruct (triangles_from obj1 ks) as [rest |] eqn:Erest; [| discriminate].
    inversion Htas; subst tas. cbn [existsb].
    rewrite (mesh_collision_inner_spec obj1 obj2 p1 p2 p3 _ tb Htb Hagree).
    destruct (existsb (fun b => triangles_cross lti (p1, p2, p3) b) tb);
      [reflexivity |].
    cbn [orb]. apply IH. reflexivity.
Qed.

End NarrowPhaseFacts.

(** X6. When the buffers of both meshes can be read and the two index
    buffers hold the same third index for every triangle of the second
    mesh, as they do when the two meshes share their index buffer,
    [_mesh_collision] is the narrow phase of the specification: every
    triangle of the first against every triangle of the second, and the
    order of the two meshes does not matter. *)
Theorem mesh_collision_with_agreeing_indices
    (S : Scalar) (lti : point -> point -> point -> point -> point -> bool)
    (obj1 obj2 : Object) (ta tb : list (point * point * point)) :
  triangles obj1 = Ok ta ->
  triangles obj2 = Ok tb ->
  (forall j, In j (triangle_range (_indices obj2)) ->
     third_index_agrees obj1 obj2 j) ->
  _mesh_collision lti obj1 obj2
  = Ok (existsb (fun a => existsb (fun b => triangles_cross lti a b) tb) ta)
  /\ _mesh_collision lti obj1 obj2 = narrow_phase_spec lti obj1 obj2
  /\ (_indices obj1 = _indices obj2 ->
      _mesh_collision lti obj2 obj1 = _mesh_collision lti obj1 obj2).
Proof.
  intros Hta Htb Hagree.
  assert (H12 : _mesh_collision lti obj1 obj2
                = Ok (existsb (fun a => existsb (fun b => triangles_cross lti a b) tb) ta)).
  { unfold _mesh_collision.
    exact (mesh_collision_outer_spec lti obj1 obj2 tb Htb Hagree _ ta Hta). }
  split; [exact H12 | split].
  - rewrite H12. unfold narrow_phase_spec, rbind. rewrite Hta, Htb. reflexivity.
  - intros Hsame. rewrite H12. unfold _mesh_collision.
    rewrite (mesh_collision_outer_spec lti obj2 obj1 ta Hta
               (fun j _ => eq_sym (f_equal (fun l => getitem l _) Hsame))
               _ tb Htb).
    f_equal. rewrite existsb_swap. apply existsb_pointwise.
    intros a. apply existsb_pointwise. intros b. apply triangles_cross_sym.
Qed.

Lemma mesh_collision_with_agreeing_indices_witness :
  _mesh_collision never_hit triangle_mesh lifted_triangle_mesh
  = narrow_phase_spec never_hit triangle_mesh lifted_triangle_mesh.
Proof.
  assert (H : forall j, In j (triangle_range (_indices lifted_triangle_mesh)) ->
              third_index_agrees triangle_mesh lifted_triangle_mesh j).
  { intros j _. reflexivity. }
  exact (proj1 (proj2 (mesh_collision_with_agreeing_indices binary64 never_hit
                         triangle_mesh lifted_triangle_mesh
                         [((0, 0, 0), (1, 0, 0), (0, 1, 0))%float]
                         [((0, 0, 1), (1, 0, 1), (0, 1, 1))%float]
                         eq_refl eq_refl H))).
Defined.

(** X7. A mesh with fewer than three indices has no triangle: as first
    object it makes [_mesh_collision] answer false without reading anything
    of the second object, and as second object it makes it answer false as
    soon as the triangles of the first can be read. *)
Theorem mesh_collision_without_triangles
    (S : Scalar) (lti : point -> point -> point -> point -> point -> bool)
    (obj1 obj2 : Object) :
  (List.length (_indices obj1) < 3 -> _mesh_collision lti obj1 obj2 = Ok false)
  /\ (List.length (_indices obj2) < 3 ->
      forall ta, triangles obj1 = Ok ta ->
      _mesh_collision lti obj1 obj2 = Ok false).
Proof.
  split.
  - intros H. unfold _mesh_collision, triangle_range.
    rewrite Nat.div_small by exact H. reflexivity.
  - intros H ta Hta.
    assert (Htb : triangles obj2 = Ok []).
    { unfold triangles, triangle_range. rewrite Nat.div_small by exact H.
      reflexivity. }
    assert (Hagree : forall j, In j (triangle_range (_indices obj2)) ->
              third_index_agrees obj1 obj2 j).
    { unfold triangle_range. rewrite Nat.div_small by exact H. intros j []. }
    unfold _mesh_collision.
    rewrite (mesh_collision_outer_spec lti obj1 obj2 [] Htb Hagree _ ta Hta).
    f_equal. clear Hta. induction ta as [| a ta IH]; [reflexivity | exact IH].
Qed.

Lemma mesh_collision_without_triangles_witness :
  _mesh_collision never_hit (with_mesh triangle_mesh [0; 1]%Z []) (broken_mesh 0)
  = Ok false
  /\ _mesh_collision never_hit triangle_mesh (with_mesh quad_mesh [] [])
     = Ok false.
Proof.
  split.
  - apply (proj1 (mesh_collision_without_triangles binary64 never_hit
                    (with_mesh triangle_mesh [0; 1]%Z []) (broken_mesh 0))).
    cbn. lia.
  - apply (proj2 (mesh_collision_without_triangles binary64 never_hit
                    triangle_mesh (with_mesh quad_mesh [] []))
             (Nat.lt_0_succ 2)
             [((0, 0, 0), (1, 0, 0), (0, 1, 0))%float]).
    reflexivity.
Defined.

(** * Properties of the MD2 loader *)

Import MD2 MD2Spec.

(** ** Blocks *)

Lemma chunks_loop_slices (data : list Byte.byte) (size : nat) :
  0 < size ->
  forall k fuel offset,
    List.length data = offset + size * k ->
    k <= fuel ->
    chunks_loop fuel data size offset
    = Some (map (fun i => firstn size (skipn (offset + size * i) data))
                (seq 0 k)).
Proof.
  intros Hsize. induction k as [| k IH]; intros fuel offset Hlen Hfuel.
  - assert (E : (offset <? List.length data) = false).
    { apply Nat.ltb_ge. lia. }
    destruct fuel; cbn [chunks_loop]; rewrite E; reflexivity.
  - destruct fuel as [| fuel]; [lia |]. cbn [chunks_loop].
    assert (E : (offset <? List.length data) = true).
    { apply Nat.ltb_lt. nia. }
    rewrite E, (IH fuel (offset + size)) by lia.
    cbn [seq map]. rewrite <- seq_shift, map_map.
    do 2 f_equal.
    + replace (offset + size - offset) with size by lia.
      rewrite Nat.mul_0_r, Nat.add_0_r. reflexivity.
    + apply map_ext. intros i. do 2 f_equal. lia.
Qed.

Lemma chunks_loop_some (data : list Byte.byte) (size : nat) :
  0 < size ->
  forall fuel offset,
    List.length data - offset <= fuel ->
    exists cs,
      chunks_loop fuel data size offset = Some cs
      /\ List.concat cs = skipn offset data.
Proof.
  intros Hsize. induction fuel as [| fuel IH]; intros offset Hfuel.
  - assert (E : (offset <? List.length data) = false).
    { apply Nat.ltb_ge. lia. }
    cbn [chunks_loop]. rewrite E. exists []. split; [reflexivity |].
    rewrite skipn_all2 by lia. reflexivity.
  - cbn [chunks_loop]. destruct (offset <? List.length data) eqn:E.
    + destruct (IH (offset + size)) as [cs [Hcs Hcat]]; [lia |].
      rewrite Hcs. eexists. split; [reflexivity |].
      cbn [List.concat]. rewrite Hcat.
      replace (offset + size - offset) with size by lia.
      rewrite <- (firstn_skipn size (skipn offset data)) at 2.
      rewrite skipn_skipn. do 2 f_equal. lia.
    + apply Nat.ltb_ge in E. exists []. split; [reflexivity |].
      rewrite skipn_all2 by lia. reflexivity.
Qed.

Lemma slice_of_read (content : list Byte.byte) (pos size count i : nat) :
  i < count ->
  firstn size (skipn (0 + size * i)
                 (firstn (size * count) (skipn pos content)))
  = firstn size (skipn (pos + size * i) content).
Proof.
  intros Hi. rewrite skipn_firstn_comm, firstn_firstn, skipn_skipn.
  replace (Nat.min size (size * count - (0 + size * i))) with size by nia.
  do 2 f_equal. lia.
Qed.

Lemma read_block_short (T : Type) (b : stream) (fmt : format T) (count : nat) :
  0 < calcsize fmt ->
  List.length (content b) - position b < calcsize fmt * count ->
  read_block b fmt count
  = Some (Raises (ValueError (calcsize fmt * count)),
          {| content := content b;
             position := position b + (List.length (content b) - position b) |}).
Proof.
  intros Hsize Hshort. unfold read_block, read.
  rewrite length_firstn, length_skipn.
  replace (Nat.min (calcsize fmt * count) (List.length (content b) - position b))
    with (List.length (content b) - position b) by lia.
  assert (E : (List.length (content b) - position b <? calcsize fmt * count)
              = true).
  { apply Nat.ltb_lt. exact Hshort. }
  rewrite E. reflexivity.
Qed.

Lemma read_block_long (T : Type) (b : stream) (fmt : format T) (count : nat) :
  0 < calcsize fmt ->
  calcsize fmt * count <= List.length (content b) - position b ->
  read_block b fmt count
  = Some (unpack_all fmt
            (records_at (content b) (position b) (calcsize fmt) count),
          {| content := content b;
             position := position b + calcsize fmt * count |}).
Proof.
  intros Hsize Hlong. unfold read_block, read.
  rewrite length_firstn, length_skipn.
  replace (Nat.min (calcsize fmt * count) (List.length (content b) - position b))
    with (calcsize fmt * count) by lia.
  rewrite Nat.ltb_irrefl. unfold chunks.
  rewrite (chunks_loop_slices _ (calcsize fmt) Hsize count).
  - do 3 f_equal. unfold records_at. apply map_ext_in.
    intros i Hi. apply in_seq in Hi. apply slice_of_read. lia.
  - rewrite length_firstn, length_skipn. lia.
  - rewrite length_firstn, length_skipn. nia.
Qed.

(** X8. [read_block] always returns or raises. When fewer bytes are left
    than [count] records take, it raises [ValueError] with the file at its
    end and unpacks nothing; otherwise it unpacks exactly the [count]
    consecutive records of [calcsize] bytes that start at the position, in
    order, and leaves the file right after them. A format of size zero
    gives no record at all, whatever the count. *)
Theorem read_block_whole_records
    (T : Type) (b : stream) (fmt : format T) (count : nat) :
  let size := calcsize fmt in
  let left := List.length (content b) - position b in
  (0 < size -> left < size * count ->
   read_block b fmt count
   = Some (Raises (ValueError (size * count)),
           {| content := content b; position := position b + left |}))
  /\ (0 < size -> size * count <= left ->
      read_block b fmt count
      = Some (unpack_all fmt (records_at (content b) (position b) size count),
              {| content := content b;
                 position := position b + size * count |}))
  /\ (size = 0 ->
      read_block b fmt count
      = Some (Returns [],
              {| content := content b; position := position b + 0 |})).
Proof.
  cbv zeta. split; [| split].
  - apply read_block_short.
  - apply read_block_long.
  - intros Hzero. unfold read_block, read. rewrite Hzero.
    cbn [Nat.mul firstn List.length Nat.ltb Nat.leb]. reflexivity.
Qed.

Lemma read_block_whole_records_witness :
  read_block five_bytes u16_format 2
  = Some (Returns [1%Z; 2%Z],
          {| content := content five_bytes; position := 4 |})
  /\ read_block five_bytes u16_format 3
     = Some (Raises (ValueError 6),
             {| content := content five_bytes; position := 5 |}).
Proof.
  destruct (read_block_whole_records Z five_bytes u16_format 2) as [_ [H2 _]].
  destruct (read_block_whole_records Z five_bytes u16_format 3) as [H3 _].
  split.
  - apply H2; cbn; lia.
  - apply H3; cbn; lia.
Defined.

(** ** The header *)

Lemma byte_of_Z_value (z : Z) :
  Z.of_N (Byte.to_N (byte_of_Z z)) = (z mod 256)%Z.
Proof.
  unfold byte_of_Z.
  assert (Hr : (0 <= z mod 256 < 256)%Z) by (apply Z.mod_pos_bound; lia).
  destruct (Byte.of_N (Z.to_N (z mod 256))) as [b |] eqn:E.
  - apply Byte.to_of_N in E. rewrite E. apply Z2N.id. lia.
  - apply Byte.of_N_None_iff in E. lia.
Qed.

Lemma le_int32_le_bytes4 (z : Z) : int32 z -> le_int32 (le_bytes4 z) = z.
Proof.
  unfold int32, le_int32, le_bytes4. intros Hz. cbn [le_unsigned].
  rewrite !byte_of_Z_value.
  assert (E : (z mod 256
               + 256 * ((z / 256) mod 256
                        + 256 * ((z / 256 / 256) mod 256
                                 + 256 * ((z / 256 / 256 / 256) mod 256
                                          + 256 * 0)))
               = z mod 2 ^ 32)%Z).
  { rewrite Z.mul_0_r, Z.add_0_r.
    change (2 ^ 32)%Z with (256 * (256 * (256 * 256)))%Z.
    rewrite (Z.rem_mul_r z 256 (256 * (256 * 256))) by lia.
    rewrite (Z.rem_mul_r (z / 256) 256 (256 * 256)) by lia.
    rewrite (Z.rem_mul_r (z / 256 / 256) 256 256) by lia.
    reflexivity. }
  rewrite E.
  destruct (z mod 2 ^ 32 <? 2 ^ 31)%Z eqn:Elt.
  - apply Z.ltb_lt in Elt.
    destruct (Z_lt_le_dec z 0) as [Hneg | Hpos].
    + rewrite <- (Z.mod_add z 1 (2 ^ 32)) in Elt by lia.
      rewrite Z.mod_small in Elt by lia. lia.
    + apply Z.mod_small. lia.
  - apply Z.ltb_ge in Elt.
    destruct (Z_lt_le_dec z 0) as [Hneg | Hpos].
    + rewrite <- (Z.mod_add z 1 (2 ^ 32)) by lia.
      rewrite Z.mod_small by lia. lia.
    + rewrite Z.mod_small in Elt by lia. lia.
Qed.

Lemma unpack_pack_header (h : MD2Header) :
  well_sized h -> unpack header_format (pack_header h) = Returns h.
Proof.
  destruct h as [id v sw sh fs ns nv nst nt ng nf o1 o2 o3 o4 o5 o6].
  unfold well_sized. cbn [ident version skin_width skin_height frame_size
    num_skins num_vertices num_st num_tris num_glcmds num_frames offset_skins
    offset_st offset_tris offset_frames offset_glcmds offset_end].
  intros [Hid H].
  destruct id as [| i0 [| i1 [| i2 [| i3 [| i4 id]]]]]; try discriminate Hid.
  decompose [and] H. clear H.
  unfold pack_header, header_format, header_field.
  cbn [ident version skin_width skin_height frame_size
    num_skins num_vertices num_st num_tris num_glcmds num_frames offset_skins
    offset_st offset_tris offset_frames offset_glcmds offset_end unpack].
  unfold le_bytes4.
  cbn [app List.length Nat.eqb firstn skipn Nat.add Nat.mul].
  repeat match goal with
         | |- context [le_int32 [byte_of_Z ?z; _; _; _]] =>
             change (le_int32 [byte_of_Z z; byte_of_Z (z / 256);
                               byte_of_Z (z / 256 / 256);
                               byte_of_Z (z / 256 / 256 / 256)])
               with (le_int32 (le_bytes4 z));
             rewrite (le_int32_le_bytes4 z) by assumption
         end.
  reflexivity.
Qed.

Lemma pack_header_length (h : MD2Header) :
  List.length (ident h) = 4 -> List.length (pack_header h) = 68.
Proof.
  intros H. unfold pack_header. rewrite !length_app, H. reflexivity.
Qed.

Lemma decode_signature (bs : list Byte.byte) :
  decode_ascii bs = Returns _SIGNATURE <-> bs = signature_bytes.
Proof.
  split.
  - unfold decode_ascii. destruct (forallb _ bs); [| discriminate].
    intros H. inversion H as [E]. clear H.
    apply (f_equal list_ascii_of_string) in E.
    rewrite list_ascii_of_string_of_list_ascii in E.
    destruct bs as [| b0 [| b1 [| b2 [| b3 [| b4 bs]]]]]; try discriminate E.
    cbn [map] in E. inversion E as [[E0 E1 E2 E3]].
    apply (f_equal byte_of_ascii) in E0, E1, E2, E3.
    rewrite byte_of_ascii_of_byte in E0, E1, E2, E3.
    subst. reflexivity.
  - intros ->. reflexivity.
Qed.

Lemma verdict_accepts (h : MD2Header) :
  verdict h = Returns tt <-> ident h = signature_bytes /\ version h = 8%Z.
Proof.
  unfold verdict. split.
  - destruct (decode_ascii (ident h)) as [name | e] eqn:E; [| discriminate].
    destruct (String.eqb name _SIGNATURE) eqn:En; cbn [negb]; [| discriminate].
    destruct (Z.eqb (version h) _VERSION) eqn:Ev; cbn [negb]; [| discriminate].
    intros _. apply String.eqb_eq in En. apply Z.eqb_eq in Ev. subst name.
    split; [apply decode_signature; exact E | exact Ev].
  - intros [Hid Hv]. rewrite Hid, Hv. reflexivity.
Qed.

Lemma read_header_long (h0 : MD2Header) (f : stream) :
  68 <= List.length (content f) - position f ->
  exists h,
    unpack header_format (firstn 68 (skipn (position f) (content f)))
    = Returns h
    /\ read_header h0 f
       = Some (verdict h, h,
               {| content := content f; position := position f + 68 |}).
Proof.
  intros Hlong. unfold read_header.
  rewrite (@read_block_long _ f header_format 1)
    by (cbn [calcsize header_format]; lia).
  change (calcsize header_format) with 68. unfold records_at.
  cbn [seq map unpack_all]. rewrite Nat.mul_0_r, Nat.add_0_r, Nat.mul_1_r.
  set (chunk := firstn 68 (skipn (position f) (content f))).
  assert (Hlen : List.length chunk = 68).
  { unfold chunk. rewrite length_firstn, length_skipn. lia. }
  unfold header_format at 1 2. cbn [unpack]. rewrite Hlen. cbn [Nat.eqb].
  eexists. split; [reflexivity |].
  unfold verdict.
  match goal with
  | |- context [decode_ascii ?i] => destruct (decode_ascii i) as [name | e]
  end; [| reflexivity].
  destruct (negb (String.eqb name _SIGNATURE)); [reflexivity |].
  match goal with
  | |- context [negb ?b] => destruct (negb b)
  end; reflexivity.
Qed.

Lemma unpack_header_fields (chunk : list Byte.byte) (h : MD2Header) :
  unpack header_format chunk = Returns h ->
  ident h = firstn 4 chunk /\ version h = header_field chunk 0.
Proof.
  unfold header_format. cbn [unpack].
  destruct (Nat.eqb (List.length chunk) 68); [| discriminate].
  intros H. injection H as <-. split; reflexivity.
Qed.

Lemma chunk_of_packed (pre rest : list Byte.byte) (h : MD2Header) :
  List.length (ident h) = 4 ->
  firstn 68 (skipn (List.length pre) (pre ++ pack_header h ++ rest))
  = pack_header h.
Proof.
  intros Hid. rewrite skipn_app, skipn_all, Nat.sub_diag. cbn [skipn app].
  rewrite <- (pack_header_length h Hid). rewrite firstn_app, Nat.sub_diag.
  rewrite firstn_all. cbn [firstn]. apply app_nil_r.
Qed.

(** X9. Reading back a written header. Wherever the 68 bytes of a header
    whose fields fit in 32 bits stand in a file, [read_header] at that place
    sets the object's header to exactly that header and leaves the file
    right after it; the call returns normally exactly when the identifier
    is IDP2 and the version is 8, and raises otherwise. *)
Theorem read_header_round_trip
    (h0 h : MD2Header) (pre rest : list Byte.byte) :
  well_sized h ->
  let file := pre ++ pack_header h ++ rest in
  exists r,
    read_header h0 {| content := file; position := List.length pre |}
    = Some (r, h, {| content := file; position := List.length pre + 68 |})
    /\ (r = Returns tt <-> ident h = signature_bytes /\ version h = 8%Z).
Proof.
  intros Hh file.
  assert (Hid : List.length (ident h) = 4) by exact (proj1 Hh).
  destruct (@read_header_long h0
              {| content := file; position := List.length pre |})
    as [h' [Hu Hr]].
  - cbn [content position]. unfold file.
    rewrite !length_app, (pack_header_length h Hid). lia.
  - cbn [content position] in Hu, Hr. unfold file in Hu.
    rewrite (chunk_of_packed pre rest h Hid), (unpack_pack_header h Hh) in Hu.
    inversion Hu. subst h'.
    exists (verdict h). split; [exact Hr | apply verdict_accepts].
Qed.

Lemma read_header_round_trip_witness :
  well_sized sample_header
  /\ exists r,
       read_header empty_header
         {| content := [Byte.xff] ++ pack_header sample_header ++ [Byte.x00];
            position := 1 |}
       = Some (r, sample_header,
               {| content :=
                    [Byte.xff] ++ pack_header sample_header ++ [Byte.x00];
                  position := 1 + 68 |})
       /\ (r = Returns tt
           <-> ident sample_header = signature_bytes
               /\ version sample_header = 8%Z).
Proof.
  assert (H : well_sized sample_header).
  { unfold well_sized, int32. cbn. lia. }
  split; [exact H |].
  exact (@read_header_round_trip empty_header sample_header [Byte.xff]
           [Byte.x00] H).
Defined.

(** X10. [read_header] always ends. With fewer than 68 bytes left it raises
    [ValueError], the header of the object is untouched and the file is at
    its end. With 68 bytes or more it consumes exactly 68, and the object's
    header is replaced by what those bytes hold even when the file is then
    rejected: the identifier becomes the first four bytes. The file is
    accepted exactly when those four bytes are IDP2 and the following four
    are the little-endian integer 8. *)
Theorem read_header_accepts_signature_and_version
    (h0 : MD2Header) (f : stream) :
  let left := List.length (content f) - position f in
  (left < 68 ->
   read_header h0 f
   = Some (Raises (ValueError 68), h0,
           {| content := content f; position := position f + left |}))
  /\ (68 <= left ->
      exists r h,
        read_header h0 f
        = Some (r, h, {| content := content f; position := position f + 68 |})
        /\ ident h = firstn 4 (skipn (position f) (content f))
        /\ (r = Returns tt
            <-> firstn 4 (skipn (position f) (content f)) = signature_bytes
                /\ le_int32 (firstn 4 (skipn (position f + 4) (content f)))
                   = 8%Z)).
Proof.
  cbv zeta. split.
  - intros Hshort. unfold read_header.
    rewrite (@read_block_short _ f header_format 1)
      by (change (calcsize header_format) with 68; lia).
    reflexivity.
  - intros Hlong. destruct (read_header_long h0 f Hlong) as [h [Hu Hr]].
    exists (verdict h), h. split; [exact Hr |].
    destruct (unpack_header_fields _ h Hu) as [Ei Ev].
    rewrite firstn_firstn in Ei. cbn [Nat.min] in Ei.
    unfold header_field in Ev. cbn [Nat.mul Nat.add] in Ev.
    rewrite skipn_firstn_comm, firstn_firstn, skipn_skipn in Ev.
    rewrite (Nat.add_comm 4) in Ev. cbn [Nat.sub Nat.min] in Ev.
    split; [exact Ei |].
    rewrite verdict_accepts, Ei, Ev. tauto.
Qed.

Lemma read_header_accepts_signature_and_version_witness :
  read_header sample_header {| content := signature_bytes; position := 1 |}
  = Some (Raises (ValueError 68), sample_header,
          {| content := signature_bytes; position := 1 + (4 - 1) |}).
Proof.
  apply (proj1 (read_header_accepts_signature_and_version sample_header
                  {| content := signature_bytes; position := 1 |})).
  cbn. lia.
Defined.

(** ** Animations *)

(** X11. [animate] starts an animation exactly when the name is known and
    both frames lie within its range; it does not ask that [from_frame] be
    at most [to_frame]. On success the active frame is [from_frame] and
    nothing is logged. Otherwise exactly one error is logged, the running
    animation is stopped (the name becomes empty) and every other field
    keeps its value. In both cases the frame rate and the time of the last
    frame are left as they were. *)
Theorem animate_starts_or_stops
    (m : Model) (animation_name : string) (from_frame to_frame : Z)
    (loop : bool) :
  let m' := fst (animate m animation_name from_frame to_frame loop) in
  let log := snd (animate m animation_name from_frame to_frame loop) in
  (in_range (animations m) animation_name from_frame to_frame ->
   log = []
   /\ animation m' = animation_name /\ _active_frame m' = from_frame
   /\ _from_frame m' = from_frame /\ _to_frame m' = to_frame
   /\ _loop m' = loop)
  /\ (~ in_range (animations m) animation_name from_frame to_frame ->
      (exists msg, log = [LogError msg]) /\ m' = set_animation m "")
  /\ _frame_rate m' = _frame_rate m /\ _time m' = _time m
  /\ animations m' = animations m /\ children m' = children m.
Proof.
  cbv zeta. unfold animate, in_range. cbn [animations set_animation].
  destruct (lookup animation_name (animations m)) as [[first last] |] eqn:E.
  - cbn [fst snd].
    destruct (from_frame <? first)%Z eqn:E1;
      [| destruct (last <? from_frame)%Z eqn:E2;
         [| destruct (to_frame <? first)%Z eqn:E3;
            [| destruct (last <? to_frame)%Z eqn:E4]]];
      cbn [orb fst snd animation _active_frame _from_frame _to_frame _loop
           _frame_rate _time animations children set_animation];
      try apply Z.ltb_lt in E1; try apply Z.ltb_lt in E2;
      try apply Z.ltb_lt in E3; try apply Z.ltb_lt in E4;
      try apply Z.ltb_ge in E1; try apply Z.ltb_ge in E2;
      try apply Z.ltb_ge in E3; try apply Z.ltb_ge in E4.
    1-4: split;
      [ intros [f [l [Hl [H1 H2]]]]; inversion Hl; subst; lia
      | split; [intros _; split; [eexists; reflexivity | reflexivity]
               | repeat split ] ].
    split; [intros _; repeat split |].
    split; [| repeat split].
    intros Hn. exfalso. apply Hn. exists first, last.
    split; [reflexivity | lia].
  - cbn [fst snd _frame_rate _time animations children set_animation].
    split; [intros [f [l [Hl _]]]; discriminate Hl |].
    split; [| repeat split].
    intros _. split; [eexists; reflexivity | reflexivity].
Qed.

Lemma animate_starts_or_stops_witness :
  in_range (animations runner) "run" 2 1
  /\ snd (animate runner "run" 2 1 true) = []
  /\ _active_frame (fst (animate runner "run" 2 1 true)) = 2%Z.
Proof.
  assert (H : in_range (animations runner) "run" 2 1).
  { exists 0%Z, 2%Z. cbn. split; [reflexivity | lia]. }
  split; [exact H |].
  pose proof (proj1 (animate_starts_or_stops runner "run" 2 1 true) H) as P.
  split; [exact (proj1 P) | exact (proj1 (proj2 (proj2 P)))].
Defined.

(** ** Compiling the frames *)

Lemma lookup_set_item_same (k : string) (v : Z * Z) (d : ranges) :
  lookup k (set_item k v d) = Some v.
Proof.
  induction d as [| [k' v'] d IH]; cbn [set_item lookup].
  - rewrite String.eqb_refl. reflexivity.
  - destruct (String.eqb k' k) eqn:E; cbn [lookup]; rewrite E;
      [reflexivity | exact IH].
Qed.

Lemma lookup_set_item_other (k k' : string) (v : Z * Z) (d : ranges) :
  k <> k' -> lookup k' (set_item k v d) = lookup k' d.
Proof.
  intros Hne. induction d as [| [k0 v0] d IH]; cbn [set_item lookup].
  - destruct (String.eqb k k') eqn:E; [| reflexivity].
    apply String.eqb_eq in E. contradiction.
  - destruct (String.eqb k0 k) eqn:E; cbn [lookup].
    + apply String.eqb_eq in E. subst k0.
      destruct (String.eqb k k') eqn:E'; [| reflexivity].
      apply String.eqb_eq in E'. contradiction.
    + rewrite IH. reflexivity.
Qed.

Lemma occurrences_snoc (n f : string) (seen : list string) :
  occurrences n (seen ++ [f])
  = occurrences n seen + (if String.eqb (strip_digits f) n then 1 else 0).
Proof.
  unfold occurrences. rewrite filter_app, length_app. cbn [filter].
  destruct (String.eqb (strip_digits f) n); reflexivity.
Qed.

Lemma compile_step_counts (anims : ranges) (seen : list string) (f : string) :
  counts anims seen ->
  snd (compile_step anims f)
  = (strip_digits f ++ str (Z.of_nat (occurrences (strip_digits f) seen)))%string
  /\ counts (fst (compile_step anims f)) (seen ++ [f]).
Proof.
  intros Hc. unfold compile_step. cbv zeta. unfold has_key.
  set (n := strip_digits f).
  pose proof (Hc n) as Hn.
  assert (Hfinal :
    exists anims',
      (match
         lookup n (if match lookup n anims with Some _ => true | None => false end
                   then anims else set_item n (0, -1)%Z anims)
       with
       | Some (first, last) =>
           set_item n (first, (last + 1)%Z)
             (if match lookup n anims with Some _ => true | None => false end
              then anims else set_item n (0, -1)%Z anims)
       | None =>
           if match lookup n anims with Some _ => true | None => false end
           then anims else set_item n (0, -1)%Z anims
       end) = anims'
      /\ lookup n anims' = Some (0, Z.of_nat (occurrences n seen))%Z
      /\ forall k, k <> n -> lookup k anims' = lookup k anims).
  { destruct (Nat.eqb (occurrences n seen) 0) eqn:E0.
    - rewrite Hn. rewrite lookup_set_item_same.
      eexists. split; [reflexivity |]. apply Nat.eqb_eq in E0. rewrite E0.
      split.
      + apply lookup_set_item_same.
      + intros k Hk. rewrite !lookup_set_item_other by congruence.
        reflexivity.
    - rewrite Hn. rewrite Hn.
      eexists. split; [reflexivity |]. split.
      + rewrite lookup_set_item_same. do 2 f_equal. lia.
      + intros k Hk. rewrite lookup_set_item_other by congruence.
        reflexivity. }
  destruct Hfinal as [anims' [Ea [Hsame Hother]]]. rewrite Ea.
  cbn [fst snd]. rewrite Hsame. split; [reflexivity |].
  intros k. rewrite occurrences_snoc. fold n.
  destruct (String.eqb n k) eqn:Ek.
  - apply String.eqb_eq in Ek. subst k. rewrite Hsame.
    replace (Nat.eqb (occurrences n seen + 1) 0) with false
      by (symmetry; apply Nat.eqb_neq; lia).
    do 2 f_equal. lia.
  - apply String.eqb_neq in Ek. rewrite Hother by congruence.
    rewrite Nat.add_0_r. apply Hc.
Qed.

Section CompileFacts.
Variable Frame : Type.
Variable name : Frame -> string.
Variable build_frame : Frame -> string -> option error.

Lemma compile_loop_spec (frames : list Frame) :
  forall anims seen,
    counts anims seen ->
    exists k,
      k <= List.length frames
      /\ map fst (snd (compile_loop name build_frame anims frames))
         = firstn k frames
      /\ map snd (snd (compile_loop name build_frame anims frames))
         = firstn k (frame_names seen (map name frames))
      /\ match fst (fst (compile_loop name build_frame anims frames)) with
         | Returns _ =>
             k = List.length frames
             /\ counts (snd (fst (compile_loop name build_frame anims frames)))
                  (seen ++ map name frames)
         | Raises e =>
             counts (snd (fst (compile_loop name build_frame anims frames)))
               (seen ++ firstn (S k) (map name frames))
             /\ exists frame frame_name,
                  nth_error frames k = Some frame
                  /\ nth_error (frame_names seen (map name frames)) k
                     = Some frame_name
                  /\ build_frame frame frame_name = Some e
         end.
Proof.
  induction frames as [| frame frames IH]; intros anims seen Hc.
  - exists 0. cbn. rewrite app_nil_r. auto.
  - cbn [compile_loop].
    destruct (compile_step_counts anims seen (name frame) Hc) as [Hn Hc'].
    destruct (compile_step anims (name frame)) as [anims' frame_name].
    cbn [fst snd] in Hn, Hc'. subst frame_name.
    set (frame_name :=
           (strip_digits (name frame)
            ++ str (Z.of_nat (occurrences (strip_digits (name frame)) seen)))%string).
    destruct (build_frame frame frame_name) as [e |] eqn:Eb.
    + exists 0. cbn [fst snd map firstn List.length frame_names nth_error].
      repeat split; [lia | exact Hc' |].
      exists frame, frame_name. repeat split. exact Eb.
    + destruct (IH anims' (seen ++ [name frame]) Hc')
        as [k [Hk [Hf [Hs Hr]]]].
      destruct (compile_loop name build_frame anims' frames)
        as [[r anims''] built].
      cbn [fst snd] in Hf, Hs, Hr. exists (S k).
      cbn [fst snd map firstn List.length frame_names nth_error].
      fold frame_name. rewrite Hf, Hs.
      repeat split; [lia |].
      destruct r as [[] | e].
      * destruct Hr as [Hk' Hc'']. split; [lia |].
        rewrite <- app_assoc in Hc''. exact Hc''.
      * destruct Hr as [Hc'' Hex]. split; [| exact Hex].
        rewrite <- app_assoc in Hc''. exact Hc''.
Qed.

End CompileFacts.

Lemma compile_from_empty
    (Frame : Type) (name : Frame -> string)
    (build_frame : Frame -> string -> option error) (frames : list Frame) :
  exists k,
    k <= List.length frames
    /\ map fst (snd (compile name build_frame frames)) = firstn k frames
    /\ map snd (snd (compile name build_frame frames))
       = firstn k (frame_names [] (map name frames))
    /\ match fst (fst (compile name build_frame frames)) with
       | Returns _ =>
           k = List.length frames
           /\ counts (snd (fst (compile name build_frame frames)))
                (map name frames)
       | Raises e =>
           counts (snd (fst (compile name build_frame frames)))
             (firstn (S k) (map name frames))
           /\ exists frame frame_name,
                nth_error frames k = Some frame
                /\ nth_error (frame_names [] (map name frames)) k
                   = Some frame_name
                /\ build_frame frame frame_name = Some e
       end.
Proof.
  unfold compile.
  apply (compile_loop_spec Frame name build_frame frames [] []).
  intros n. reflexivity.
Qed.

(** X12. [compile] numbers the frames of each animation from 0 in the order
    of the file: a frame is built under its name without digits followed by
    the number of earlier frames of that name. When every frame builds,
    [compile] returns and the dictionary holds, for each such name, the
    range from 0 to the number of its frames less one, and nothing else.
    When building a frame raises, [compile] raises that error, the later
    frames are not built, and the dictionary already counts the frame that
    failed. *)
Theorem compile_numbers_frames
    (Frame : Type) (name : Frame -> string)
    (build_frame : Frame -> string -> option error) (frames : list Frame) :
  exists k,
    k <= List.length frames
    /\ map fst (snd (compile name build_frame frames)) = firstn k frames
    /\ map snd (snd (compile name build_frame frames))
       = firstn k (frame_names [] (map name frames))
    /\ match fst (fst (compile name build_frame frames)) with
       | Returns _ =>
           k = List.length frames
           /\ counts (snd (fst (compile name build_frame frames)))
                (map name frames)
       | Raises e =>
           counts (snd (fst (compile name build_frame frames)))
             (firstn (S k) (map name frames))
           /\ exists frame frame_name,
                nth_error frames k = Some frame
                /\ nth_error (frame_names [] (map name frames)) k
                   = Some frame_name
                /\ build_frame frame frame_name = Some e
       end.
Proof.
  apply compile_from_empty.
Qed.

Lemma every_string_of_list (p : ascii -> bool) (l : list ascii) :
  every p (string_of_list_ascii l) = forallb p l.
Proof.
  induction l as [| c l IH]; cbn; [reflexivity | rewrite IH; reflexivity].
Qed.

Lemma strip_digits_no_digit (s : string) :
  every (fun c => negb (isdigit c)) (strip_digits s) = true.
Proof.
  unfold strip_digits. rewrite every_string_of_list.
  apply forallb_forall. intros c Hc. apply filter_In in Hc. apply Hc.
Qed.

Lemma string_of_uint_digits (d : Decimal.uint) :
  every isdigit (NilEmpty.string_of_uint d) = true.
Proof.
  induction d; cbn [NilEmpty.string_of_uint every];
    try rewrite IHd; reflexivity.
Qed.

Lemma str_digits (k : nat) : every isdigit (str (Z.of_nat k)) = true.
Proof.
  unfold str. destruct (Z.of_nat k) as [| p | p] eqn:E; [reflexivity | | lia].
  cbn [Z.to_int NilZero.string_of_int]. unfold NilZero.string_of_uint.
  destruct (Pos.to_uint p); try reflexivity; apply string_of_uint_digits.
Qed.

Lemma str_inj (a b : Z) : str a = str b -> a = b.
Proof.
  unfold str. intros H. apply DecimalZ.to_int_inj.
  assert (Hnz : forall z, Z.to_int z <> Decimal.Pos Decimal.Nil
                          /\ Z.to_int z <> Decimal.Neg Decimal.Nil).
  { intros [| p | p]; cbn [Z.to_int]; split; try discriminate;
      intros Hp; inversion Hp as [Hq];
      exact (DecimalPos.Unsigned.to_uint_nonnil p Hq). }
  apply (f_equal NilZero.int_of_string) in H.
  rewrite !NilZero.isi in H by apply Hnz.
  inversion H. reflexivity.
Qed.

Lemma split_at_digits (a b d e : string) :
  every (fun c => negb (isdigit c)) a = true ->
  every (fun c => negb (isdigit c)) b = true ->
  every isdigit d = true -> every isdigit e = true ->
  (a ++ d)%string = (b ++ e)%string -> a = b /\ d = e.
Proof.
  revert b. induction a as [| c a IH]; intros b Ha Hb Hd He Heq.
  - destruct b as [| c' b]; [split; [reflexivity | exact Heq] |].
    cbn [append] in Heq. subst d. cbn [every] in Hb, Hd.
    apply andb_prop in Hb, Hd. destruct Hb as [Hb _], Hd as [Hd _].
    rewrite Hd in Hb. discriminate Hb.
  - destruct b as [| c' b].
    + cbn [append] in Heq. subst e. cbn [every] in Ha, He.
      apply andb_prop in Ha, He. destruct Ha as [Ha _], He as [He _].
      rewrite He in Ha. discriminate Ha.
    + cbn [append] in Heq. inversion Heq as [[Hc Hrest]]. subst c'.
      cbn [every] in Ha, Hb. apply andb_prop in Ha, Hb.
      destruct (IH b (proj2 Ha) (proj2 Hb) Hd He Hrest) as [-> ->].
      split; reflexivity.
Qed.

Lemma frame_name_inj (f g : string) (i j : nat) :
  (strip_digits f ++ str (Z.of_nat i))%string
  = (strip_digits g ++ str (Z.of_nat j))%string ->
  strip_digits f = strip_digits g /\ i = j.
Proof.
  intros H.
  destruct (split_at_digits _ _ _ _ (strip_digits_no_digit f)
              (strip_digits_no_digit g) (str_digits i) (str_digits j) H)
    as [Hs Hn].
  split; [exact Hs |]. apply str_inj in Hn. lia.
Qed.

Lemma occurrences_le_snoc (n f : string) (seen : list string) :
  occurrences n seen <= occurrences n (seen ++ [f]).
Proof. rewrite occurrences_snoc. lia. Qed.

Lemma frame_names_numbers (names : list string) :
  forall seen x,
    In x (frame_names seen names) ->
    exists g k,
      x = (strip_digits g ++ str (Z.of_nat k))%string
      /\ occurrences (strip_digits g) seen <= k.
Proof.
  induction names as [| f names IH]; intros seen x Hx; [destruct Hx |].
  cbn [frame_names] in Hx. destruct Hx as [Hx | Hx].
  - exists f, (occurrences (strip_digits f) seen). split; [auto | lia].
  - destruct (IH _ _ Hx) as [g [k [Hg Hk]]]. exists g, k.
    split; [exact Hg |].
    pose proof (occurrences_le_snoc (strip_digits g) f seen). lia.
Qed.

Lemma frame_names_NoDup (names : list string) :
  forall seen, NoDup (frame_names seen names).
Proof.
  induction names as [| f names IH]; intros seen; cbn [frame_names];
    constructor; [| apply IH].
  intros Hin. destruct (frame_names_numbers _ _ _ Hin) as [g [k [Hg Hk]]].
  apply frame_name_inj in Hg. destruct Hg as [Hs Hn].
  rewrite <- Hs, occurrences_snoc, String.eqb_refl in Hk. lia.
Qed.

Lemma NoDup_firstn (A : Type) (k : nat) (l : list A) :
  NoDup l -> NoDup (firstn k l).
Proof.
  intros H. rewrite <- (firstn_skipn k l) in H.
  exact (NoDup_app_remove_r _ _ H).
Qed.

(** X13. No two frames are built under the same name, whatever the frames
    are called and whether or not [compile] gets to its end: a child is
    never built twice, so no frame of the file replaces another. *)
Theorem compile_names_are_distinct
    (Frame : Type) (name : Frame -> string)
    (build_frame : Frame -> string -> option error) (frames : list Frame) :
  NoDup (map snd (snd (compile name build_frame frames))).
Proof.
  unfold compile.
  destruct (compile_loop_spec Frame name build_frame frames [] [])
    as [k [_ [_ [Hs _]]]]; [intros n; reflexivity |].
  rewrite Hs. apply NoDup_firstn, frame_names_NoDup.
Qed.

Lemma frame_names_complete (n : string) (names : list string) :
  forall seen k,
    occurrences n seen <= k < occurrences n (seen ++ names) ->
    (exists f, strip_digits f = n) ->
    In (n ++ str (Z.of_nat k))%string (frame_names seen names).
Proof.
  induction names as [| f names IH]; intros seen k Hk Hn.
  - rewrite app_nil_r in Hk. lia.
  - cbn [frame_names].
    change (seen ++ f :: names) with (seen ++ [f] ++ names) in Hk.
    rewrite app_assoc in Hk.
    pose proof (occurrences_snoc n f seen) as Hs.
    destruct (String.eqb (strip_digits f) n) eqn:E.
    + apply String.eqb_eq in E.
      destruct (Nat.eq_dec k (occurrences n seen)) as [-> | Hne].
      * left. rewrite E. reflexivity.
      * right. apply IH; [lia | exact Hn].
    + right. apply IH; [lia | exact Hn].
Qed.

Lemma frame_names_length (names : list string) :
  forall seen, List.length (frame_names seen names) = List.length names.
Proof.
  induction names as [| f names IH]; intros seen; cbn [frame_names List.length];
    [reflexivity | rewrite IH; reflexivity].
Qed.

Lemma occurrences_positive (n : string) (names : list string) :
  0 < occurrences n names -> exists f, strip_digits f = n.
Proof.
  unfold occurrences. intros H.
  destruct (filter (fun f => String.eqb (strip_digits f) n) names)
    as [| f l] eqn:E; [cbn in H; lia |].
  assert (Hf : In f (filter (fun f => String.eqb (strip_digits f) n) names)).
  { rewrite E. left. reflexivity. }
  apply filter_In in Hf. exists f. apply String.eqb_eq. apply Hf.
Qed.

Lemma compiled_ranges
    (Frame : Type) (name : Frame -> string)
    (build_frame : Frame -> string -> option error) (frames : list Frame)
    (animation_name : string) (from_frame to_frame : Z) :
  fst (fst (compile name build_frame frames)) = Returns tt ->
  let anims := snd (fst (compile name build_frame frames)) in
  let built := map snd (snd (compile name build_frame frames)) in
  let total := Z.of_nat (occurrences animation_name (map name frames)) in
  (in_range anims animation_name from_frame to_frame
   <-> (0 <= from_frame < total)%Z /\ (0 <= to_frame < total)%Z)
  /\ forall k, (0 <= k < total)%Z ->
               In (animation_name ++ str k)%string built.
Proof.
  intros Hr anims built total.
  destruct (compile_from_empty Frame name build_frame frames)
    as [k [_ [_ [Hs Hm]]]].
  fold built in Hs. rewrite Hr in Hm. destruct Hm as [Hk Hc].
  fold anims in Hc.
  rewrite firstn_all2 in Hs
    by (rewrite frame_names_length, length_map; lia).
  split.
  - unfold in_range. rewrite (Hc animation_name). fold total.
    destruct (Nat.eqb (occurrences animation_name (map name frames)) 0)
      eqn:E0.
    + apply Nat.eqb_eq in E0. split.
      * intros [f [l [Hl _]]]. discriminate Hl.
      * unfold total. rewrite E0. cbn. lia.
    + split.
      * intros [f [l [Hl H]]]. inversion Hl. subst f l. lia.
      * intros H. eexists _, _. split; [reflexivity | lia].
  - intros i Hi. rewrite Hs.
    replace i with (Z.of_nat (Z.to_nat i)) by lia.
    apply frame_names_complete.
    + cbn [app]. unfold occurrences at 1. cbn [filter List.length].
      unfold total in Hi. lia.
    + apply (occurrences_positive animation_name (map name frames)).
      unfold total in Hi. lia.
Qed.

Lemma animate_accepts (m : Model) (animation_name : string)
    (from_frame to_frame : Z) (loop : bool) :
  (snd (animate m animation_name from_frame to_frame loop) = []
   <-> in_range (animations m) animation_name from_frame to_frame)
  /\ (snd (animate m animation_name from_frame to_frame loop) = [] ->
      animation (fst (animate m animation_name from_frame to_frame loop))
      = animation_name
      /\ _active_frame
           (fst (animate m animation_name from_frame to_frame loop))
         = from_frame).
Proof.
  unfold animate, in_range. cbn [animations set_animation].
  destruct (lookup animation_name (animations m)) as [[first last] |].
  - cbn [fst snd].
    destruct (from_frame <? first)%Z eqn:E1;
      [| destruct (last <? from_frame)%Z eqn:E2;
         [| destruct (to_frame <? first)%Z eqn:E3;
            [| destruct (last <? to_frame)%Z eqn:E4]]];
      cbn [orb fst snd animation _active_frame];
      try apply Z.ltb_lt in E1; try apply Z.ltb_lt in E2;
      try apply Z.ltb_lt in E3; try apply Z.ltb_lt in E4;
      try apply Z.ltb_ge in E1; try apply Z.ltb_ge in E2;
      try apply Z.ltb_ge in E3; try apply Z.ltb_ge in E4.
    1-4: split; [split; [intros H; discriminate H |]
                | intros H; discriminate H];
      intros [f [l [Hl [H1 H2]]]]; inversion Hl; subst; lia.
    split; [| intros _; split; reflexivity].
    split; [| reflexivity].
    intros _. exists first, last. split; [reflexivity | lia].
  - cbn [fst snd].
    split; [split; [intros H; discriminate H |] | intros H; discriminate H].
    intros [f [l [Hl _]]]. discriminate Hl.
Qed.

(** X14. After [compile] has returned, [animate] on the object that holds
    the compiled dictionary accepts an animation (it logs no error) exactly
    when both frames asked for are numbers of frames with that digit-free
    name, counted from 0. It then sets the animation to that name and the
    active frame to [from_frame], and the child that [render] will look
    up first, like the child of every other frame number of that
    animation, has been built. *)
Theorem compile_then_animate
    (Frame : Type) (name : Frame -> string)
    (build_frame : Frame -> string -> option error) (frames : list Frame)
    (m : Model) (animation_name : string) (from_frame to_frame : Z)
    (loop : bool) :
  fst (fst (compile name build_frame frames)) = Returns tt ->
  animations m = snd (fst (compile name build_frame frames)) ->
  let built := map snd (snd (compile name build_frame frames)) in
  let total := Z.of_nat (occurrences animation_name (map name frames)) in
  let m' := fst (animate m animation_name from_frame to_frame loop) in
  let log := snd (animate m animation_name from_frame to_frame loop) in
  (log = [] <-> (0 <= from_frame < total)%Z /\ (0 <= to_frame < total)%Z)
  /\ (log = [] ->
      animation m' = animation_name /\ _active_frame m' = from_frame
      /\ In (animation m' ++ str (_active_frame m'))%string built)
  /\ forall k, (0 <= k < total)%Z ->
               In (animation_name ++ str k)%string built.
Proof.
  intros Hr Ha built total m' log.
  destruct (compiled_ranges Frame name build_frame frames animation_name
              from_frame to_frame Hr) as [Hrange Hbuilt].
  fold built total in Hrange, Hbuilt. rewrite <- Ha in Hrange.
  destruct (animate_accepts m animation_name from_frame to_frame loop)
    as [Hlog Hset].
  fold log in Hlog, Hset. fold m' in Hset.
  split; [rewrite Hlog; exact Hrange |].
  split; [| exact Hbuilt].
  intros Hempty. destruct (Hset Hempty) as [E1 E2].
  split; [exact E1 |]. split; [exact E2 |].
  rewrite E1, E2. apply Hbuilt.
  apply Hlog in Hempty. apply Hrange in Hempty. lia.
Qed.

Lemma compile_then_animate_witness :
  snd (animate
         (loaded (snd (fst (compile (fun f => f) builds three_frames)))
            (map snd (snd (compile (fun f => f) builds three_frames))))
         "stand" 1 0 true) = []
  /\ In ("stand" ++ str 1)%string
       (map snd (snd (compile (fun f => f) builds three_frames))).
Proof.
  pose proof (compile_then_animate string (fun f => f) builds three_frames
                (loaded (snd (fst (compile (fun f => f) builds three_frames)))
                   (map snd (snd (compile (fun f => f) builds three_frames))))
                "stand" 1 0 true eq_refl eq_refl) as P.
  cbv zeta in P. destruct P as [P1 [_ P3]]. split.
  - apply P1. split; [split; [discriminate | reflexivity] |].
    split; [discriminate | reflexivity].
  - apply P3. split; [discriminate | reflexivity].
Defined.

(** ** Rendering *)

Lemma existsb_eqb_In (key : string) (l : list string) :
  existsb (String.eqb key) l = true <-> In key l.
Proof.
  rewrite existsb_exists. split.
  - intros [x [Hx E]]. apply String.eqb_eq in E. subst x. exact Hx.
  - intros H. exists key. split; [exact H | apply String.eqb_refl].
Qed.

Lemma render_child_found (m : Model) (key : string) :
  In key (children m) -> render_child m key = (Returns tt, [ChildRender key]).
Proof.
  intros H. unfold render_child.
  rewrite (proj2 (existsb_eqb_In key (children m)) H). reflexivity.
Qed.

Lemma render_child_missing (m : Model) (key : string) :
  ~ In key (children m) -> render_child m key = (Raises (LookupError key), []).
Proof.
  intros H. unfold render_child.
  destruct (existsb (String.eqb key) (children m)) eqn:E; [| reflexivity].
  apply existsb_eqb_In in E. contradiction.
Qed.

Ltac render_cases :=
  cbn [animation animations children _visible _from_frame _to_frame
       _loop _frame_rate _active_frame];
  match goal with
  | |- context [render_child ?mm ?k] =>
      let Erc := fresh "Erc" in
      destruct (render_child mm k) as [? ?] eqn:Erc;
      cbn [fst snd]; eexists; (split; [reflexivity |]);
      cbn [animation animations children _visible _from_frame _to_frame
           _loop _frame_rate _active_frame];
      rewrite Erc; cbn [fst snd];
      repeat match goal with
             | |- _ /\ _ => split
             end;
      try reflexivity; try assumption; try congruence;
      first [left; lia | right; left; lia | right; right; lia]
  end.

Section RenderFacts.
Variable reciprocal : Z -> float.

Lemma render_animated (m : Model) (needs_build : bool)
    (now0 now1 now2 : float) :
  _visible m = true ->
  animation m <> ""%string \/ children m = [] ->
  (PrimFloat.eqb (_frame_rate m) 0 = true /\ _to_frame m = _from_frame m
   /\ fst (fst (render reciprocal m needs_build now0 now1 now2))
      = Raises ZeroDivisionError
   /\ snd (render reciprocal m needs_build now0 now1 now2)
      = (if needs_build then [Build] else [])
   /\ _active_frame
        (snd (fst (render reciprocal m needs_build now0 now1 now2)))
      = _active_frame m
   /\ _from_frame
        (snd (fst (render reciprocal m needs_build now0 now1 now2)))
      = _from_frame m
   /\ _to_frame
        (snd (fst (render reciprocal m needs_build now0 now1 now2)))
      = _to_frame m)
  \/ ((PrimFloat.eqb (_frame_rate m) 0 = false
       \/ _to_frame m <> _from_frame m)
      /\ exists m',
           snd (fst (render reciprocal m needs_build now0 now1 now2)) = m'
           /\ animation m' = animation m /\ animations m' = animations m
           /\ children m' = children m /\ _visible m' = true
           /\ _from_frame m' = _from_frame m /\ _to_frame m' = _to_frame m
           /\ _loop m' = _loop m
           /\ (PrimFloat.eqb (_frame_rate m) 0 = false ->
               _frame_rate m' = _frame_rate m)
           /\ (_active_frame m' = _active_frame m
               \/ (_active_frame m' = _active_frame m + 1
                   /\ _active_frame m' <= _to_frame m)
               \/ (_active_frame m' = _from_frame m
                   /\ _to_frame m <= _active_frame m))%Z
           /\ (fst (fst (render reciprocal m needs_build now0 now1 now2)),
               snd (render reciprocal m needs_build now0 now1 now2))
              = (fst (render_child m'
                        (animation m ++ str (_active_frame m'))%string),
                 (if needs_build then [Build] else [])
                 ++ [UpdateMatrix; Track]
                 ++ snd (render_child m'
                           (animation m ++ str (_active_frame m'))%string))).
Proof.
  intros Hv Ha. unfold render. rewrite Hv. cbn [negb].
  assert (Hpath :
    (if String.eqb (animation m) "" then children m else []) = []).
  { destruct (String.eqb (animation m) "") eqn:E; [| reflexivity].
    apply String.eqb_eq in E. destruct Ha as [Ha | Ha];
      [contradiction | exact Ha]. }
  rewrite Hpath. cbv zeta.
  destruct (PrimFloat.eqb (_frame_rate m) 0) eqn:Er;
    [destruct (Z.eqb (_to_frame m - _from_frame m) 0) eqn:Ez |];
    cbn [andb].
  - left. apply Z.eqb_eq in Ez. repeat split. lia.
  - right. apply Z.eqb_neq in Ez. split; [right; lia |].
    destruct (PrimFloat.leb (reciprocal (_to_frame m - _from_frame m))
                (PrimFloat.sub now1
                   (if PrimFloat.eqb (_time m) 0 then now0 else _time m)));
      [destruct (_to_frame m <? _active_frame m + 1)%Z eqn:El;
       [destruct (_loop m) eqn:Eloop |] |];
      try apply Z.ltb_lt in El; try apply Z.ltb_ge in El;
      render_cases.
  - right. split; [left; reflexivity |].
    destruct (PrimFloat.leb (_frame_rate m)
                (PrimFloat.sub now1
                   (if PrimFloat.eqb (_time m) 0 then now0 else _time m)));
      [destruct (_to_frame m <? _active_frame m + 1)%Z eqn:El;
       [destruct (_loop m) eqn:Eloop |] |];
      try apply Z.ltb_lt in El; try apply Z.ltb_ge in El;
      render_cases.
Qed.

End RenderFacts.

Section RenderOutcomes.
Variable reciprocal : Z -> float.

Lemma render_idle (m : Model) (needs_build : bool) (now0 now1 now2 : float) :
  _visible m = false
  \/ (animation m = ""%string /\ children m <> []) ->
  snd (fst (render reciprocal m needs_build now0 now1 now2)) = m
  /\ fst (fst (render reciprocal m needs_build now0 now1 now2)) = Returns tt
  /\ snd (render reciprocal m needs_build now0 now1 now2)
     = (if _visible m
        then (if needs_build then [Build] else [])
             ++ match children m with
                | child :: _ => [ChildRender child]
                | [] => []
                end
        else []).
Proof.
  unfold render. destruct (_visible m); cbn [negb].
  - intros [H | [Ha Hc]]; [discriminate H |]. rewrite Ha. cbn [String.eqb].
    destruct (children m) as [| child rest] eqn:Ec; [contradiction |].
    rewrite render_child_found by (rewrite Ec; left; reflexivity).
    repeat split.
  - intros _. repeat split.
Qed.

Lemma render_path (m : Model) :
  (_visible m = false \/ (animation m = ""%string /\ children m <> []))
  \/ (_visible m = true /\ (animation m <> ""%string \/ children m = [])).
Proof.
  destruct (_visible m); [| left; left; reflexivity].
  destruct (string_dec (animation m) "") as [E | E];
    [| right; split; [reflexivity | left; exact E]].
  destruct (children m) as [| c l];
    [right; split; [reflexivity | right; reflexivity] |].
  left. right. split; [exact E | discriminate].
Qed.

(** X15. Whatever the clock says, [render] keeps the active frame between
    [_from_frame] and the larger of [_from_frame] and [_to_frame] once it is
    there, and changes neither of the two: in one call the active frame
    stays, goes one frame forward without passing [_to_frame], or goes back
    to [_from_frame]. *)
Theorem render_keeps_frame_on_track
    (m : Model) (needs_build : bool) (now0 now1 now2 : float) :
  on_track m ->
  let m' := snd (fst (render reciprocal m needs_build now0 now1 now2)) in
  on_track m'
  /\ _from_frame m' = _from_frame m /\ _to_frame m' = _to_frame m
  /\ (_active_frame m' = _active_frame m
      \/ (_active_frame m' = _active_frame m + 1
          /\ _active_frame m' <= _to_frame m)
      \/ _active_frame m' = _from_frame m)%Z.
Proof.
  intros Ht m'. unfold on_track in *.
  destruct (render_path m) as [Hidle | [Hv Ha]].
  - destruct (render_idle m needs_build now0 now1 now2 Hidle) as [E _].
    fold m' in E. rewrite E. repeat split; lia.
  - destruct (render_animated reciprocal m needs_build now0 now1 now2 Hv Ha)
      as [[_ [_ [_ [_ [E1 [E2 E3]]]]]] | [_ [m1 [E H]]]].
    + fold m' in E1, E2, E3. rewrite E1, E2, E3. repeat split; lia.
    + fold m' in E. subst m1.
      destruct H as [_ [_ [_ [_ [E2 [E3 [_ [_ [Hstep _]]]]]]]]].
      rewrite E2, E3. repeat split; lia.
Qed.

(** X16. [render] fails in two ways only. It raises [ZeroDivisionError]
    exactly when the object is visible, an animation is set or there is no
    child at all, the frame rate is still 0 and [_to_frame] equals
    [_from_frame]; this is the case of an object that loaded no file, and
    of an animation of one frame. Then no child is rendered. It raises a
    key error exactly for the name it looks up, the animation followed by
    the active frame, when no child has that name. *)
Theorem render_failures
    (m : Model) (needs_build : bool) (now0 now1 now2 : float) :
  let r := fst (fst (render reciprocal m needs_build now0 now1 now2)) in
  let m' := snd (fst (render reciprocal m needs_build now0 now1 now2)) in
  let log := snd (render reciprocal m needs_build now0 now1 now2) in
  (r = Raises ZeroDivisionError
   <-> _visible m = true
       /\ (animation m <> ""%string \/ children m = [])
       /\ PrimFloat.eqb (_frame_rate m) 0 = true
       /\ _to_frame m = _from_frame m)
  /\ (r = Raises ZeroDivisionError ->
      log = if needs_build then [Build] else [])
  /\ (forall key,
        r = Raises (LookupError key)
        <-> r <> Raises ZeroDivisionError
            /\ _visible m = true
            /\ (animation m <> ""%string \/ children m = [])
            /\ key = (animation m ++ str (_active_frame m'))%string
            /\ ~ In key (children m))
  /\ (forall e, r = Raises e ->
                e = ZeroDivisionError \/ exists key, e = LookupError key).
Proof.
  cbv zeta.
  destruct (render_path m) as [Hidle | [Hv Ha]].
  - destruct (render_idle m needs_build now0 now1 now2 Hidle) as [_ [Er _]].
    rewrite Er.
    assert (Hno : ~ (_visible m = true
                     /\ (animation m <> ""%string \/ children m = []))).
    { intros [Hv Ha]. destruct Hidle as [H | [H1 H2]];
        [congruence | destruct Ha; contradiction]. }
    split; [split; [discriminate | intros [H1 [H2 _]]; exfalso; auto] |].
    split; [discriminate |].
    split; [| discriminate].
    intros key. split; [discriminate |].
    intros [_ [H1 [H2 _]]]. exfalso. auto.
  - destruct (render_animated reciprocal m needs_build now0 now1 now2 Hv Ha)
      as [[Er [Ez [E [El _]]]] | [Hnz [m1 [Em H]]]].
    + rewrite E. split; [split; auto |]. split; [auto |].
      split; [| intros e He; left; congruence].
      intros key. split; [discriminate |]. intros [Hne _]. congruence.
    + destruct H as [_ [_ [Ec [_ [_ [_ [_ [_ [_ Eo]]]]]]]]].
      apply (f_equal fst) in Eo. cbn [fst] in Eo. rewrite Em, Eo.
      assert (Hcase :
        (In (animation m ++ str (_active_frame m1))%string (children m)
         /\ fst (render_child m1
                   (animation m ++ str (_active_frame m1))%string)
            = Returns tt)
        \/ (~ In (animation m ++ str (_active_frame m1))%string (children m)
            /\ fst (render_child m1
                      (animation m ++ str (_active_frame m1))%string)
               = Raises (LookupError
                           (animation m ++ str (_active_frame m1))%string))).
      { rewrite <- Ec.
        destruct (in_dec string_dec
                    (animation m ++ str (_active_frame m1))%string
                    (children m1)) as [Hin | Hin].
        - left. split; [exact Hin |].
          rewrite render_child_found by exact Hin. reflexivity.
        - right. split; [exact Hin |].
          rewrite render_child_missing by exact Hin. reflexivity. }
      destruct Hcase as [[Hin Ek] | [Hin Ek]]; rewrite Ek.
      * split; [split; [discriminate |] |].
        { intros [_ [_ [H1 H2]]]. destruct Hnz; [congruence | contradiction]. }
        split; [discriminate |]. split; [| discriminate].
        intros key. split; [discriminate |].
        intros [_ [_ [_ [-> Hn]]]]. contradiction.
      * split; [split; [discriminate |] |].
        { intros [_ [_ [H1 H2]]]. destruct Hnz; [congruence | contradiction]. }
        split; [discriminate |]. split.
        { intros key. split.
          - intros Hk. inversion Hk. subst key.
            repeat split; auto. discriminate.
          - intros [_ [_ [_ [-> _]]]]. reflexivity. }
        intros e He. inversion He. right. eexists. reflexivity.
Qed.

End RenderOutcomes.

Lemma render_keeps_frame_on_track_witness :
  on_track (fst (animate runner "run" 0 2 true))
  /\ on_track
       (snd (fst (render (fun _ => 0.5%float)
                    (fst (animate runner "run" 0 2 true)) true 5 6 7)))
  /\ _active_frame (fst (animate runner "run" 0 2 true)) = 0%Z
  /\ _active_frame
       (snd (fst (render (fun _ => 0.5%float)
                    (fst (animate runner "run" 0 2 true)) true 5 6 7)))
     = 1%Z.
Proof.
  assert (H : on_track (fst (animate runner "run" 0 2 true)))
    by (unfold on_track; cbn; lia).
  split; [exact H |].
  split; [| split; reflexivity].
  exact (proj1 (render_keeps_frame_on_track (fun _ => 0.5%float)
                  (fst (animate runner "run" 0 2 true)) true 5 6 7 H)).
Defined.


(** ** Playing an animation *)

Lemma rendered_app (l1 l2 : list event) :
  rendered (l1 ++ l2) = rendered l1 ++ rendered l2.
Proof.
  induction l1 as [| e l1 IH]; [reflexivity |].
  destruct e; cbn [app rendered]; rewrite IH; reflexivity.
Qed.

Section PlayFacts.
Variable reciprocal : Z -> float.

Lemma play_on_track (animation_name : string) (from_frame to_frame : Z)
    (names : list string) (ticks : list (bool * (float * float * float))) :
  animation_name <> ""%string ->
  from_frame <> to_frame ->
  (forall k, (from_frame <= k <= Z.max from_frame to_frame)%Z ->
             In (animation_name ++ str k)%string names) ->
  forall m,
    _visible m = true -> animation m = animation_name ->
    children m = names ->
    _from_frame m = from_frame -> _to_frame m = to_frame -> on_track m ->
    fst (fst (play reciprocal m ticks)) = Returns tt
    /\ List.length (rendered (snd (play reciprocal m ticks))) = List.length ticks
    /\ Forall (fun key =>
                 exists k, (from_frame <= k <= Z.max from_frame to_frame)%Z
                           /\ key = (animation_name ++ str k)%string)
         (rendered (snd (play reciprocal m ticks))).
Proof.
  intros Hname Hne Hbuilt.
  induction ticks as [| [needs_build [[now0 now1] now2]] ticks IH];
    intros m Hv Ha Hc Hf Ht Htrack.
  - cbn. auto.
  - cbn [play].
    destruct (render_animated reciprocal m needs_build now0 now1 now2 Hv)
      as [[_ [Ez _]] | [_ [m1 [Em H]]]];
      [left; congruence | congruence |].
    destruct H as [Ha1 [_ [Hc1 [Hv1 [Hf1 [Ht1 [_ [_ [Hstep Eo]]]]]]]]].
    assert (Htrack1 : on_track m1).
    { unfold on_track in *. rewrite Hf1, Ht1. lia. }
    assert (Hin : In (animation m ++ str (_active_frame m1))%string
                    (children m1)).
    { rewrite Hc1, Hc, Ha. apply Hbuilt. unfold on_track in Htrack1.
      rewrite Hf1, Ht1, Hf, Ht in Htrack1. exact Htrack1. }
    rewrite (render_child_found m1 _ Hin) in Eo. cbn [fst snd] in Eo.
    destruct (render reciprocal m needs_build now0 now1 now2)
      as [[r m'] log].
    cbn [fst snd] in Em, Eo. inversion Eo. subst r log m'. clear Eo.
    destruct (IH m1 Hv1) as [Hr [Hlen Hall]]; try congruence.
    destruct (play reciprocal m1 ticks) as [[r' m''] log']. cbn [fst snd] in *.
    split; [exact Hr |].
    rewrite !rendered_app. cbn [rendered app].
    assert (Eb : rendered (if needs_build then [Build] else []) = [])
      by (destruct needs_build; reflexivity).
    rewrite Eb. cbn [app List.length]. split; [congruence |].
    constructor; [| exact Hall].
    exists (_active_frame m1). unfold on_track in Htrack1.
    split; [congruence | congruence].
Qed.

(** X17. Playing never misses a frame. Let [animate] be called with a
    non-empty name and two different frames on a visible object that has a
    child for every frame number from [from_frame] up to the larger of the
    two frames. Then however often [render] is called afterwards and
    whatever the clock reads, no call raises, every call renders exactly
    one child, and that child is a frame of the animation with a number in
    that span. *)
Theorem playing_never_misses_a_frame
    (m : Model) (animation_name : string) (from_frame to_frame : Z)
    (loop : bool) (ticks : list (bool * (float * float * float))) :
  _visible m = true ->
  animation_name <> ""%string ->
  from_frame <> to_frame ->
  in_range (animations m) animation_name from_frame to_frame ->
  (forall k, (from_frame <= k <= Z.max from_frame to_frame)%Z ->
             In (animation_name ++ str k)%string (children m)) ->
  let m' := fst (animate m animation_name from_frame to_frame loop) in
  fst (fst (play reciprocal m' ticks)) = Returns tt
  /\ List.length (rendered (snd (play reciprocal m' ticks))) = List.length ticks
  /\ Forall (fun key =>
               exists k, (from_frame <= k <= Z.max from_frame to_frame)%Z
                         /\ key = (animation_name ++ str k)%string)
       (rendered (snd (play reciprocal m' ticks))).
Proof.
  intros Hv Hname Hne [first [last [Hl [H1 H2]]]] Hbuilt m'.
  assert (Em : m' = {| animation := animation_name;
                       animations := animations m;
                       _active_frame := from_frame;
                       _frame_rate := _frame_rate m;
                       _from_frame := from_frame; _to_frame := to_frame;
                       _time := _time m; _loop := loop;
                       _visible := _visible m; children := children m |}).
  { unfold m', animate. cbn [animations set_animation]. rewrite Hl.
    cbn [fst snd].
    replace (from_frame <? first)%Z with false by (symmetry; apply Z.ltb_ge; lia).
    replace (last <? from_frame)%Z with false by (symmetry; apply Z.ltb_ge; lia).
    replace (to_frame <? first)%Z with false by (symmetry; apply Z.ltb_ge; lia).
    replace (last <? to_frame)%Z with false by (symmetry; apply Z.ltb_ge; lia).
    reflexivity. }
  apply (play_on_track animation_name from_frame to_frame (children m) ticks
           Hname Hne Hbuilt);
    rewrite Em; cbn [_visible animation children _from_frame _to_frame];
    try reflexivity; try assumption.
  unfold on_track. cbn [_from_frame _to_frame _active_frame]. lia.
Qed.

End PlayFacts.

Lemma playing_never_misses_a_frame_witness :
  fst (fst (play (fun _ => 1%float)
              (fst (animate runner "run" 2 0 false))
              [(true, (5, 6, 7)%float); (false, (5, 9, 9)%float)]))
  = Returns tt.
Proof.
  refine (proj1 (playing_never_misses_a_frame (fun _ => 1%float) runner "run"
                   2 0 false
                   [(true, (5, 6, 7)%float); (false, (5, 9, 9)%float)]
                   eq_refl _ _ _ _)).
  - discriminate.
  - discriminate.
  - exists 0%Z, 2%Z. cbn. split; [reflexivity | lia].
  - intros k Hk. assert (E : k = 2%Z) by lia. subst k.
    vm_compute. auto.
Defined.

Section FrameRate.
Variable reciprocal : Z -> float.

Lemma render_keeps_rate (m : Model) (needs_build : bool)
    (now0 now1 now2 : float) :
  PrimFloat.eqb (_frame_rate m) 0 = false ->
  _frame_rate (snd (fst (render reciprocal m needs_build now0 now1 now2)))
  = _frame_rate m.
Proof.
  intros Hr. destruct (render_path m) as [Hidle | [Hv Ha]].
  - destruct (render_idle reciprocal m needs_build now0 now1 now2 Hidle)
      as [E _].
    rewrite E. reflexivity.
  - destruct (render_animated reciprocal m needs_build now0 now1 now2 Hv Ha)
      as [[Er _] | [_ [m1 [Em H]]]]; [congruence |].
    rewrite Em. apply H. exact Hr.
Qed.

Lemma play_keeps_rate (ticks : list (bool * (float * float * float))) :
  forall m,
    PrimFloat.eqb (_frame_rate m) 0 = false ->
    _frame_rate (snd (fst (play reciprocal m ticks))) = _frame_rate m.
Proof.
  induction ticks as [| [needs_build [[now0 now1] now2]] ticks IH];
    intros m Hr; [reflexivity |].
  cbn [play].
  pose proof (render_keeps_rate m needs_build now0 now1 now2 Hr) as Hk.
  destruct (render reciprocal m needs_build now0 now1 now2) as [[r m'] log].
  cbn [fst snd] in Hk. destruct r as [u | e]; [| exact Hk].
  assert (Hr' : PrimFloat.eqb (_frame_rate m') 0 = false)
    by (rewrite Hk; exact Hr).
  specialize (IH m' Hr').
  destruct (play reciprocal m' ticks) as [[r' m''] log'].
  cbn [fst snd] in *. congruence.
Qed.

(** X18. The frame rate is set once. As soon as it is not 0, neither
    [animate] nor any number of calls of [render] changes it: an animation
    started later over another range of frames is played at the rate that
    was computed for the first one. *)
Theorem frame_rate_is_set_once
    (m : Model) (animation_name : string) (from_frame to_frame : Z)
    (loop : bool) (ticks : list (bool * (float * float * float))) :
  PrimFloat.eqb (_frame_rate m) 0 = false ->
  _frame_rate
    (snd (fst (play reciprocal
                 (fst (animate m animation_name from_frame to_frame loop))
                 ticks)))
  = _frame_rate m.
Proof.
  intros Hr.
  assert (Ha : _frame_rate
                 (fst (animate m animation_name from_frame to_frame loop))
               = _frame_rate m).
  { unfold animate. cbn [animations set_animation].
    destruct (lookup animation_name (animations m)) as [[first last] |];
      [| reflexivity].
    destruct (_ || _); [reflexivity |].
    destruct (_ || _); reflexivity. }
  rewrite play_keeps_rate; [exact Ha | rewrite Ha; exact Hr].
Qed.

End FrameRate.

Lemma frame_rate_is_set_once_witness :
  _frame_rate
    (snd (fst (play (fun _ => 0.5%float)
                 (fst (animate warm_runner "run" 0 2 true))
                 [(false, (5, 6, 7)%float)])))
  = _frame_rate warm_runner.
Proof.
  apply (frame_rate_is_set_once
           (fun _ => 0.5%float)
           warm_runner "run" 0 2 true [(false, (5, 6, 7)%float)]).
  reflexivity.
Defined.

(** * Properties of the sphere *)

Lemma indices_from_app (a b : nat) :
  forall c,
    indices_from c (a + b)
    = indices_from c a ++ indices_from (c + 4 * Z.of_nat a) b.
Proof.
  induction a as [| a IH]; intros c.
  - cbn [Nat.add indices_from app]. f_equal. lia.
  - cbn [Nat.add indices_from app]. rewrite IH. do 4 f_equal. lia.
Qed.

Lemma indices_from_bounds (n : nat) :
  forall c t x,
    In t (indices_from c n) -> In x t ->
    (c <= x < c + 4 * Z.of_nat n)%Z /\ List.length t = 3.
Proof.
  induction n as [| n IH]; intros c t x Ht Hx; [destruct Ht |].
  cbn [indices_from] in Ht. destruct Ht as [<- | [<- | Ht]].
  - split; [| reflexivity]. cbn [In] in Hx. lia.
  - split; [| reflexivity]. cbn [In] in Hx. lia.
  - destruct (IH _ _ _ Ht Hx) as [H1 H2]. split; [lia | exact H2].
Qed.

Lemma indices_from_triples (n : nat) :
  forall c t, In t (indices_from c n) -> List.length t = 3.
Proof.
  induction n as [| n IH]; intros c t Ht; [destruct Ht |].
  cbn [indices_from] in Ht. destruct Ht as [<- | [<- | Ht]];
    [reflexivity | reflexivity | exact (IH _ _ Ht)].
Qed.

Lemma indices_from_cover (n : nat) :
  forall c x,
    (c <= x < c + 4 * Z.of_nat n)%Z ->
    exists t, In t (indices_from c n) /\ In x t.
Proof.
  induction n as [| n IH]; intros c x Hx; [lia |].
  cbn [indices_from].
  destruct (Z_lt_dec x (c + 4)) as [Hlt | Hge].
  - destruct (Z.eq_dec x (c + 3)) as [E | E].
    + exists [c; c + 2; c + 3]%Z. split; [right; left; reflexivity |].
      cbn [In]. lia.
    + exists [c; c + 1; c + 2]%Z. split; [left; reflexivity |].
      cbn [In]. lia.
  - destruct (IH (c + 4)%Z x) as [t [Ht Hxt]]; [lia |].
    exists t. split; [right; right; exact Ht | exact Hxt].
Qed.

Section SphereFacts.
Variable radians : float -> float.
Variable sin : float -> float.
Variable cos : float -> float.
Variable float_of_int : Z -> float.
Variable plane_normal :
  list float -> list float -> list float -> float * float * float.

Lemma grown_refl (st : Sphere.Mesh * Z) : grown 0 st st.
Proof.
  unfold grown. cbn [indices_from]. rewrite app_nil_r, firstn_all.
  repeat split; lia.
Qed.

Lemma grown_trans (a b : nat) (st1 st2 st3 : Sphere.Mesh * Z) :
  grown a st1 st2 -> grown b st2 st3 -> grown (a + b) st1 st3.
Proof.
  unfold grown.
  intros [V1 [T1 [N1 [I1 [C1 F1]]]]] [V2 [T2 [N2 [I2 [C2 F2]]]]].
  assert (F : firstn (List.length (Sphere._vertices (fst st1)))
                (Sphere._vertices (fst st3))
              = Sphere._vertices (fst st1)).
  { replace (List.length (Sphere._vertices (fst st1)))
      with (Nat.min (List.length (Sphere._vertices (fst st1)))
              (List.length (Sphere._vertices (fst st2)))) at 1 by lia.
    rewrite <- firstn_firstn, F2. exact F1. }
  rewrite V2, T2, N2, I2, C2, V1, T1, N1, I1, C1.
  rewrite indices_from_app, app_assoc.
  repeat split; try lia. exact F.
Qed.

Lemma add_quad_grown (r step_angle step_height u_step v_step : float)
    (i j : Z) (st : Sphere.Mesh * Z) :
  grown 1 st
    (Sphere.add_quad sin cos float_of_int plane_normal r step_angle
       step_height u_step v_step i j st).
Proof.
  destruct st as [m c]. unfold Sphere.add_quad. cbv zeta.
  destruct (plane_normal _ _ _) as [[n0 n1] n2].
  unfold grown.
  cbn [fst snd Sphere._vertices Sphere._texcoords Sphere._normals
       Sphere._indices indices_from].
  rewrite !length_app. cbn [List.length].
  rewrite firstn_app, Nat.sub_diag, firstn_all. cbn [firstn].
  rewrite app_nil_r. repeat split; lia.
Qed.

Lemma row_grown (r step_angle step_height u_step v_step : float) (i : Z)
    (js : list Z) :
  forall st,
    grown (List.length js) st
      (fold_left
         (fun st j =>
            Sphere.add_quad sin cos float_of_int plane_normal r step_angle
              step_height u_step v_step i j st)
         js st).
Proof.
  induction js as [| j js IH]; intros st; [apply grown_refl |].
  cbn [fold_left List.length].
  exact (grown_trans 1 (List.length js) _ _ _
           (add_quad_grown r step_angle step_height u_step v_step i j st)
           (IH _)).
Qed.

Lemma rows_grown (r step_angle step_height u_step v_step : float)
    (js ks : list Z) :
  forall st,
    grown (List.length ks * List.length js) st
      (fold_left
         (fun st i =>
            fold_left
              (fun st j =>
                 Sphere.add_quad sin cos float_of_int plane_normal r
                   step_angle step_height u_step v_step i j st)
              js st)
         ks st).
Proof.
  induction ks as [| i ks IH]; intros st; [apply grown_refl |].
  cbn [fold_left List.length Nat.mul].
  exact (grown_trans _ _ _ _ _
           (row_grown r step_angle step_height u_step v_step i js st)
           (IH _)).
Qed.

Lemma range_length (n : Z) : List.length (Sphere.range n) = Z.to_nat n.
Proof. unfold Sphere.range. rewrite length_map, length_seq. reflexivity. Qed.

Lemma build_sphere_grown (m : Sphere.Mesh) (radius : float)
    (parallels meridians : Z) :
  meridians <> 0%Z -> parallels <> 0%Z ->
  fst (Sphere.build_sphere radians sin cos float_of_int plane_normal m
         radius parallels meridians) = Sphere.Returns true
  /\ grown (Z.to_nat parallels * Z.to_nat meridians) (m, 0%Z)
       (snd (Sphere.build_sphere radians sin cos float_of_int plane_normal m
               radius parallels meridians),
        (4 * Z.of_nat (Z.to_nat parallels * Z.to_nat meridians))%Z).
Proof.
  intros Hm Hp. unfold Sphere.build_sphere.
  apply Z.eqb_neq in Hm, Hp. rewrite Hm, Hp. cbv zeta. cbn [fst snd].
  split; [reflexivity |].
  match goal with
  | |- grown _ _ (fst (fold_left ?f ?ks ?st), _) =>
      pose proof (rows_grown radius
                    (radians (360 / float_of_int meridians))
                    (radians (180 / float_of_int parallels))
                    (1 / float_of_int meridians)
                    (1 / float_of_int parallels)
                    (Sphere.range meridians) (Sphere.range parallels) st) as G;
      destruct (fold_left f ks st) as [m' c'] eqn:E
  end.
  rewrite !range_length in G. rewrite ?E in G.
  unfold grown in *. cbn [fst snd] in *.
  destruct G as [V [T [N [I [C F]]]]]. repeat split; assumption || lia.
Qed.

End SphereFacts.

Section SphereProperties.
Variable radians : float -> float.
Variable sin : float -> float.
Variable cos : float -> float.
Variable float_of_int : Z -> float.
Variable plane_normal :
  list float -> list float -> list float -> float * float * float.

Local Abbreviation build :=
  (Sphere.build_sphere radians sin cos float_of_int plane_normal).

(** X19. [build_sphere] raises [ZeroDivisionError] and leaves the mesh as
    it is when the meridians or the parallels are 0. Otherwise it returns
    [True] after one quad for each pair of a parallel and a meridian (none
    when one of the two is negative): four vertices, four texture
    coordinates and four normals are appended for each quad, and two index
    triples; what the buffers held stays in front. *)
Theorem build_sphere_appends_quads
    (m : Sphere.Mesh) (radius : float) (parallels meridians : Z) :
  (meridians = 0%Z \/ parallels = 0%Z ->
   build m radius parallels meridians = (Sphere.Raises Sphere.ZeroDivisionError, m))
  /\ (meridians <> 0%Z -> parallels <> 0%Z ->
      let quads := Z.to_nat parallels * Z.to_nat meridians in
      let m' := snd (build m radius parallels meridians) in
      fst (build m radius parallels meridians) = Sphere.Returns true
      /\ List.length (Sphere._vertices m')
         = List.length (Sphere._vertices m) + 4 * quads
      /\ List.length (Sphere._texcoords m')
         = List.length (Sphere._texcoords m) + 4 * quads
      /\ List.length (Sphere._normals m')
         = List.length (Sphere._normals m) + 4 * quads
      /\ List.length (Sphere._indices m')
         = List.length (Sphere._indices m) + 2 * quads
      /\ firstn (List.length (Sphere._vertices m)) (Sphere._vertices m')
         = Sphere._vertices m
      /\ firstn (List.length (Sphere._indices m)) (Sphere._indices m')
         = Sphere._indices m).
Proof.
  split.
  - intros H. unfold build, Sphere.build_sphere.
    destruct (Z.eqb meridians 0) eqn:Em; [reflexivity |].
    destruct (Z.eqb parallels 0) eqn:Ep; [reflexivity |].
    apply Z.eqb_neq in Em, Ep. destruct H; contradiction.
  - intros Hm Hp quads m'.
    destruct (build_sphere_grown radians sin cos float_of_int plane_normal
                m radius parallels meridians Hm Hp) as [Hr G].
    fold m' quads in G. unfold grown in G.
    cbn [fst snd] in G. destruct G as [V [T [N [I [_ F]]]]].
    repeat split; try assumption.
    + rewrite I, length_app. f_equal.
      clear. generalize 0%Z. induction quads as [| q IH]; intros c;
        [reflexivity |].
      cbn [indices_from List.length]. rewrite IH. lia.
    + rewrite I, firstn_app, Nat.sub_diag, firstn_all. cbn [firstn].
      apply app_nil_r.
Qed.

(** X20. A sphere built on an empty mesh is well formed. With parallels and
    meridians other than 0, every index triple has three indices, each the
    number of a vertex of the mesh, and every vertex is used by a
    triangle. *)
Theorem fresh_sphere_is_well_formed
    (radius : float) (parallels meridians : Z) :
  meridians <> 0%Z -> parallels <> 0%Z ->
  let m' := snd (build empty_mesh radius parallels meridians) in
  (forall t, In t (Sphere._indices m') ->
     List.length t = 3
     /\ forall x, In x t ->
          (0 <= x < Z.of_nat (List.length (Sphere._vertices m')))%Z)
  /\ (forall x, (0 <= x < Z.of_nat (List.length (Sphere._vertices m')))%Z ->
        exists t, In t (Sphere._indices m') /\ In x t).
Proof.
  intros Hm Hp m'.
  destruct (build_sphere_grown radians sin cos float_of_int plane_normal
              empty_mesh radius parallels meridians Hm Hp) as [_ G].
  fold m' in G. unfold grown in G.
  cbn [fst snd empty_mesh Sphere._vertices Sphere._indices List.length app]
    in G.
  destruct G as [V [_ [_ [I _]]]]. rewrite V, I. split.
  - intros t Ht. split.
    + exact (indices_from_triples _ _ _ Ht).
    + intros x Hx.
      pose proof (proj1 (indices_from_bounds _ _ _ _ Ht Hx)). lia.
  - intros x Hx. apply indices_from_cover. lia.
Qed.

(** X21. The index triples are numbered from 0 whatever the mesh already
    holds. Building the same sphere a second time on the same mesh doubles
    the vertices and repeats the index triples of the first time: no
    triangle uses a vertex of the second copy. *)
Theorem build_sphere_twice
    (radius : float) (parallels meridians : Z) :
  meridians <> 0%Z -> parallels <> 0%Z ->
  let m1 := snd (build empty_mesh radius parallels meridians) in
  let m2 := snd (build m1 radius parallels meridians) in
  List.length (Sphere._vertices m2) = 2 * List.length (Sphere._vertices m1)
  /\ Sphere._indices m2 = Sphere._indices m1 ++ Sphere._indices m1
  /\ forall t x, In t (Sphere._indices m2) -> In x t ->
       (0 <= x < Z.of_nat (List.length (Sphere._vertices m1)))%Z.
Proof.
  intros Hm Hp m1 m2.
  destruct (build_sphere_grown radians sin cos float_of_int plane_normal
              empty_mesh radius parallels meridians Hm Hp) as [_ G1].
  destruct (build_sphere_grown radians sin cos float_of_int plane_normal
              m1 radius parallels meridians Hm Hp) as [_ G2].
  fold m1 in G1. fold m2 in G2. unfold grown in G1, G2.
  cbn [fst snd empty_mesh Sphere._vertices Sphere._indices List.length app]
    in G1, G2.
  destruct G1 as [V1 [_ [_ [I1 _]]]]. destruct G2 as [V2 [_ [_ [I2 _]]]].
  split; [lia |]. split; [rewrite I2, I1; reflexivity |].
  intros t x Ht Hx. rewrite I2, I1 in Ht. rewrite V1.
  assert (Ht' : In t (indices_from 0
                        (Z.to_nat parallels * Z.to_nat meridians))).
  { apply in_app_or in Ht. destruct Ht; assumption. }
  pose proof (proj1 (indices_from_bounds _ _ _ _ Ht' Hx)). lia.
Qed.

End SphereProperties.

Lemma fresh_sphere_is_well_formed_witness :
  (forall t, In t (Sphere._indices small_sphere) ->
     List.length t = 3
     /\ forall x, In x t ->
          (0 <= x < Z.of_nat (List.length (Sphere._vertices small_sphere)))%Z)
  /\ (forall x,
        (0 <= x < Z.of_nat (List.length (Sphere._vertices small_sphere)))%Z ->
        exists t, In t (Sphere._indices small_sphere) /\ In x t).
Proof.
  apply (fresh_sphere_is_well_formed (fun x => x) (fun x => x) (fun x => x)
           (fun z => PrimFloat.of_uint63 (Uint63.of_Z z)) flat_normal
           0.5%float 2 3); discriminate.
Defined.

Lemma build_sphere_twice_witness :
  List.length
    (Sphere._vertices
       (snd (Sphere.build_sphere (fun x => x) (fun x => x) (fun x => x)
               (fun z => PrimFloat.of_uint63 (Uint63.of_Z z)) flat_normal
               small_sphere 0.5 2 3)))
  = 2 * List.length (Sphere._vertices small_sphere).
Proof.
  apply (build_sphere_twice (fun x => x) (fun x => x) (fun x => x)
           (fun z => PrimFloat.of_uint63 (Uint63.of_Z z)) flat_normal
           0.5%float 2 3); discriminate.
Defined.

(** * Properties of the cylinder *)

Lemma flat_map_rounds (f : Z -> list Cylinder.call) (l : list Z) :
  (forall i, List.length (f i) = 4 /\ Forall triangle_call (f i)) ->
  List.length (flat_map f l) = 4 * List.length l
  /\ Forall triangle_call (flat_map f l).
Proof.
  intros Hf. induction l as [| i l [IHl IHt]]; [split; [reflexivity | constructor] |].
  cbn [flat_map List.length]. destruct (Hf i) as [H4 Ht]. split.
  - rewrite length_app, H4, IHl. lia.
  - apply Forall_app. split; assumption.
Qed.

Section CylinderFacts.
Variable radians : float -> float.
Variable sin : float -> float.
Variable cos : float -> float.
Variable float_of_int : Z -> float.
Variable int_div : Z -> Z -> float.

Lemma build_with_triangles
    (round : float -> float -> float -> float -> float -> Z
             -> list Cylinder.call)
    (bottom_radius top_radius : float) (meridians : Z) (height : float) :
  (forall a b c d e i,
     List.length (round a b c d e i) = 4
     /\ Forall triangle_call (round a b c d e i)) ->
  (meridians = 0%Z ->
   Cylinder.build_with radians float_of_int int_div round bottom_radius
     top_radius meridians height
   = (Cylinder.Raises Cylinder.ZeroDivisionError, []))
  /\ (meridians <> 0%Z ->
      exists triangles,
        Cylinder.build_with radians float_of_int int_div round bottom_radius
          top_radius meridians height
        = (Cylinder.Returns true, triangles ++ [Cylinder.fix_normals])
        /\ List.length triangles = 4 * Z.to_nat meridians
        /\ Forall triangle_call triangles).
Proof.
  intros Hround. unfold Cylinder.build_with. split.
  - intros ->. reflexivity.
  - intros Hm. apply Z.eqb_neq in Hm. rewrite Hm. cbv zeta.
    eexists. split; [reflexivity |].
    match goal with
    | |- List.length (flat_map ?f ?l) = _ /\ _ =>
        destruct (flat_map_rounds f l) as [H4 Ht];
        [intros i; apply Hround |]
    end.
    split; [| exact Ht].
    rewrite H4. unfold Cylinder.range. rewrite length_map, length_seq.
    reflexivity.
Qed.

Lemma rounds_are_triangles :
  (forall a b c d e i,
     List.length
       (Cylinder.geometries_round sin cos float_of_int a b c d e i) = 4
     /\ Forall triangle_call
          (Cylinder.geometries_round sin cos float_of_int a b c d e i))
  /\ (forall a b c d e i,
        List.length
          (Cylinder.geometry_round sin cos float_of_int a b c d e i) = 4
        /\ Forall triangle_call
             (Cylinder.geometry_round sin cos float_of_int a b c d e i)).
Proof.
  split; intros a b c d e i; (split; [reflexivity |]);
    unfold Cylinder.geometries_round, Cylinder.geometry_round; cbv zeta;
    repeat constructor;
    eexists _, _; (split; [reflexivity |]); repeat constructor.
Qed.

(** X22. Both versions of [build_cylinder] raise [ZeroDivisionError]
    before touching the mesh when the meridians are 0. Otherwise they
    return [True] after adding four triangles for each meridian (none for a
    negative number), each of three vertices of three coordinates and
    three texture coordinates of two, and then calling [fix_normals]
    once, last. *)
Theorem build_cylinder_adds_triangles
    (bottom_radius top_radius : float) (meridians : Z) (height : float) :
  forall build,
    build = Cylinder.build_cylinder radians sin cos float_of_int int_div
    \/ build = Cylinder.geometries_build_cylinder radians sin cos
                 float_of_int int_div ->
    (meridians = 0%Z ->
     build bottom_radius top_radius meridians height
     = (Cylinder.Raises Cylinder.ZeroDivisionError, []))
    /\ (meridians <> 0%Z ->
        exists triangles,
          build bottom_radius top_radius meridians height
          = (Cylinder.Returns true, triangles ++ [Cylinder.fix_normals])
          /\ List.length triangles = 4 * Z.to_nat meridians
          /\ Forall triangle_call triangles).
Proof.
  intros build [-> | ->];
    unfold Cylinder.build_cylinder, Cylinder.geometries_build_cylinder;
    apply build_with_triangles; apply rounds_are_triangles.
Qed.

Lemma rewind_sides_rounds (r_bot r_top h_2 step_angle u_step : float)
    (l : list Z) :
  rewind_sides
    (flat_map
       (Cylinder.geometries_round sin cos float_of_int r_bot r_top h_2
          step_angle u_step) l
     ++ [Cylinder.fix_normals])
  = flat_map
      (Cylinder.geometry_round sin cos float_of_int r_bot r_top h_2
         step_angle u_step) l
    ++ [Cylinder.fix_normals].
Proof.
  induction l as [| i l IH]; [reflexivity |].
  cbn [flat_map]. unfold Cylinder.geometries_round at 1.
  unfold Cylinder.geometry_round at 1. cbv zeta.
  cbn [app rewind_sides rewind]. rewrite IH. reflexivity.
Qed.

(** X23. The two versions of [build_cylinder] end the same way and add the
    same triangles in the same order, except that the two side triangles
    of every meridian are wound the other way in
    payton.scene.geometry.cylinder: their second and third corners, and
    the texture coordinates with them, change places. The triangles of
    the two caps are the same. *)
Theorem cylinder_versions_differ_in_winding
    (bottom_radius top_radius : float) (meridians : Z) (height : float) :
  fst (Cylinder.build_cylinder radians sin cos float_of_int int_div
         bottom_radius top_radius meridians height)
  = fst (Cylinder.geometries_build_cylinder radians sin cos float_of_int
           int_div bottom_radius top_radius meridians height)
  /\ snd (Cylinder.build_cylinder radians sin cos float_of_int int_div
            bottom_radius top_radius meridians height)
     = rewind_sides
         (snd (Cylinder.geometries_build_cylinder radians sin cos
                 float_of_int int_div bottom_radius top_radius meridians
                 height)).
Proof.
  unfold Cylinder.build_cylinder, Cylinder.geometries_build_cylinder,
    Cylinder.build_with.
  destruct (Z.eqb meridians 0); [split; reflexivity |].
  cbv zeta. cbn [fst snd]. split; [reflexivity |].
  symmetry. apply rewind_sides_rounds.
Qed.

End CylinderFacts.

Lemma build_cylinder_adds_triangles_witness :
  exists triangles,
    Cylinder.build_cylinder (fun x => x) (fun x => x) (fun x => x)
      (fun _ => 1%float) (fun _ _ => 1%float) 0.5 0.5 3 1
    = (Cylinder.Returns true, triangles ++ [Cylinder.fix_normals])
    /\ List.length triangles = 4 * Z.to_nat 3
    /\ Forall triangle_call triangles.
Proof.
  apply (build_cylinder_adds_triangles (fun x => x) (fun x => x)
           (fun x => x) (fun _ => 1%float) (fun _ _ => 1%float)
           0.5%float 0.5%float 3 1%float _ (or_introl eq_refl)).
  discriminate.
Defined.
